(** * immich-go, package [folder]: the local asset browser

    A shallow embedding of [NewLocalFiles], [Browse], [passOneFsWalk],
    [passTwo] and [assetFromFile], with the parts of Go's [strings], [path],
    [path/filepath], [io/fs] and [sort] packages they call.

    Conventions of the embedding:
    - Go strings are [string]; paths use the slash separator (the Unix
      behaviour of [path/filepath], which is also the one of [io/fs] names);
    - a Go [map\[string\]T] is a [gmap string T]; the order in which a Go
      [range] statement visits a map is not fixed by the language, so every
      such statement draws its order from an explicit oracle;
    - the event recorder, the released handles, the polls of the context and
      the groups sent on the channel are fields of an explicit state. *)

From Stdlib Require Import Ascii String ZArith.
From stdpp Require Import base option list gmap strings sorting.

Local Open Scope Z_scope.
Local Open Scope nat_scope.

(** ** Go's string and path helpers *)

Module GoStrings.

(** [len(s) >= len(suffix) && s\[len(s)-len(suffix):\] == suffix] *)
Definition HasSuffix (s suffix : string) : bool :=
  (String.length suffix <=? String.length s) &&
  String.eqb
    (String.substring (String.length s - String.length suffix)
                      (String.length suffix) s)
    suffix.

(** [strings.TrimSuffix]: [s] without the trailing [suffix], or [s]
    itself when it does not end with [suffix]. *)
Definition TrimSuffix (s suffix : string) : string :=
  if HasSuffix s suffix
  then String.substring 0 (String.length s - String.length suffix) s
  else s.

(** [strings.Join] *)
Fixpoint Join (elems : list string) (sep : string) : string :=
  match elems with
  | [] => ""
  | [e] => e
  | e :: rest => e +:+ sep +:+ Join rest sep
  end.

(** [strings.Split(s, "/")]: the pieces of [s] between slashes; a string
    without a slash is its only piece. [cur] is the piece being read,
    reversed. *)
Fixpoint splitSlash_go (cur : string) (s : string) : list string :=
  match s with
  | EmptyString => [String.rev cur]
  | String c r =>
      if Ascii.eqb c "/"
      then String.rev cur :: splitSlash_go "" r
      else splitSlash_go (String c cur) r
  end.

Definition SplitSlash (s : string) : list string := splitSlash_go "" s.

(** The scan from the end of [path.Ext]: [None] while neither a dot nor a
    slash was met in the part already read (the tail). *)
Fixpoint extScan (s : string) : option string :=
  match s with
  | EmptyString => None
  | String c r =>
      match extScan r with
      | Some e => Some e
      | None =>
          if Ascii.eqb c "/" then Some ""
          else if Ascii.eqb c "." then Some (String c r)
          else None
      end
  end.

(** [path.Ext] and [filepath.Ext]: the suffix that starts at the last dot
    of the last element of the path, empty when that element has no dot. *)
Definition Ext (p : string) : string := default "" (extScan p).

(** Cuts a path after its last slash: what precedes (slash included) and
    what follows. Without a slash the first part is empty. *)
Fixpoint cutLastSlash (s : string) : string * string :=
  match s with
  | EmptyString => ("", "")
  | String c r =>
      let '(d, b) := cutLastSlash r in
      if String.eqb d "" then
        if Ascii.eqb c "/" then (String c "", r) else ("", String c r)
      else (String c d, b)
  end.

(** [filepath.Split] *)
Definition Split (p : string) : string * string := cutLastSlash p.

(** The elements of a path kept by [Clean], last first: empty and dot
    elements disappear, a dot-dot element removes the element before it,
    stays in a relative path when there is none to remove, and disappears
    at the root of a rooted path. *)
Fixpoint cleanElems (rooted : bool) (elems : list string) (out : list string)
  : list string :=
  match elems with
  | [] => out
  | e :: rest =>
      if String.eqb e "" then cleanElems rooted rest out
      else if String.eqb e "." then cleanElems rooted rest out
      else if String.eqb e ".." then
        match out with
        | o :: out' =>
            if String.eqb o ".."
            then cleanElems rooted rest (e :: out)
            else cleanElems rooted rest out'
        | [] =>
            if rooted then cleanElems rooted rest out
            else cleanElems rooted rest [e]
        end
      else cleanElems rooted rest (e :: out)
  end.

(** [path.Clean] and [filepath.Clean] *)
Definition Clean (p : string) : string :=
  match p with
  | EmptyString => "."
  | String c _ =>
      let rooted := Ascii.eqb c "/" in
      let body := Join (rev (cleanElems rooted (SplitSlash p) [])) "/" in
      if rooted then "/" +:+ body
      else if String.eqb body "" then "." else body
  end.

(** [filepath.Dir]: the path up to its last slash, cleaned. *)
Definition Dir (p : string) : string := Clean (fst (cutLastSlash p)).

(** Removes the trailing slashes of a path. *)
Fixpoint stripSlashes (s : string) : string :=
  match s with
  | EmptyString => ""
  | String c r =>
      let r' := stripSlashes r in
      if String.eqb r' "" && Ascii.eqb c "/" then "" else String c r'
  end.

(** [filepath.Base]: the last element of the path. *)
Definition Base (p : string) : string :=
  if String.eqb p "" then "."
  else
    let p1 := stripSlashes p in
    let p2 := snd (cutLastSlash p1) in
    if String.eqb p2 "" then "/" else p2.

(** [path.Join] of two elements; empty elements are ignored. *)
Definition PathJoin (a b : string) : string :=
  if String.eqb a "" then (if String.eqb b "" then "" else Clean b)
  else if String.eqb b "" then Clean a
  else Clean (a +:+ "/" +:+ b).

(** [sort.Strings]: increasing byte-wise order. *)
Definition SortStrings (l : list string) : list string :=
  merge_sort String.le l.

End GoStrings.

Import GoStrings.

(** ** Data model *)

(** [metadata.TypeUnknown], [TypeImage], [TypeVideo], [TypeSidecar] *)
Inductive MediaType := TypeUnknown | TypeImage | TypeVideo | TypeSidecar.

Inductive FolderMode := FolderModeNone | FolderModeFolder | FolderModePath.

(** A Go [error], as its message. *)
Definition error : Type := string.

(** A point in time (the date taken of an asset). *)
Definition Time : Type := Z.

Global Instance MediaType_eq_dec : EqDecision MediaType.
Proof. solve_decision. Defined.
Global Instance FolderMode_eq_dec : EqDecision FolderMode.
Proof. solve_decision. Defined.

(** The fields of [ImportFlags] the browser reads. The matchers and lists of
    the packages [namematcher], [metadata] and [cliflags] are taken by the
    method the browser calls on them. *)
Record ImportFlags := {
  ImportIntoAlbum : string;
  UsePathAsAlbumName : FolderMode;
  AlbumNamePathSeparator : string;
  Recursive : bool;
  IgnoreSideCarFiles : bool;
  BannedFiles_Match : string -> bool;
  SupportedMedia_TypeFromExt : string -> MediaType;
  IncludedExtensions_Include : string -> bool;
  ExcludedExtensions_Exclude : string -> bool;
  DateRange_IsSet : bool;
  DateRange_InRange : Time -> bool;
  UseExifTool : bool
}.

(** An entry of a tree as [fs.WalkDir] meets it: a file, or a directory with
    the outcome of [ReadDir] on it (an error, if any, and the entries read). *)
#[local] Unset Elimination Schemes.
Inductive DirEntry :=
| FileEntry (name : string)
| SubDir (name : string) (readDirErr : option error) (entries : list DirEntry).
#[local] Set Elimination Schemes.

Definition entryName (d : DirEntry) : string :=
  match d with FileEntry n => n | SubDir n _ _ => n end.

(** An [fs.FS]. [fsKey] stands for the identity of the value (what a Go map
    keyed by [fs.FS] compares), [fsName] is [Name()] when the tree implements
    [fshelper.NameFS], [fsRoot] is the outcome of [Stat] on the root with the
    tree below it, [fsStat] the size [fs.Stat] reports for a file. *)
Record FS := {
  fsKey : nat;
  fsName : option string;
  fsRoot : error + DirEntry;
  fsStat : string -> error + Z
}.

(** [fileevent.Code], the ones the browser records. *)
Inductive Code :=
| DiscoveredImage | DiscoveredVideo | DiscoveredSidecar | DiscoveredUnsupported
| DiscoveredDiscarded | AnalysisAssociatedMetadata | Error.

(** [fileevent.AsFileAndName(fsys, name)] *)
Record FileAndName := AsFileAndName { fanFSys : nat; fanName : string }.

(** A call of [Recorder.Record]: the code, the file, the trailing arguments. *)
Record Event := { evCode : Code; evFile : FileAndName; evArgs : list string }.

Global Instance Code_eq_dec : EqDecision Code.
Proof. solve_decision. Defined.
Global Instance FileAndName_eq_dec : EqDecision FileAndName.
Proof. solve_decision. Defined.
Global Instance Event_eq_dec : EqDecision Event.
Proof. solve_decision. Defined.

Record fileLinks := { image : string; video : string; sidecar : string }.

Global Instance fileLinks_eq_dec : EqDecision fileLinks.
Proof. solve_decision. Defined.

(** [adapters.LocalAssetFile], the fields the browser sets. *)
Record LocalAssetFile := {
  FileName : string;
  Title : string;
  FSys : nat;
  FileSize : Z;
  DateTaken : Time
}.

Inductive GroupKind := GroupKindNone | GroupKindMotionPhoto.

(** [metadata.SideCarFile] *)
Record SideCarFile := { scFSys : nat; scFileName : string }.

(** [adapters.LocalAlbum] *)
Record LocalAlbum := { albumPath : string; albumTitle : string }.

(** [adapters.AssetGroup]; [SideCar] is [None] for the zero value. *)
Record AssetGroup := {
  Kind : GroupKind;
  Assets : list LocalAssetFile;
  CoverIndex : nat;
  SideCar : option SideCarFile;
  Albums : list LocalAlbum
}.

(** The handle of [metadata.ExifTool] *)
Inductive ExifTool := ExifToolHandle.

Record LocalAssetBrowser := {
  fsyss : list FS;
  albums : gmap string string;
  catalogs : gmap nat (gmap string (list string));
  log : list Event;
  flags : ImportFlags;
  exiftool : option ExifTool
}.

(** A [context.Context]: whether [Done] is closed at the n-th poll, and the
    error [Err] reports then. *)
Record Context := { ctxDone : nat -> bool; ctxErr : error }.

(** The state a scan runs in: the browser, the handles closed so far, the
    number of polls of the context and of [range] statements over a map
    executed so far, the groups received from the channel, and whether the
    external tool was closed. *)
Record Run := {
  la : LocalAssetBrowser;
  closed : list FileAndName;
  polls : nat;
  ranges : nat;
  fileChan : list AssetGroup;
  exiftoolClosed : bool
}.

(** ** The state monad of the scan *)

Definition M (A : Type) : Type := Run -> A * Run.

Definition ret {A} (a : A) : M A := fun st => (a, st).

Definition bind {A B} (m : M A) (k : A -> M B) : M B :=
  fun st => let '(a, st') := m st in k a st'.

Notation "'let*' x := c1 'in' c2" := (bind c1 (fun x => c2))
  (at level 10, x pattern, c1 at level 100, c2 at level 200).
Notation "c1 >> c2" := (bind c1 (fun _ => c2))
  (at level 100, c2 at level 200, right associativity).

Definition withLa (f : LocalAssetBrowser -> LocalAssetBrowser) (st : Run) : Run :=
  {| la := f (la st); closed := closed st; polls := polls st;
     ranges := ranges st; fileChan := fileChan st;
     exiftoolClosed := exiftoolClosed st |}.

Definition getLa : M LocalAssetBrowser := fun st => (la st, st).

(** [la.log.Record(ctx, code, AsFileAndName(fsys, name), args...)] *)
Definition Record_ (c : Code) (fsys : FS) (name : string) (args : list string)
  : M unit :=
  fun st =>
    (tt, withLa (fun b =>
       {| fsyss := fsyss b; albums := albums b; catalogs := catalogs b;
          log := log b ++ [{| evCode := c;
                              evFile := AsFileAndName (fsKey fsys) name;
                              evArgs := args |}];
          flags := flags b; exiftool := exiftool b |}) st).

Definition setCatalogs (c : gmap nat (gmap string (list string))) : M unit :=
  fun st =>
    (tt, withLa (fun b =>
       {| fsyss := fsyss b; albums := albums b; catalogs := c;
          log := log b; flags := flags b; exiftool := exiftool b |}) st).

(** [la.catalogs\[fsys\]\[dir\]], nil when absent *)
Definition bucket (b : LocalAssetBrowser) (fsys : FS) (dir : string) : list string :=
  default [] (default ∅ (catalogs b !! fsKey fsys) !! dir).

(** [la.catalogs\[fsys\]\[dir\] = files] *)
Definition setBucket (fsys : FS) (dir : string) (files : list string) : M unit :=
  let* b := getLa in
  setCatalogs (<[fsKey fsys := <[dir := files]> (default ∅ (catalogs b !! fsKey fsys))]>
                 (catalogs b)).

(** [a.Close()] *)
Definition Close (fsys : FS) (name : string) : M unit :=
  fun st =>
    (tt, {| la := la st; closed := closed st ++ [AsFileAndName (fsKey fsys) name];
            polls := polls st; ranges := ranges st; fileChan := fileChan st;
            exiftoolClosed := exiftoolClosed st |}).

(** One poll of [ctx.Done()] in a [select] with a default branch. *)
Definition pollDone (ctx : Context) : M bool :=
  fun st =>
    (ctxDone ctx (polls st),
     {| la := la st; closed := closed st; polls := S (polls st);
        ranges := ranges st; fileChan := fileChan st;
        exiftoolClosed := exiftoolClosed st |}).

(** [fileChan <- g], the consumer receiving every group sent. *)
Definition send (g : AssetGroup) : M unit :=
  fun st =>
    (tt, {| la := la st; closed := closed st; polls := polls st;
            ranges := ranges st; fileChan := fileChan st ++ [g];
            exiftoolClosed := exiftoolClosed st |}).

(** The order in which the n-th [range] statement over a map visits the keys
    (given in increasing order). Go leaves this order unspecified. *)
Definition MapOrder : Type := nat -> list string -> list string.

Definition validOrder (o : MapOrder) : Prop :=
  forall n l, Permutation (o n l) l.

(** The keys of a map, as [gen.MapKeys] followed by [sort.Strings] gives. *)
Definition sortedKeys {V} (m : gmap string V) : list string :=
  SortStrings (map fst (map_to_list m)).

(** The keys of [m] in the order of a [range] statement. *)
Definition rangeKeys {V} (o : MapOrder) (m : gmap string V) : M (list string) :=
  fun st =>
    (o (ranges st) (sortedKeys m),
     {| la := la st; closed := closed st; polls := polls st;
        ranges := S (ranges st); fileChan := fileChan st;
        exiftoolClosed := exiftoolClosed st |}).

(** ** Pass one: the walk of a tree *)

(** What the function given to [fs.WalkDir] returns: nil, [fs.SkipDir], or
    another error. *)
Inductive WalkRet := RetNil | RetSkipDir | RetErr (e : error).

(** The function [passOneFsWalk] gives to [fs.WalkDir]: [name] is the path of
    the entry, [isDir] is [d.IsDir()], [err] the error of the walk. *)
Definition walkFn (ctx : Context) (fsys : FS) (name : string) (isDir : bool)
    (err : option error) : M WalkRet :=
  match err with
  | Some e => ret (RetErr e)
  | None =>
    let* b := getLa in
    if isDir then
      if negb (Recursive (flags b)) && negb (String.eqb name ".")
      then ret RetSkipDir
      else setBucket fsys name [] >> ret RetNil
    else
      let* done := pollDone ctx in
      if done then ret (RetErr (ctxErr ctx))
      else if BannedFiles_Match (flags b) name then
        Record_ DiscoveredDiscarded fsys name ["reason"; "banned file"] >>
        ret RetNil
      else
        let '(dir, base) := Split name in
        let dir := TrimSuffix dir "/" in
        let dir := if String.eqb dir "" then "." else dir in
        let ext := Ext base in
        let mediaType := SupportedMedia_TypeFromExt (flags b) ext in
        if decide (mediaType = TypeUnknown) then
          Record_ DiscoveredUnsupported fsys name ["reason"; "unsupported file type"] >>
          ret RetNil
        else
          let cat := bucket b fsys dir in
          let* stop :=
            match mediaType with
            | TypeImage => Record_ DiscoveredImage fsys name [] >> ret false
            | TypeVideo => Record_ DiscoveredVideo fsys name [] >> ret false
            | TypeSidecar =>
                Record_ DiscoveredSidecar fsys name [] >>
                if IgnoreSideCarFiles (flags b) then
                  Record_ DiscoveredDiscarded fsys name ["reason"; "sidecar file ignored"] >>
                  ret true
                else ret false
            | TypeUnknown => ret false
            end in
          if (stop : bool) then ret RetNil
          else if negb (IncludedExtensions_Include (flags b) ext) then
            Record_ DiscoveredDiscarded fsys name ["reason"; "extension not included"] >>
            ret RetNil
          else if ExcludedExtensions_Exclude (flags b) ext then
            Record_ DiscoveredDiscarded fsys name ["reason"; "extension excluded"] >>
            ret RetNil
          else
            setBucket fsys dir (cat ++ [name]) >> ret RetNil
  end.

(** [walkDir] of [io/fs]: the function is called on the entry; for a directory
    it is called a second time with the error of [ReadDir], if any, and the
    entries read are then walked in order. [fs.SkipDir] returned for a
    directory skips it, returned for a file it skips the rest of the directory
    of the file. *)
Fixpoint walkDir (fn : string -> bool -> option error -> M WalkRet)
    (name : string) (d : DirEntry) : M WalkRet :=
  match d with
  | FileEntry _ => fn name false None
  | SubDir _ readDirErr entries =>
      let* r := fn name true None in
      match r with
      | RetSkipDir => ret RetNil
      | RetErr e => ret (RetErr e)
      | RetNil =>
          let* r2 := match readDirErr with
                     | Some e => fn name true (Some e)
                     | None => ret RetNil
                     end in
          match r2 with
          | RetSkipDir => ret RetNil
          | RetErr e => ret (RetErr e)
          | RetNil =>
              (fix walkEntries (ds : list DirEntry) : M WalkRet :=
                 match ds with
                 | [] => ret RetNil
                 | d1 :: ds' =>
                     let* r1 := walkDir fn (PathJoin name (entryName d1)) d1 in
                     match r1 with
                     | RetNil => walkEntries ds'
                     | RetSkipDir => ret RetNil
                     | RetErr e => ret (RetErr e)
                     end
                 end) entries
          end
      end
  end.

(** [fs.WalkDir(fsys, ".", fn)] *)
Definition WalkDir (fsys : FS) (fn : string -> bool -> option error -> M WalkRet)
  : M (option error) :=
  let* r := match fsRoot fsys with
            | inl e => fn "." false (Some e)
            | inr d => walkDir fn "." d
            end in
  match r with
  | RetNil | RetSkipDir => ret None
  | RetErr e => ret (Some e)
  end.

Definition passOneFsWalk (ctx : Context) (fsys : FS) : M (option error) :=
  let* b := getLa in
  setCatalogs (<[fsKey fsys := ∅]> (catalogs b)) >>
  WalkDir fsys (walkFn ctx fsys).

(** ** Pass two: linking, materializing, grouping *)

Definition noLinks : fileLinks := {| image := ""; video := ""; sidecar := "" |}.

Definition setImage (l : fileLinks) (f : string) : fileLinks :=
  {| image := f; video := video l; sidecar := sidecar l |}.
Definition setVideo (l : fileLinks) (f : string) : fileLinks :=
  {| image := image l; video := f; sidecar := sidecar l |}.
Definition setSidecar (l : fileLinks) (f : string) : fileLinks :=
  {| image := image l; video := video l; sidecar := f |}.

Definition nonEmpty (s : string) : bool := negb (String.eqb s "").

Definition newGroup (k : GroupKind) (l : list LocalAssetFile) : AssetGroup :=
  {| Kind := k; Assets := l; CoverIndex := 0; SideCar := None; Albums := [] |}.

Definition withSideCar (g : AssetGroup) (s : SideCarFile) : AssetGroup :=
  {| Kind := Kind g; Assets := Assets g; CoverIndex := CoverIndex g;
     SideCar := Some s; Albums := Albums g |}.

Definition addAlbum (g : AssetGroup) (al : LocalAlbum) : AssetGroup :=
  {| Kind := Kind g; Assets := Assets g; CoverIndex := CoverIndex g;
     SideCar := SideCar g; Albums := Albums g ++ [al] |}.

(** The album options of [passTwo], applied to the group [g] of the primary
    asset [a]. *)
Definition manageAlbums (fl : ImportFlags) (fsys : FS) (a : LocalAssetFile)
    (g : AssetGroup) : AssetGroup :=
  if nonEmpty (ImportIntoAlbum fl) then
    addAlbum g {| albumPath := FileName a; albumTitle := ImportIntoAlbum fl |}
  else
    match UsePathAsAlbumName fl with
    | FolderModeNone => g
    | FolderModeFolder =>
        let title := Base (Dir (FileName a)) in
        let title :=
          if String.eqb title "."
          then match fsName fsys with Some n => n | None => title end
          else title in
        if nonEmpty title
        then addAlbum g {| albumPath := FileName a; albumTitle := title |}
        else g
    | FolderModePath =>
        let parts := match fsName fsys with Some n => [n] | None => [] end in
        let path := Dir (FileName a) in
        let parts := if negb (String.eqb path ".")
                     then parts ++ SplitSlash path else parts in
        let Title := Join parts (AlbumNamePathSeparator fl) in
        addAlbum g {| albumPath := Dir (FileName a); albumTitle := Title |}
    end.

(** The first loop of a directory: every image is keyed by its own name. *)
Definition scanImages (fl : ImportFlags) (files : list string)
    (links : gmap string fileLinks) : gmap string fileLinks :=
  foldl (fun links file =>
           if decide (SupportedMedia_TypeFromExt fl (Ext file) = TypeImage)
           then <[file := setImage (default noLinks (links !! file)) file]> links
           else links)
        links files.

(** The [range] over the links for a sidecar: the first key visited whose
    name without extension is [base] takes the sidecar. [None] when the loop
    ends without a match. *)
Fixpoint sidecarRange (keys : list string) (links : gmap string fileLinks)
    (base file : string) : option (gmap string fileLinks) :=
  match keys with
  | [] => None
  | f :: keys' =>
      if String.eqb (TrimSuffix f (Ext f)) base then
        match links !! f with
        | Some image => Some (<[f := setSidecar image file]> links)
        | None => sidecarRange keys' links base file
        end
      else sidecarRange keys' links base file
  end.

(** The [range] over the links for a video: each key visited is tried
    against [base], then against the whole name of the video. *)
Fixpoint videoRange (keys : list string) (links : gmap string fileLinks)
    (base file : string) : option (gmap string fileLinks) :=
  match keys with
  | [] => None
  | f :: keys' =>
      let byBase :=
        if String.eqb (TrimSuffix f (Ext f)) base then
          match links !! f with
          | Some image => Some (<[f := setVideo image file]> links)
          | None => None
          end
        else None in
      match byBase with
      | Some r => Some r
      | None =>
          let byName :=
            if String.eqb (TrimSuffix f (Ext f)) file then
              match links !! f with
              | Some image => Some (<[f := setVideo image file]> links)
              | None => None
              end
            else None in
          match byName with
          | Some r => Some r
          | None => videoRange keys' links base file
          end
      end
  end.

Section PassTwo.

(** [LocalAssetFile.ReadMetadata] with the date method, the external tool
    and the time zones of the flags: the date taken, or an error. *)
Variable ReadMetadata : ImportFlags -> option ExifTool -> FS -> string -> error + Time.
Variable order : MapOrder.
Variable ctx : Context.

(** The body of the second loop of a directory, for one file. *)
Definition linkFile (fl : ImportFlags) (links : gmap string fileLinks)
    (file : string) : M (gmap string fileLinks) :=
  let ext := Ext file in
  let t := SupportedMedia_TypeFromExt fl ext in
  match t with
  | TypeImage => ret links
  | TypeSidecar =>
      let base := TrimSuffix file ext in
      match links !! base with
      | Some image => ret (<[base := setSidecar image file]> links)
      | None =>
          let* keys := rangeKeys order links in
          ret (default links (sidecarRange keys links base file))
      end
  | TypeVideo =>
      let base := TrimSuffix file ext in
      match links !! base with
      | Some image => ret (<[base := setSidecar image file]> links)
      | None =>
          let* keys := rangeKeys order links in
          ret (default (<[file := setVideo noLinks file]> links)
                       (videoRange keys links base file))
      end
  | TypeUnknown => ret links
  end.

Fixpoint linkFiles (fl : ImportFlags) (files : list string)
    (links : gmap string fileLinks) : M (gmap string fileLinks) :=
  match files with
  | [] => ret links
  | file :: rest =>
      let* links' := linkFile fl links file in
      linkFiles fl rest links'
  end.

(** The links of a directory: both loops, from the empty map. *)
Definition buildLinks (fl : ImportFlags) (files : list string)
  : M (gmap string fileLinks) :=
  linkFiles fl files (scanImages fl files ∅).

(** [assetFromFile]: the handle and the error returned. [int] has 64 bits,
    so the size is not truncated. *)
Definition assetFromFile (fsys : FS) (name : string)
  : M (option LocalAssetFile * option error) :=
  let* b := getLa in
  match ReadMetadata (flags b) (exiftool b) fsys name with
  | inl err => Close fsys name >> ret (None, Some err)
  | inr date =>
      match fsStat fsys name with
      | inl err => Close fsys name >> ret (None, Some err)
      | inr size =>
          let a := {| FileName := name; Title := Base name;
                      FSys := fsKey fsys; FileSize := size;
                      DateTaken := date |} in
          if DateRange_IsSet (flags b) &&
             negb (DateRange_InRange (flags b) (DateTaken a))
          then
            Close fsys name >>
            Record_ DiscoveredDiscarded fsys name
                    ["reason"; "asset outside date range"] >>
            ret (None, None)
          else ret (Some a, None)
      end
  end.

(** [errFn] of [passTwo] *)
Definition errFn (fsys : FS) (name : string) (err : option error) : M unit :=
  match err with
  | Some e => Record_ Error fsys name ["error"; e]
  | None => ret tt
  end.

(** How the [switch] on the links of an entry ends: the goroutine returns,
    the loop continues with the next entry, or a group [g] with primary
    asset [a] was built ([NoGroup] when no case applies and [g] stays nil). *)
Inductive Built :=
| Abort
| Skip
| NoGroup
| Group (a : LocalAssetFile) (g : AssetGroup).

Definition buildGroup (fsys : FS) (linked : fileLinks) : M Built :=
  if nonEmpty (image linked) && nonEmpty (video linked) then
    let* (a, err) := assetFromFile fsys (image linked) in
    match err with
    | Some e => errFn fsys (image linked) err >> ret Abort
    | None =>
        match a with
        | None => ret Skip
        | Some a =>
            let* (i, err) := assetFromFile fsys (video linked) in
            match i with
            | Some i => ret (Group a (newGroup GroupKindMotionPhoto [a; i]))
            | None =>
                errFn fsys (video linked) err >>
                ret (Group a (newGroup GroupKindNone [a]))
            end
        end
    end
  else if nonEmpty (image linked) then
    let* (a, err) := assetFromFile fsys (image linked) in
    match err with
    | Some e => errFn fsys (image linked) err >> ret Abort
    | None =>
        match a with
        | None => ret Skip
        | Some a => ret (Group a (newGroup GroupKindNone [a]))
        end
    end
  else if nonEmpty (video linked) then
    let* (a, err) := assetFromFile fsys (video linked) in
    match err with
    | Some e => errFn fsys (video linked) err >> ret Abort
    | None =>
        match a with
        | None => ret Skip
        | Some a => ret (Group a (newGroup GroupKindNone [a]))
        end
    end
  else ret NoGroup.

(** Whether a loop goes on or the goroutine returns. *)
Inductive Flow := Next | Return.

(** The sidecar of the entry, recorded on the group. *)
Definition attachSideCar (fsys : FS) (linked : fileLinks) (a : LocalAssetFile)
    (g : AssetGroup) : M AssetGroup :=
  if nonEmpty (sidecar linked) then
    Record_ AnalysisAssociatedMetadata fsys (FileName a)
            ["sidecar"; sidecar linked] >>
    ret (withSideCar g {| scFSys := fsKey fsys; scFileName := sidecar linked |})
  else ret g.

(** The final [select]: the group is sent unless the context is done. *)
Definition emit (g : AssetGroup) : M Flow :=
  let* done := pollDone ctx in
  if done then ret Return else send g >> ret Next.

(** What follows the [switch] for a group that was built: the sidecar,
    the albums, the push on the channel. *)
Definition finishGroup (fsys : FS) (linked : fileLinks) (a : LocalAssetFile)
    (g : AssetGroup) : M Flow :=
  let* g1 := attachSideCar fsys linked a g in
  let* b := getLa in
  emit (manageAlbums (flags b) fsys a g1).

(** The body of the third loop of a directory, for one entry. *)
Definition resolveEntry (fsys : FS) (linked : fileLinks) : M Flow :=
  let* r := buildGroup fsys linked in
  match r with
  | Abort => ret Return
  | Skip | NoGroup => ret Next
  | Group a g => finishGroup fsys linked a g
  end.

Fixpoint resolveEntries (fsys : FS) (links : gmap string fileLinks)
    (files : list string) : M Flow :=
  match files with
  | [] => ret Next
  | file :: rest =>
      let* f := resolveEntry fsys (default noLinks (links !! file)) in
      match f with
      | Return => ret Return
      | Next => resolveEntries fsys links rest
      end
  end.

(** One directory of a tree. *)
Definition passTwoDir (fsys : FS) (dir : string) : M Flow :=
  let* b := getLa in
  let files := bucket b fsys dir in
  if decide (length files = 0) then ret Next
  else
    let* links := buildLinks (flags b) files in
    resolveEntries fsys links (sortedKeys links).

Fixpoint passTwoDirs (fsys : FS) (dirs : list string) : M Flow :=
  match dirs with
  | [] => ret Next
  | dir :: rest =>
      let* f := passTwoDir fsys dir in
      match f with
      | Return => ret Return
      | Next => passTwoDirs fsys rest
      end
  end.

Fixpoint passTwoTrees (trees : list FS) : M Flow :=
  match trees with
  | [] => ret Next
  | fsys :: rest =>
      let* b := getLa in
      let dirs := sortedKeys (default ∅ (catalogs b !! fsKey fsys)) in
      let* f := passTwoDirs fsys dirs in
      match f with
      | Return => ret Return
      | Next => passTwoTrees rest
      end
  end.

Definition makeChan : M unit :=
  fun st =>
    (tt, {| la := la st; closed := closed st; polls := polls st;
            ranges := ranges st; fileChan := [];
            exiftoolClosed := exiftoolClosed st |}).

Definition closeExifTool : M unit :=
  fun st =>
    (tt, {| la := la st; closed := closed st; polls := polls st;
            ranges := ranges st; fileChan := fileChan st;
            exiftoolClosed := true |}).

(** [passTwo]: the channel is made, the goroutine runs until it returns,
    its consumer receiving every group; the result is what the channel
    carried until it was closed. *)
Definition passTwo : M (list AssetGroup) :=
  makeChan >>
  let* b := getLa in
  passTwoTrees (fsyss b) >>
  match exiftool b with Some _ => closeExifTool | None => ret tt end >>
  (fun st => (fileChan st, st)).

Fixpoint passOneAll (trees : list FS) : M (option error) :=
  match trees with
  | [] => ret None
  | fsys :: rest =>
      let* err := passOneFsWalk ctx fsys in
      match err with
      | Some e => ret (Some e)
      | None => passOneAll rest
      end
  end.

(** [Browse]: the channel (as the groups it carries) and the error. *)
Definition Browse : M (option (list AssetGroup) * option error) :=
  let* b := getLa in
  let* err := passOneAll (fsyss b) in
  match err with
  | Some e => ret (None, Some e)
  | None =>
      let* c := passTwo in
      ret (Some c, None)
  end.

End PassTwo.

(** ** Construction *)

Definition NewLocalFiles (NewExifTool : ImportFlags -> error + ExifTool)
    (l : list Event) (fl : ImportFlags) (trees : list FS)
  : option LocalAssetBrowser * option error :=
  if nonEmpty (ImportIntoAlbum fl) &&
     negb (bool_decide (UsePathAsAlbumName fl = FolderModeNone))
  then (None, Some "cannot use both --into-album and --folder-as-album")
  else
    let b := {| fsyss := trees; albums := ∅; catalogs := ∅; log := l;
                flags := fl; exiftool := None |} in
    if UseExifTool fl then
      match NewExifTool fl with
      | inl err => (None, Some err)
      | inr et =>
          (Some {| fsyss := trees; albums := ∅; catalogs := ∅; log := l;
                   flags := fl; exiftool := Some et |}, None)
      end
    else (Some b, None).

(** The state in which a scan of the browser [b] starts. *)
Definition start (b : LocalAssetBrowser) : Run :=
  {| la := b; closed := []; polls := 0; ranges := 0; fileChan := [];
     exiftoolClosed := false |}.

(** ** A sample configuration, for concrete runs *)

Module Sample.

Definition typeFromExt (e : string) : MediaType :=
  if String.eqb e ".jpg" then TypeImage
  else if String.eqb e ".png" then TypeImage
  else if String.eqb e ".mp4" then TypeVideo
  else if String.eqb e ".xmp" then TypeSidecar
  else TypeUnknown.

(** No filter, no album, recursive; [.jpg] and [.png] are images, [.mp4]
    is a video, [.xmp] a sidecar; the files named [Thumbs.jpg] are banned. *)
Definition flags0 : ImportFlags :=
  {| ImportIntoAlbum := ""; UsePathAsAlbumName := FolderModeNone;
     AlbumNamePathSeparator := "#"; Recursive := true;
     IgnoreSideCarFiles := false;
     BannedFiles_Match := fun n => String.eqb (Base n) "Thumbs.jpg";
     SupportedMedia_TypeFromExt := typeFromExt;
     IncludedExtensions_Include := fun _ => true;
     ExcludedExtensions_Exclude := fun _ => false;
     DateRange_IsSet := false; DateRange_InRange := fun _ => true;
     UseExifTool := false |}.

Definition withAlbumMode (fl : ImportFlags) (m : FolderMode) : ImportFlags :=
  {| ImportIntoAlbum := ImportIntoAlbum fl; UsePathAsAlbumName := m;
     AlbumNamePathSeparator := AlbumNamePathSeparator fl;
     Recursive := Recursive fl; IgnoreSideCarFiles := IgnoreSideCarFiles fl;
     BannedFiles_Match := BannedFiles_Match fl;
     SupportedMedia_TypeFromExt := SupportedMedia_TypeFromExt fl;
     IncludedExtensions_Include := IncludedExtensions_Include fl;
     ExcludedExtensions_Exclude := ExcludedExtensions_Exclude fl;
     DateRange_IsSet := DateRange_IsSet fl;
     DateRange_InRange := DateRange_InRange fl;
     UseExifTool := UseExifTool fl |}.

Definition withIntoAlbum (fl : ImportFlags) (t : string) : ImportFlags :=
  {| ImportIntoAlbum := t; UsePathAsAlbumName := UsePathAsAlbumName fl;
     AlbumNamePathSeparator := AlbumNamePathSeparator fl;
     Recursive := Recursive fl; IgnoreSideCarFiles := IgnoreSideCarFiles fl;
     BannedFiles_Match := BannedFiles_Match fl;
     SupportedMedia_TypeFromExt := SupportedMedia_TypeFromExt fl;
     IncludedExtensions_Include := IncludedExtensions_Include fl;
     ExcludedExtensions_Exclude := ExcludedExtensions_Exclude fl;
     DateRange_IsSet := DateRange_IsSet fl;
     DateRange_InRange := DateRange_InRange fl;
     UseExifTool := UseExifTool fl |}.

Definition withIgnoreSideCar (fl : ImportFlags) : ImportFlags :=
  {| ImportIntoAlbum := ImportIntoAlbum fl;
     UsePathAsAlbumName := UsePathAsAlbumName fl;
     AlbumNamePathSeparator := AlbumNamePathSeparator fl;
     Recursive := Recursive fl; IgnoreSideCarFiles := true;
     BannedFiles_Match := BannedFiles_Match fl;
     SupportedMedia_TypeFromExt := SupportedMedia_TypeFromExt fl;
     IncludedExtensions_Include := IncludedExtensions_Include fl;
     ExcludedExtensions_Exclude := ExcludedExtensions_Exclude fl;
     DateRange_IsSet := DateRange_IsSet fl;
     DateRange_InRange := DateRange_InRange fl;
     UseExifTool := UseExifTool fl |}.

(** Only the dates from 100 to 200 are in range. *)
Definition withDateRange (fl : ImportFlags) : ImportFlags :=
  {| ImportIntoAlbum := ImportIntoAlbum fl;
     UsePathAsAlbumName := UsePathAsAlbumName fl;
     AlbumNamePathSeparator := AlbumNamePathSeparator fl;
     Recursive := Recursive fl; IgnoreSideCarFiles := IgnoreSideCarFiles fl;
     BannedFiles_Match := BannedFiles_Match fl;
     SupportedMedia_TypeFromExt := SupportedMedia_TypeFromExt fl;
     IncludedExtensions_Include := IncludedExtensions_Include fl;
     ExcludedExtensions_Exclude := ExcludedExtensions_Exclude fl;
     DateRange_IsSet := true;
     DateRange_InRange := fun d => (100 <=? d)%Z && (d <=? 200)%Z;
     UseExifTool := UseExifTool fl |}.

(** A tree named [Lib] with the given entries at its root; every file has
    10 bytes, except [broken.jpg], on which [Stat] fails. *)
Definition tree (entries : list DirEntry) : FS :=
  {| fsKey := 0; fsName := Some "Lib";
     fsRoot := inr (SubDir "." None entries);
     fsStat := fun n => if String.eqb (Base n) "broken.jpg"
                        then inl "stat: input/output error"
                        else inr 10%Z |}.

(** The metadata reader: the videos are taken at date 50, [unreadable.mp4]
    cannot be read, everything else is taken at date 150. *)
Definition readMetadata (fl : ImportFlags) (et : option ExifTool) (fsys : FS)
    (name : string) : error + Time :=
  if String.eqb (Base name) "unreadable.mp4" then inl "metadata: unexpected EOF"
  else if String.eqb (Ext name) ".mp4" then inr 50%Z
  else inr 150%Z.

Definition background : Context :=
  {| ctxDone := fun _ => false; ctxErr := "context canceled" |}.

(** Two orders in which a map may be visited. *)
Definition increasing : MapOrder := fun _ l => l.
Definition decreasing : MapOrder := fun _ l => rev l.

Definition browser (fl : ImportFlags) (trees : list FS) : LocalAssetBrowser :=
  {| fsyss := trees; albums := ∅; catalogs := ∅; log := []; flags := fl;
     exiftool := None |}.

Definition asset (name : string) (date : Time) : LocalAssetFile :=
  {| FileName := name; Title := Base name; FSys := 0; FileSize := 10%Z;
     DateTaken := date |}.

End Sample.

(** ** Vocabulary of the properties *)

Definition discarded (fsys : FS) (name reason : string) : Event :=
  {| evCode := DiscoveredDiscarded; evFile := AsFileAndName (fsKey fsys) name;
     evArgs := ["reason"; reason] |}.


(** Whether a path has a slash. *)
Fixpoint hasSlash (s : string) : bool :=
  match s with
  | EmptyString => false
  | String c r => Ascii.eqb c "/" || hasSlash r
  end.

Definition discovered (c : Code) (fsys : FS) (name : string) : Event :=
  {| evCode := c; evFile := AsFileAndName (fsKey fsys) name; evArgs := [] |}.


(** [hoare P m Q]: run from a state where [P] holds, [m] returns a value
    and a state related by [Q]. Every computation of [M] returns. *)
Definition hoare {A} (P : Run -> Prop) (m : M A) (Q : A -> Run -> Prop) : Prop :=
  forall st, P st -> Q (fst (m st)) (snd (m st)).

(** Induction on a tree, with the property known of the entries of a
    directory. *)
Fixpoint DirEntry_tree_ind (P : DirEntry -> Prop)
    (Hfile : forall n, P (FileEntry n))
    (Hdir : forall n e ds, Forall P ds -> P (SubDir n e ds))
    (d : DirEntry) : P d :=
  match d with
  | FileEntry n => Hfile n
  | SubDir n e ds =>
      Hdir n e ds
        ((fix all (l : list DirEntry) : Forall P l :=
            match l with
            | [] => @List.Forall_nil _ P
            | d1 :: l' =>
                @List.Forall_cons _ P d1 l'
                  (DirEntry_tree_ind P Hfile Hdir d1) (all l')
            end) ds)
  end.

(** The file materialized first for an entry: its image, or its video when
    it has no image. *)
Definition primary (linked : fileLinks) : string :=
  if nonEmpty (image linked) then image linked else video linked.


(** The browser has the flags [fl] and the trees [trees]. *)
Definition config (fl : ImportFlags) (trees : list FS) (st : Run) : Prop :=
  flags (la st) = fl /\ fsyss (la st) = trees.

(** The names the banned-name matcher of the flags lets through. *)
Definition allowed (fl : ImportFlags) (f : string) : Prop :=
  BannedFiles_Match fl f = false.

(** The buckets of the tree of key [k] hold allowed names only. *)
Definition cleanMap (fl : ImportFlags)
    (c : gmap nat (gmap string (list string))) (k : nat) : Prop :=
  forall m dir files,
    c !! k = Some m -> m !! dir = Some files -> Forall (allowed fl) files.

(** Under the condition [G], the buckets of the tree of key [k] are
    clean. *)
Definition cleanAt (fl : ImportFlags) (trees : list FS) (G : Prop) (k : nat)
    (st : Run) : Prop :=
  config fl trees st /\ (G -> cleanMap fl (catalogs (la st)) k).

(** The buckets of the trees whose key is in [K] are clean. *)
Definition cleanOn (fl : ImportFlags) (trees : list FS) (K : nat -> Prop)
    (st : Run) : Prop :=
  config fl trees st /\ forall k, K k -> cleanMap fl (catalogs (la st)) k.

(** The links of an entry name allowed files only. *)
Definition linkedOK (fl : ImportFlags) (l : fileLinks) : Prop :=
  (image l = "" \/ allowed fl (image l)) /\
  (video l = "" \/ allowed fl (video l)) /\
  (sidecar l = "" \/ allowed fl (sidecar l)).

Definition linksOK (fl : ImportFlags) (links : gmap string fileLinks) : Prop :=
  forall k l, links !! k = Some l -> linkedOK fl l.

(** The handles and the sidecar of a group are allowed files. *)
Definition groupOK (fl : ImportFlags) (g : AssetGroup) : Prop :=
  Forall (fun a => allowed fl (FileName a)) (Assets g) /\
  forall s, SideCar g = Some s -> allowed fl (scFileName s).

Definition passTwoInv (fl : ImportFlags) (trees : list FS) (K : nat -> Prop)
    (st : Run) : Prop :=
  cleanOn fl trees K st /\ Forall (groupOK fl) (fileChan st).

(** The group built for an entry holds handles of its image and of its
    video only, and no sidecar yet. *)
Definition builtOK (fl : ImportFlags) (r : Built) : Prop :=
  match r with Group a g => groupOK fl g | _ => True end.

(** ** Vocabulary of the further properties *)

(** The media type of a file, as pass two computes it. *)
Definition typeOf (fl : ImportFlags) (name : string) : MediaType :=
  SupportedMedia_TypeFromExt fl (Ext name).

(** The key of the bucket the walk files [name] under. *)
Definition dirOf (name : string) : string :=
  let dir := TrimSuffix (fst (Split name)) "/" in
  if String.eqb dir "" then "." else dir.

(** [name] goes through every filter of the walk. *)
Definition accepted (fl : ImportFlags) (name : string) : Prop :=
  BannedFiles_Match fl name = false /\
  typeOf fl name <> TypeUnknown /\
  (IgnoreSideCarFiles fl = true -> typeOf fl name <> TypeSidecar) /\
  IncludedExtensions_Include fl (Ext name) = true /\
  ExcludedExtensions_Exclude fl (Ext name) = false.

(** [name] is accepted and belongs to the directory [dir]. *)
Definition filed (fl : ImportFlags) (dir name : string) : Prop :=
  accepted fl name /\ dirOf name = dir.

(** Every file of every bucket of the tree of key [k] satisfies [P], which
    is given the key of the bucket. *)
Definition bucketsAll (P : string -> string -> Prop)
    (c : gmap nat (gmap string (list string))) (k : nat) : Prop :=
  forall m dir files,
    c !! k = Some m -> m !! dir = Some files -> Forall (P dir) files.

(** The flags are [fl] and, under the condition [G], the files of the tree
    of key [k] are filed well. *)
Definition filedAt (fl : ImportFlags) (G : Prop) (k : nat) (st : Run) : Prop :=
  flags (la st) = fl /\ (G -> bucketsAll (filed fl) (catalogs (la st)) k).

Definition filedOn (fl : ImportFlags) (K : nat -> Prop) (st : Run) : Prop :=
  flags (la st) = fl /\
  forall k, K k -> bucketsAll (filed fl) (catalogs (la st)) k.

(** What the walk of a tree leaves alone: the catalog of the tree of key
    [k], the channel, the closed handles, the flags and the trees; the
    events recorded before are still there, first. *)
Definition untouched (k : nat) (st0 st : Run) : Prop :=
  catalogs (la st) !! k = catalogs (la st0) !! k /\
  fileChan st = fileChan st0 /\
  closed st = closed st0 /\
  flags (la st) = flags (la st0) /\
  fsyss (la st) = fsyss (la st0) /\
  exists l, log (la st) = log (la st0) ++ l.

(** The fields of an entry that are set satisfy [PI] (image), [PV] (video)
    and [PS] (sidecar). *)
Definition fieldsOK (PI PV PS : string -> Prop) (l : fileLinks) : Prop :=
  (image l = "" \/ PI (image l)) /\
  (video l = "" \/ PV (video l)) /\
  (sidecar l = "" \/ PS (sidecar l)).

Definition linksTyped (PI PV PS : string -> Prop)
    (links : gmap string fileLinks) : Prop :=
  forall k l, links !! k = Some l -> fieldsOK PI PV PS l.

(** What a file of a bucket must satisfy for the fields it may be stored
    in: an image is stored as image, a video as video or as sidecar, a
    sidecar as sidecar. *)
Definition fileOK (fl : ImportFlags) (PI PV PS : string -> Prop)
    (f : string) : Prop :=
  match typeOf fl f with
  | TypeImage => PI f
  | TypeVideo => PV f /\ PS f
  | TypeSidecar => PS f
  | TypeUnknown => True
  end.

(** The kinds of groups [passTwo] builds, with their handles. *)
Inductive shaped (PI PV : string -> Prop)
  : GroupKind -> list LocalAssetFile -> Prop :=
| shaped_image a :
    PI (FileName a) -> shaped PI PV GroupKindNone [a]
| shaped_video a :
    PV (FileName a) -> shaped PI PV GroupKindNone [a]
| shaped_motion a i :
    PI (FileName a) -> PV (FileName i) ->
    shaped PI PV GroupKindMotionPhoto [a; i].

(** A handle made by [assetFromFile] for a file of the tree [fsys]. *)
Definition handleOf (fsys : FS) (a : LocalAssetFile) : Prop :=
  FSys a = fsKey fsys /\ Title a = Base (FileName a).

(** A group as [passTwo] has it before the albums: [a] is its first
    handle. *)
Definition builtFrom (PI PV PS : string -> Prop) (fsys : FS)
    (a : LocalAssetFile) (g : AssetGroup) : Prop :=
  shaped PI PV (Kind g) (Assets g) /\
  hd_error (Assets g) = Some a /\
  CoverIndex g = 0 /\
  Albums g = [] /\
  (forall s, SideCar g = Some s ->
             scFSys s = fsKey fsys /\ PS (scFileName s)) /\
  Forall (handleOf fsys) (Assets g).

(** A group as [passTwo] sends it. *)
Definition sentGroup (fl : ImportFlags) (trees : list FS)
    (PI PV PS : string -> Prop) (g : AssetGroup) : Prop :=
  exists fsys a g0,
    In fsys trees /\ builtFrom PI PV PS fsys a g0 /\
    g = manageAlbums fl fsys a g0.

(** The invariant of pass two: the files of the buckets of the trees of
    [K] satisfy [Q], the groups sent so far are as [passTwo] sends them. *)
Definition sendInv (fl : ImportFlags) (trees : list FS)
    (PI PV PS Q : string -> Prop) (K : nat -> Prop) (st : Run) : Prop :=
  config fl trees st /\
  (forall k, K k -> bucketsAll (fun _ => Q) (catalogs (la st)) k) /\
  Forall (sentGroup fl trees PI PV PS) (fileChan st).

(** What [buildGroup] returns for an entry of the tree [fsys]. *)
Definition builtAs (PI PV PS : string -> Prop) (fsys : FS) (r : Built) : Prop :=
  match r with
  | Group a g => builtFrom PI PV PS fsys a g /\ SideCar g = None
  | _ => True
  end.

(** The files the links of pass two may hold as image, as video and as
    sidecar, for the flags [fl]. *)
Definition imageFile (fl : ImportFlags) (f : string) : Prop :=
  typeOf fl f = TypeImage /\ accepted fl f.
Definition videoFile (fl : ImportFlags) (f : string) : Prop :=
  typeOf fl f = TypeVideo /\ accepted fl f.
Definition sidecarFile (fl : ImportFlags) (f : string) : Prop :=
  (typeOf fl f = TypeSidecar \/ typeOf fl f = TypeVideo) /\ accepted fl f.

(** The context is done at the poll [n] and at every later one. *)
Definition doneFrom (ctx : Context) (n : nat) : Prop :=
  forall m, n <= m -> ctxDone ctx m = true.

(** Since [st0], polls may have happened and no group was sent. *)
Definition quiet (st0 st : Run) : Prop :=
  polls st0 <= polls st /\ fileChan st = fileChan st0.

(** Every entry of the links is keyed by a file of the bucket, which is an
    image stored as the image of the entry, or a video, the entry having no
    image then. *)
Definition anchored (fl : ImportFlags) (files : list string)
    (links : gmap string fileLinks) : Prop :=
  forall k l, links !! k = Some l ->
    In k files /\
    ((typeOf fl k = TypeImage /\ image l = k) \/
     (typeOf fl k = TypeVideo /\ image l = "")).

(** The entry of key [f] has [f] as image. *)
Definition imageEntry (links : gmap string fileLinks) (f : string) : Prop :=
  exists l, links !! f = Some l /\ image l = f.

(** A file name without its extension. *)
Definition stem (k : string) : string := TrimSuffix k (Ext k).

(** Whether the key [k] is one the fallback loops attach the file [x] to:
    its stem is the stem of [x] or the whole name of [x]. *)
Definition matchesFile (x k : string) : bool :=
  String.eqb (stem k) (stem x) || String.eqb (stem k) x.

Definition anchorType (fl : ImportFlags) (k : string) : Prop :=
  typeOf fl k = TypeImage \/ typeOf fl k = TypeVideo.

(** No file of the bucket that is not an image has two other images or
    videos of the bucket to be attached to. *)
Definition unambiguous (fl : ImportFlags) (files : list string) : Prop :=
  forall x k1 k2,
    In x files -> In k1 files -> In k2 files ->
    typeOf fl x <> TypeImage ->
    k1 <> x -> k2 <> x -> anchorType fl k1 -> anchorType fl k2 ->
    matchesFile x k1 = true -> matchesFile x k2 = true -> k1 = k2.

(** The keys of the links are images of the bucket, or videos of the bucket
    that are not among the files still to link. *)
Definition keysSeen (fl : ImportFlags) (files rest : list string)
    (links : gmap string fileLinks) : Prop :=
  forall k l, links !! k = Some l ->
    In k files /\
    (typeOf fl k = TypeImage \/ (typeOf fl k = TypeVideo /\ ~ In k rest)).

(** A name an entry of a directory may have: not empty, without a slash,
    and neither [.] nor [..]. *)
Definition segment (n : string) : Prop :=
  hasSlash n = false /\ n <> "" /\ n <> "." /\ n <> "..".

(** The catalog of the tree of key [k] has no bucket but the one of the
    root, and the files of that bucket are at the root. *)
Definition rootOnly (c : gmap nat (gmap string (list string))) (k : nat) : Prop :=
  forall m dir files,
    c !! k = Some m -> m !! dir = Some files ->
    dir = "." /\ Forall (fun f => hasSlash f = false) files.

(** The flags [fl] without recursion. *)
Definition withoutRecursion (fl : ImportFlags) : ImportFlags :=
  {| ImportIntoAlbum := ImportIntoAlbum fl;
     UsePathAsAlbumName := UsePathAsAlbumName fl;
     AlbumNamePathSeparator := AlbumNamePathSeparator fl;
     Recursive := false; IgnoreSideCarFiles := IgnoreSideCarFiles fl;
     BannedFiles_Match := BannedFiles_Match fl;
     SupportedMedia_TypeFromExt := SupportedMedia_TypeFromExt fl;
     IncludedExtensions_Include := IncludedExtensions_Include fl;
     ExcludedExtensions_Exclude := ExcludedExtensions_Exclude fl;
     DateRange_IsSet := DateRange_IsSet fl;
     DateRange_InRange := DateRange_InRange fl;
     UseExifTool := UseExifTool fl |}.

(** The root of the tree cannot be walked: [Stat] fails on it, or [ReadDir]
    does, with the error [e]. *)
Definition rootFails (fsys : FS) (e : error) : Prop :=
  fsRoot fsys = inl e \/
  exists entries, fsRoot fsys = inr (SubDir "." (Some e) entries).

(** Since [st0], polls may have happened, no file was filed in the tree of
    key [k] and nothing was recorded. *)
Definition nothingFiled (k : nat) (st0 st : Run) : Prop :=
  polls st0 <= polls st /\
  log (la st) = log (la st0) /\
  forall m dir files,
    catalogs (la st) !! k = Some m -> m !! dir = Some files -> files = [].



(** Every tree of [trees] that has the key of the handle [a] is named [n]. *)
Definition treeNamed (trees : list FS) (a : LocalAssetFile) (n : string) : Prop :=
  forall t, In t trees -> fsKey t = FSys a -> fsName t = Some n.

(** * Properties *)

(** ** The string and path helpers on samples *)

Example Ext_ex1 : Ext "a/b.c/d" = "".
Proof. reflexivity. Qed.
Example Ext_ex2 : Ext "a/b.tar.gz" = ".gz".
Proof. reflexivity. Qed.
Example TrimSuffix_ex : TrimSuffix "img.jpg.xmp" ".xmp" = "img.jpg".
Proof. reflexivity. Qed.
Example Dir_ex1 : Dir "a/b/c.jpg" = "a/b".
Proof. reflexivity. Qed.
Example Dir_ex2 : Dir "c.jpg" = ".".
Proof. reflexivity. Qed.
Example Dir_ex3 : Dir "/c.jpg" = "/".
Proof. reflexivity. Qed.
Example Dir_ex4 : Dir "a//b/../c/x" = "a/c".
Proof. reflexivity. Qed.
Example Base_ex1 : Base "a/b" = "b".
Proof. reflexivity. Qed.
Example Base_ex2 : Base "." = ".".
Proof. reflexivity. Qed.
Example Base_ex3 : Base "a/b//" = "b".
Proof. reflexivity. Qed.
Example Base_ex4 : Base "///" = "/".
Proof. reflexivity. Qed.
Example Split_ex : Split "a/b/c.jpg" = ("a/b/", "c.jpg").
Proof. reflexivity. Qed.
Example SplitSlash_ex : SplitSlash "a/b" = ["a"; "b"].
Proof. reflexivity. Qed.
Example Join_ex : Join ["Lib"; "a"; "b"] "#" = "Lib#a#b".
Proof. reflexivity. Qed.
Example PathJoin_ex : PathJoin "." "a" = "a".
Proof. reflexivity. Qed.
Example Clean_ex : Clean "../../a/../../b" = "../../../b".
Proof. reflexivity. Qed.
Example Sort_ex : SortStrings ["b"; "a"; "B"] = ["B"; "a"; "b"].
Proof. vm_compute. reflexivity. Qed.

(** ** The materializer *)

(** What [assetFromFile] does when the date of the file is out of range. *)
Lemma assetFromFile_soft RM fsys name st date size :
  RM (flags (la st)) (exiftool (la st)) fsys name = inr date ->
  fsStat fsys name = inr size ->
  DateRange_IsSet (flags (la st)) = true ->
  DateRange_InRange (flags (la st)) date = false ->
  assetFromFile RM fsys name st =
    ((None, None),
     snd (Record_ DiscoveredDiscarded fsys name ["reason"; "asset outside date range"]
            (snd (Close fsys name st)))).
Proof.
  intros Hm Hs Hset Hin. unfold assetFromFile, bind, getLa.
  rewrite Hm, Hs, Hset. simpl. rewrite Hin. reflexivity.
Qed.

(** C6. When the metadata and the size of a file are read and its date is
    outside the configured range, [assetFromFile] returns neither a handle
    nor an error, closes the handle, and records one discard event with the
    reason "asset outside date range"; it records nothing else and sends
    nothing. *)
Theorem assetFromFile_outside_date_range RM fsys name st date size :
  RM (flags (la st)) (exiftool (la st)) fsys name = inr date ->
  fsStat fsys name = inr size ->
  DateRange_IsSet (flags (la st)) = true ->
  DateRange_InRange (flags (la st)) date = false ->
  fst (assetFromFile RM fsys name st) = (None, None) /\
  closed (snd (assetFromFile RM fsys name st)) =
    closed st ++ [AsFileAndName (fsKey fsys) name] /\
  log (la (snd (assetFromFile RM fsys name st))) =
    log (la st) ++ [discarded fsys name "asset outside date range"] /\
  fileChan (snd (assetFromFile RM fsys name st)) = fileChan st.
Proof.
  intros Hm Hs Hset Hin.
  rewrite (assetFromFile_soft _ _ _ _ _ _ Hm Hs Hset Hin).
  repeat split.
Qed.

Lemma assetFromFile_outside_date_range_witness :
  let fsys := Sample.tree [FileEntry "clip.mp4"] in
  let st := start (Sample.browser (Sample.withDateRange Sample.flags0) [fsys]) in
  fst (assetFromFile Sample.readMetadata fsys "clip.mp4" st) = (None, None) /\
  closed (snd (assetFromFile Sample.readMetadata fsys "clip.mp4" st)) =
    [AsFileAndName 0 "clip.mp4"] /\
  log (la (snd (assetFromFile Sample.readMetadata fsys "clip.mp4" st))) =
    [discarded fsys "clip.mp4" "asset outside date range"] /\
  fileChan (snd (assetFromFile Sample.readMetadata fsys "clip.mp4" st)) = [].
Proof.
  intros fsys st.
  apply (assetFromFile_outside_date_range Sample.readMetadata fsys "clip.mp4"
           st 50%Z 10%Z); reflexivity.
Defined.

(** ** Construction of the browser *)

Lemma nonEmpty_true s : s <> "" -> nonEmpty s = true.
Proof.
  intros H. unfold nonEmpty. apply negb_true_iff, String.eqb_neq, H.
Qed.

Lemma nonEmpty_false s : nonEmpty s = false -> s = "".
Proof.
  unfold nonEmpty. intros H. apply negb_false_iff in H.
  apply String.eqb_eq, H.
Qed.

(** C7. With both a fixed album and an album mode other than
    [FolderModeNone], [NewLocalFiles] returns no browser and an error; with at
    most one of them, and unless the external tool is asked for and fails to
    start, it returns a browser and no error; that browser holds the trees,
    the flags and the recorder it was given and an empty catalog: no
    tree was walked. *)
Theorem NewLocalFiles_album_conflict NewExifTool l fl trees :
  (ImportIntoAlbum fl <> "" -> UsePathAsAlbumName fl <> FolderModeNone ->
   NewLocalFiles NewExifTool l fl trees =
     (None, Some "cannot use both --into-album and --folder-as-album")) /\
  (ImportIntoAlbum fl = "" \/ UsePathAsAlbumName fl = FolderModeNone ->
   UseExifTool fl = false \/ (exists et, NewExifTool fl = inr et) ->
   exists b,
     NewLocalFiles NewExifTool l fl trees = (Some b, None) /\
     fsyss b = trees /\ flags b = fl /\ log b = l /\ catalogs b = ∅).
Proof.
  split.
  - intros Ha Hm. unfold NewLocalFiles.
    rewrite (nonEmpty_true _ Ha), bool_decide_eq_false_2 by assumption.
    reflexivity.
  - intros Hone Htool. unfold NewLocalFiles.
    assert (nonEmpty (ImportIntoAlbum fl) &&
            negb (bool_decide (UsePathAsAlbumName fl = FolderModeNone)) = false)
      as ->.
    { destruct Hone as [-> | ->]; [reflexivity |].
      rewrite bool_decide_eq_true_2 by reflexivity. apply andb_false_r. }
    destruct (UseExifTool fl) eqn:Huse.
    + destruct Htool as [Hf | [et Het]]; [discriminate |].
      rewrite Het. eexists. repeat split.
    + eexists. repeat split.
Qed.

Lemma NewLocalFiles_album_conflict_witness :
  NewLocalFiles (fun _ => inl "exiftool not found") []
      (Sample.withAlbumMode (Sample.withIntoAlbum Sample.flags0 "Holidays")
                            FolderModeFolder) [] =
    (None, Some "cannot use both --into-album and --folder-as-album") /\
  exists b,
    NewLocalFiles (fun _ => inl "exiftool not found") []
        (Sample.withIntoAlbum Sample.flags0 "Holidays") [] = (Some b, None) /\
    fsyss b = [] /\ flags b = Sample.withIntoAlbum Sample.flags0 "Holidays" /\
    log b = [] /\ catalogs b = ∅.
Proof.
  split.
  - apply (NewLocalFiles_album_conflict (fun _ => inl "exiftool not found") []
             (Sample.withAlbumMode (Sample.withIntoAlbum Sample.flags0 "Holidays")
                                   FolderModeFolder) []);
      simpl; discriminate.
  - apply (NewLocalFiles_album_conflict (fun _ => inl "exiftool not found") []
             (Sample.withIntoAlbum Sample.flags0 "Holidays") []).
    + right. reflexivity.
    + left. reflexivity.
Defined.

(** ** Album titles *)

Lemma cutLastSlash_no_slash s : hasSlash s = false -> cutLastSlash s = ("", s).
Proof.
  induction s as [| c r IH]; simpl; [reflexivity |].
  intros H. apply orb_false_iff in H as [Hc Hr].
  rewrite (IH Hr). simpl. rewrite Hc. reflexivity.
Qed.

(** A file at the root of the tree has the directory [.]. *)
Lemma Dir_no_slash s : hasSlash s = false -> Dir s = ".".
Proof.
  intros H. unfold Dir. rewrite (cutLastSlash_no_slash _ H). reflexivity.
Qed.

(** The album [manageAlbums] adds without a fixed album, for the asset
    [a/b/c.jpg] and for an asset at the root of the tree (no slash in its
    name), the tree being named [n]. *)
Lemma manageAlbums_titles fl fsys a g :
  ImportIntoAlbum fl = "" ->
  (forall n, fsName fsys = Some n ->
   UsePathAsAlbumName fl = FolderModePath -> FileName a = "a/b/c.jpg" ->
   Albums (manageAlbums fl fsys a g) =
     Albums g ++ [{| albumPath := "a/b";
                     albumTitle := Join [n; "a"; "b"]
                                     (AlbumNamePathSeparator fl) |}]) /\
  (UsePathAsAlbumName fl = FolderModeFolder -> FileName a = "a/b/c.jpg" ->
   Albums (manageAlbums fl fsys a g) =
     Albums g ++ [{| albumPath := "a/b/c.jpg"; albumTitle := "b" |}]) /\
  (forall n, fsName fsys = Some n ->
   UsePathAsAlbumName fl = FolderModeFolder -> n <> "" ->
   hasSlash (FileName a) = false ->
   Albums (manageAlbums fl fsys a g) =
     Albums g ++ [{| albumPath := FileName a; albumTitle := n |}]) /\
  (forall n, fsName fsys = Some n ->
   UsePathAsAlbumName fl = FolderModePath -> hasSlash (FileName a) = false ->
   Albums (manageAlbums fl fsys a g) =
     Albums g ++ [{| albumPath := "."; albumTitle := n |}]).
Proof.
  intros Hinto. unfold manageAlbums. rewrite Hinto. simpl.
  split; [| split; [| split]].
  - intros n -> -> ->. reflexivity.
  - intros -> ->. reflexivity.
  - intros n -> -> Hn Hroot. rewrite (Dir_no_slash _ Hroot). simpl.
    rewrite (nonEmpty_true _ Hn). reflexivity.
  - intros n -> -> Hroot. rewrite (Dir_no_slash _ Hroot). reflexivity.
Qed.

(** ** Pass one, file by file *)

(** C4 as amended. A file that reaches the classification (the context is
    not done, the name is not banned), is a sidecar, and is met while
    sidecars are ignored: the walk goes on, the file is recorded as a
    discovered sidecar and then as discarded with the reason
    "sidecar file ignored", and the catalog is left as it was. *)
Theorem walkFn_sidecar_ignored ctx fsys name st :
  ctxDone ctx (polls st) = false ->
  BannedFiles_Match (flags (la st)) name = false ->
  SupportedMedia_TypeFromExt (flags (la st)) (Ext (snd (Split name))) = TypeSidecar ->
  IgnoreSideCarFiles (flags (la st)) = true ->
  fst (walkFn ctx fsys name false None st) = RetNil /\
  log (la (snd (walkFn ctx fsys name false None st))) =
    log (la st) ++ [discovered DiscoveredSidecar fsys name;
                    discarded fsys name "sidecar file ignored"] /\
  catalogs (la (snd (walkFn ctx fsys name false None st))) = catalogs (la st).
Proof.
  intros Hctx Hban Hty Hign.
  unfold walkFn, bind, getLa, pollDone. simpl.
  rewrite Hctx, Hban.
  destruct (Split name) as [dir base] eqn:Hsplit. simpl in Hty.
  rewrite Hty. simpl. rewrite Hign. simpl.
  rewrite <- app_assoc. repeat split.
Qed.

Lemma walkFn_sidecar_ignored_witness :
  let fsys := Sample.tree [FileEntry "img.xmp"] in
  let st := start (Sample.browser (Sample.withIgnoreSideCar Sample.flags0) [fsys]) in
  fst (walkFn Sample.background fsys "img.xmp" false None st) = RetNil /\
  log (la (snd (walkFn Sample.background fsys "img.xmp" false None st))) =
    [discovered DiscoveredSidecar fsys "img.xmp";
     discarded fsys "img.xmp" "sidecar file ignored"] /\
  catalogs (la (snd (walkFn Sample.background fsys "img.xmp" false None st))) = ∅.
Proof.
  intros fsys st.
  apply (walkFn_sidecar_ignored Sample.background fsys "img.xmp" st);
    reflexivity.
Defined.

(** C4 as stated fails: for an ignored sidecar no discard event with the
    reason "sidecar ignored" is recorded. *)
Lemma walkFn_sidecar_ignored_reason :
  let fsys := Sample.tree [FileEntry "img.xmp"] in
  let st := start (Sample.browser (Sample.withIgnoreSideCar Sample.flags0) [fsys]) in
  SupportedMedia_TypeFromExt (flags (la st)) (Ext "img.xmp") = TypeSidecar /\
  IgnoreSideCarFiles (flags (la st)) = true /\
  ~ In (discarded fsys "img.xmp" "sidecar ignored")
       (log (la (snd (walkFn Sample.background fsys "img.xmp" false None st)))).
Proof.
  intros fsys st. split; [reflexivity | split; [reflexivity |]].
  vm_compute. intros [H | [H | []]]; discriminate H.
Qed.

(** What the walk does with a banned file. *)
Lemma walkFn_banned ctx fsys name st :
  ctxDone ctx (polls st) = false ->
  BannedFiles_Match (flags (la st)) name = true ->
  walkFn ctx fsys name false None st =
    (RetNil, snd (Record_ DiscoveredDiscarded fsys name ["reason"; "banned file"]
                    (snd (pollDone ctx st)))).
Proof.
  intros Hctx Hban. unfold walkFn, bind, getLa, pollDone. simpl.
  rewrite Hctx, Hban. reflexivity.
Qed.

(** ** Pass two, entry by entry *)

(** [assetFromFile] polls no context, sends nothing, visits no map, and
    leaves the browser as it is but for its recorder. *)
Lemma assetFromFile_frame RM fsys name st :
  polls (snd (assetFromFile RM fsys name st)) = polls st /\
  ranges (snd (assetFromFile RM fsys name st)) = ranges st /\
  fileChan (snd (assetFromFile RM fsys name st)) = fileChan st /\
  flags (la (snd (assetFromFile RM fsys name st))) = flags (la st) /\
  catalogs (la (snd (assetFromFile RM fsys name st))) = catalogs (la st) /\
  fsyss (la (snd (assetFromFile RM fsys name st))) = fsyss (la st) /\
  exiftool (la (snd (assetFromFile RM fsys name st))) = exiftool (la st).
Proof.
  unfold assetFromFile, bind, getLa.
  destruct (RM _ _ _ _); simpl; [repeat split |].
  destruct (fsStat _ _); simpl; [repeat split |].
  destruct (_ && _); simpl; repeat split.
Qed.

Lemma manageAlbums_kind fl fsys a g :
  Kind (manageAlbums fl fsys a g) = Kind g /\
  Assets (manageAlbums fl fsys a g) = Assets g /\
  SideCar (manageAlbums fl fsys a g) = SideCar g.
Proof.
  unfold manageAlbums.
  destruct (nonEmpty (ImportIntoAlbum fl)); [repeat split |].
  destruct (UsePathAsAlbumName fl); [repeat split | | repeat split].
  destruct (nonEmpty _); repeat split.
Qed.








(** ** Invariants of a scan *)

Lemma hoare_ret {A} (P : Run -> Prop) (a : A) (Q : A -> Run -> Prop) :
  (forall st, P st -> Q a st) -> hoare P (ret a) Q.
Proof. intros H st HP. apply H, HP. Qed.

Lemma hoare_bind {A B} (P : Run -> Prop) (m : M A) (k : A -> M B)
    (Q : A -> Run -> Prop) (R : B -> Run -> Prop) :
  hoare P m Q -> (forall a, hoare (Q a) (k a) R) -> hoare P (bind m k) R.
Proof.
  intros Hm Hk st HP. unfold bind. specialize (Hm st HP).
  destruct (m st) as [a st1]. apply (Hk a st1 Hm).
Qed.

Lemma hoare_pre_pure {A} (P : Run -> Prop) (phi : Prop) (m : M A)
    (Q : A -> Run -> Prop) :
  (phi -> hoare P m Q) -> hoare (fun st => P st /\ phi) m Q.
Proof. intros H st [HP Hphi]. apply H; assumption. Qed.

Lemma hoare_weaken {A} (P P' : Run -> Prop) (m : M A) (Q Q' : A -> Run -> Prop) :
  hoare P' m Q' -> (forall st, P st -> P' st) ->
  (forall a st, Q' a st -> Q a st) -> hoare P m Q.
Proof. intros H HP HQ st Hst. apply HQ, H, HP, Hst. Qed.

(** A walk keeps every invariant its function keeps. *)
Lemma walkDir_inv (I : Run -> Prop) fn :
  (forall n d e, hoare I (fn n d e) (fun _ => I)) ->
  forall d name, hoare I (walkDir fn name d) (fun _ => I).
Proof.
  intros Hfn d. induction d as [n | n e ds IH] using DirEntry_tree_ind;
    intros name.
  - simpl. apply Hfn.
  - simpl. eapply hoare_bind; [apply Hfn |].
    intros [| |e1]; try (apply hoare_ret; auto).
    eapply hoare_bind.
    { instantiate (1 := fun _ => I). destruct e; [apply Hfn |].
      apply hoare_ret; auto. }
    intros [| |e2]; try (apply hoare_ret; auto).
    induction IH as [| d1 ds' Hd1 _ IHds].
    + apply hoare_ret; auto.
    + eapply hoare_bind; [apply Hd1 |].
      intros [| |e3]; try (apply hoare_ret; auto). apply IHds.
Qed.

Lemma WalkDir_inv (I : Run -> Prop) fsys fn :
  (forall n d e, hoare I (fn n d e) (fun _ => I)) ->
  hoare I (WalkDir fsys fn) (fun _ => I).
Proof.
  intros Hfn. unfold WalkDir.
  eapply hoare_bind.
  { instantiate (1 := fun _ => I).
    destruct (fsRoot fsys); [apply Hfn | apply walkDir_inv, Hfn]. }
  intros [| |e]; apply hoare_ret; auto.
Qed.

Section Banned.

Variable fl : ImportFlags.
Variable trees : list FS.

Lemma cleanMap_setBucket c key dir files k :
  cleanMap fl c k -> (k = key -> Forall (allowed fl) files) ->
  cleanMap fl (<[key := <[dir := files]> (default ∅ (c !! key))]> c) k.
Proof.
  intros Hc Hfiles m dir' files' Hm Hdir.
  destruct (decide (key = k)) as [-> | Hne].
  - rewrite lookup_insert_eq in Hm. injection Hm as <-.
    destruct (decide (dir = dir')) as [-> | Hd].
    + rewrite lookup_insert_eq in Hdir. injection Hdir as <-. auto.
    + rewrite lookup_insert_ne in Hdir by assumption.
      destruct (c !! k) as [m0 |] eqn:Hk; simpl in Hdir.
      * eapply Hc; eauto.
      * rewrite lookup_empty in Hdir. discriminate.
  - rewrite lookup_insert_ne in Hm by assumption. eapply Hc; eauto.
Qed.

Lemma cleanMap_bucket c k b fsys dir :
  catalogs b = c -> cleanMap fl c k -> k = fsKey fsys ->
  Forall (allowed fl) (bucket b fsys dir).
Proof.
  intros <- Hc ->. unfold bucket.
  destruct (catalogs b !! fsKey fsys) as [m |] eqn:Hm; simpl;
    [| rewrite lookup_empty; constructor].
  destruct (m !! dir) as [files |] eqn:Hd; simpl; [| constructor].
  eapply Hc; eauto.
Qed.

Lemma cleanMap_reset c key k :
  cleanMap fl c k \/ k = key -> cleanMap fl (<[key := ∅]> c) k.
Proof.
  intros H m dir files Hm Hdir.
  destruct (decide (key = k)) as [-> | Hne].
  - rewrite lookup_insert_eq in Hm. injection Hm as <-.
    rewrite lookup_empty in Hdir. discriminate.
  - rewrite lookup_insert_ne in Hm by assumption.
    destruct H as [Hc | ->]; [eapply Hc; eauto | congruence].
Qed.

(** The function of the walk keeps the buckets clean. *)
Lemma walkFn_clean ctx fsys G k name isDir err :
  hoare (cleanAt fl trees G k) (walkFn ctx fsys name isDir err) (fun _ => cleanAt fl trees G k).
Proof.
  intros st [Hcfg Hc]. pose proof Hcfg as [Hfl _]. unfold cleanAt.
  unfold walkFn, bind, getLa, pollDone, setBucket, setCatalogs, Record_,
    ret, withLa, bind, getLa.
  destruct err; simpl; [auto |].
  destruct isDir; simpl.
  { destruct (_ && _); simpl; [auto |].
    split; [assumption |]. intros HG. apply cleanMap_setBucket; auto. }
  destruct (ctxDone ctx (polls st)); simpl; [auto |].
  destruct (BannedFiles_Match (flags (la st)) name) eqn:Hban; simpl; [auto |].
  destruct (Split name) as [dir base].
  destruct (decide _) as [Hty | Hty]; simpl; [auto |].
  destruct (SupportedMedia_TypeFromExt (flags (la st)) (Ext base)) eqn:Ht;
    simpl; try congruence.
  all: try (destruct (IgnoreSideCarFiles (flags (la st))); simpl; [auto |]).
  all: destruct (negb (IncludedExtensions_Include _ _)); simpl; [auto |].
  all: destruct (ExcludedExtensions_Exclude _ _); simpl; [auto |].
  all: split; [assumption |]; intros HG.
  all: apply cleanMap_setBucket; [auto |].
  all: intros Hk; apply Forall_app; split;
    [eapply cleanMap_bucket; eauto | repeat constructor].
  all: unfold allowed; rewrite <- Hfl; exact Hban.
Qed.

Lemma walkFn_cleanOn ctx fsys K name isDir err :
  hoare (cleanOn fl trees K) (walkFn ctx fsys name isDir err) (fun _ => cleanOn fl trees K).
Proof.
  intros st [Hfl Hc]. split.
  - apply (walkFn_clean ctx fsys False 0 name isDir err st).
    split; [assumption | intros []].
  - intros k Hk.
    apply (walkFn_clean ctx fsys (K k) k name isDir err st);
      [split; [assumption | apply Hc] | exact Hk].
Qed.

(** After the walk of a tree its buckets are clean, and so are still
    those that were. *)
Lemma passOneFsWalk_cleanOn ctx fsys K :
  hoare (cleanOn fl trees K) (passOneFsWalk ctx fsys)
        (fun _ => cleanOn fl trees (fun k => K k \/ k = fsKey fsys)).
Proof.
  unfold passOneFsWalk.
  eapply hoare_bind.
  { instantiate (1 := fun b st => b = la st /\ cleanOn fl trees K st).
    intros st H. simpl. auto. }
  intros b. eapply hoare_bind.
  { instantiate (1 := fun _ => cleanOn fl trees (fun k => K k \/ k = fsKey fsys)).
    intros st [-> [Hfl Hc]]. split; [exact Hfl |].
    intros k Hk. simpl. apply cleanMap_reset.
    destruct Hk as [Hk | ->]; [left; apply Hc, Hk | right; reflexivity]. }
  intros u. cbv beta. apply WalkDir_inv. intros n d e. apply walkFn_cleanOn.
Qed.

(** When pass one ends without an error, the buckets of all the trees
    are clean. *)
Lemma passOneAll_cleanOn ctx ts : forall K,
  hoare (cleanOn fl trees K) (passOneAll ctx ts)
        (fun r st =>
           r = None ->
           cleanOn fl trees (fun k => K k \/ exists t, In t ts /\ k = fsKey t) st).
Proof.
  induction ts as [| t ts IH]; intros K.
  - apply hoare_ret. intros st [Hfl Hc] _. split; [exact Hfl |].
    intros k [Hk | (t & [] & _)]. apply Hc, Hk.
  - simpl. eapply hoare_bind; [apply passOneFsWalk_cleanOn |].
    intros [e |].
    + apply hoare_ret. intros st _ Hnone. discriminate Hnone.
    + eapply hoare_weaken;
        [apply (IH (fun k => K k \/ k = fsKey t)) | intros st H; exact H |].
      intros r st H Hr. destruct (H Hr) as [Hfl Hc]. split; [exact Hfl |].
      intros k [Hk | (t' & [<- | Ht'] & ->)].
      * apply Hc. left. left. exact Hk.
      * apply Hc. left. right. reflexivity.
      * apply Hc. right. exists t'. auto.
Qed.

Lemma linkedOK_noLinks : linkedOK fl noLinks.
Proof. repeat split; left; reflexivity. Qed.

Lemma linkedOK_set l f :
  linkedOK fl l -> allowed fl f ->
  linkedOK fl (setImage l f) /\ linkedOK fl (setVideo l f) /\
  linkedOK fl (setSidecar l f).
Proof.
  intros (Hi & Hv & Hs) Hf. unfold linkedOK. simpl. tauto.
Qed.

Lemma linksOK_insert links k l :
  linksOK fl links -> linkedOK fl l -> linksOK fl (<[k := l]> links).
Proof.
  intros H Hl k' l' Hk'. destruct (decide (k = k')) as [-> | Hne].
  - rewrite lookup_insert_eq in Hk'. injection Hk' as <-. exact Hl.
  - rewrite lookup_insert_ne in Hk' by assumption. eapply H; eauto.
Qed.

Lemma linksOK_default links k :
  linksOK fl links -> linkedOK fl (default noLinks (links !! k)).
Proof.
  intros H. destruct (links !! k) eqn:E; simpl;
    [eapply H; eauto | apply linkedOK_noLinks].
Qed.

Lemma scanImages_OK fl' files :
  Forall (allowed fl) files ->
  forall links, linksOK fl links -> linksOK fl (scanImages fl' files links).
Proof.
  unfold scanImages. induction 1 as [| f files Hf _ IH]; intros links Hl;
    simpl; [exact Hl |].
  apply IH. destruct (decide _); [| exact Hl].
  apply linksOK_insert; [exact Hl |].
  apply linkedOK_set; [apply linksOK_default, Hl | exact Hf].
Qed.

Lemma sidecarRange_OK keys links base file r :
  linksOK fl links -> allowed fl file ->
  sidecarRange keys links base file = Some r -> linksOK fl r.
Proof.
  intros Hl Hf. induction keys as [| f keys IH]; simpl; [discriminate |].
  destruct (String.eqb _ base); [| exact IH].
  destruct (links !! f) as [l |] eqn:E; [| exact IH].
  intros [= <-]. apply linksOK_insert; [exact Hl |].
  apply linkedOK_set; [eapply Hl; eauto | exact Hf].
Qed.

Lemma videoRange_OK keys links base file r :
  linksOK fl links -> allowed fl file ->
  videoRange keys links base file = Some r -> linksOK fl r.
Proof.
  intros Hl Hf. induction keys as [| f keys IH]; simpl; [discriminate |].
  assert (forall l, links !! f = Some l ->
                    linksOK fl (<[f := setVideo l file]> links)) as Hins.
  { intros l E. apply linksOK_insert; [exact Hl |].
    apply linkedOK_set; [eapply Hl; eauto | exact Hf]. }
  destruct (String.eqb _ base); destruct (String.eqb _ file);
    destruct (links !! f) as [l |] eqn:E;
    try exact IH; intros [= <-]; apply Hins; reflexivity.
Qed.

(** Linking a file touches neither the browser nor the channel, and
    keeps the links among the allowed files. *)
Lemma linkFile_OK order fl' links file st :
  linksOK fl links -> allowed fl file ->
  linksOK fl (fst (linkFile order fl' links file st)) /\
  la (snd (linkFile order fl' links file st)) = la st /\
  fileChan (snd (linkFile order fl' links file st)) = fileChan st.
Proof.
  intros Hl Hf. unfold linkFile.
  destruct (SupportedMedia_TypeFromExt fl' (Ext file)); simpl; auto.
  - destruct (links !! TrimSuffix file (Ext file)) as [l |] eqn:E; simpl.
    + split; [| split; reflexivity]. apply linksOK_insert; [exact Hl |].
      apply linkedOK_set; [eapply Hl; eauto | exact Hf].
    + split; [| split; reflexivity].
      destruct (videoRange _ links _ file) as [r |] eqn:Er; simpl.
      * eapply videoRange_OK; eauto.
      * apply linksOK_insert; [exact Hl |].
        apply linkedOK_set; [apply linkedOK_noLinks | exact Hf].
  - destruct (links !! TrimSuffix file (Ext file)) as [l |] eqn:E; simpl.
    + split; [| split; reflexivity]. apply linksOK_insert; [exact Hl |].
      apply linkedOK_set; [eapply Hl; eauto | exact Hf].
    + split; [| split; reflexivity].
      destruct (sidecarRange _ links _ file) as [r |] eqn:Er; simpl.
      * eapply sidecarRange_OK; eauto.
      * exact Hl.
Qed.

Lemma linkFiles_OK order fl' files :
  Forall (allowed fl) files ->
  forall links st, linksOK fl links ->
  linksOK fl (fst (linkFiles order fl' files links st)) /\
  la (snd (linkFiles order fl' files links st)) = la st /\
  fileChan (snd (linkFiles order fl' files links st)) = fileChan st.
Proof.
  induction 1 as [| f files Hf _ IH]; intros links st Hl; simpl; [auto |].
  unfold bind.
  destruct (linkFile_OK order fl' links f st Hl Hf) as (H1 & H2 & H3).
  destruct (linkFile order fl' links f st) as [links1 st1]. simpl in *.
  destruct (IH links1 st1 H1) as (H4 & H5 & H6).
  rewrite H5, H6, H2, H3. auto.
Qed.

Lemma passTwoInv_frame K st st' :
  flags (la st') = flags (la st) -> fsyss (la st') = fsyss (la st) ->
  catalogs (la st') = catalogs (la st) -> fileChan st' = fileChan st ->
  passTwoInv fl trees K st -> passTwoInv fl trees K st'.
Proof.
  intros H1 H2 H3 H4 [[[Hf Ht] Hc] Hg]. unfold passTwoInv, cleanOn, config.
  rewrite H1, H2, H3, H4. auto.
Qed.

Lemma buildLinks_inv order K files :
  Forall (allowed fl) files ->
  hoare (passTwoInv fl trees K) (buildLinks order fl files)
        (fun links st => passTwoInv fl trees K st /\ linksOK fl links).
Proof.
  intros Hf st Hinv. unfold buildLinks.
  destruct (linkFiles_OK order fl files Hf (scanImages fl files ∅) st)
    as (H1 & H2 & H3).
  { apply scanImages_OK; [exact Hf |]. intros k l Hk.
    rewrite lookup_empty in Hk. discriminate. }
  split; [| exact H1].
  eapply passTwoInv_frame; [.. | exact Hinv]; congruence.
Qed.

Lemma assetFromFile_inv RM K fsys name :
  hoare (passTwoInv fl trees K) (assetFromFile RM fsys name)
        (fun r st => passTwoInv fl trees K st /\
                     forall a, fst r = Some a -> FileName a = name).
Proof.
  intros st Hinv.
  pose proof (assetFromFile_frame RM fsys name st)
    as (_ & _ & H3 & H4 & H5 & H6 & _).
  split; [eapply passTwoInv_frame; [.. | exact Hinv]; assumption |].
  unfold assetFromFile, bind, getLa.
  destruct (RM _ _ _ _); simpl; [discriminate |].
  destruct (fsStat _ _); simpl; [discriminate |].
  destruct (_ && _); simpl; [discriminate |].
  intros a [= <-]. reflexivity.
Qed.

Lemma Record_inv K c fsys name args :
  hoare (passTwoInv fl trees K) (Record_ c fsys name args) (fun _ => passTwoInv fl trees K).
Proof.
  intros st Hinv. eapply passTwoInv_frame; [.. | exact Hinv]; reflexivity.
Qed.

Lemma errFn_inv K fsys name err :
  hoare (passTwoInv fl trees K) (errFn fsys name err) (fun _ => passTwoInv fl trees K).
Proof.
  destruct err; simpl; [apply Record_inv | apply hoare_ret; auto].
Qed.

Lemma allowed_nonEmpty s : nonEmpty s = true -> s = "" \/ allowed fl s -> allowed fl s.
Proof.
  intros H [-> | Ha]; [discriminate H | exact Ha].
Qed.

Lemma newGroup_OK k (l : list LocalAssetFile) :
  Forall (fun a => allowed fl (FileName a)) l -> groupOK fl (newGroup k l).
Proof. intros H. split; [exact H | discriminate]. Qed.

(** One file of an entry alone: the second and third cases of the switch. *)
Lemma buildGroup_single_inv RM K fsys name :
  allowed fl name ->
  hoare (passTwoInv fl trees K)
    (let* (a, err) := assetFromFile RM fsys name in
     match err with
     | Some e => errFn fsys name err >> ret Abort
     | None =>
         match a with
         | None => ret Skip
         | Some a => ret (Group a (newGroup GroupKindNone [a]))
         end
     end)
    (fun r st => passTwoInv fl trees K st /\ builtOK fl r).
Proof.
  intros Hn. eapply hoare_bind; [apply assetFromFile_inv |].
  intros [a err]. destruct err as [e |].
  - eapply hoare_bind;
      [eapply hoare_weaken;
         [apply errFn_inv | intros st [H _]; exact H | intros u st H; exact H] |].
    intros u. apply hoare_ret. intros st H. split; [exact H | exact I].
  - destruct a as [a |]; apply hoare_ret; intros st [H Ha];
      (split; [exact H |]); [| exact I].
    apply newGroup_OK. repeat constructor.
    rewrite (Ha a eq_refl). exact Hn.
Qed.

Lemma buildGroup_inv RM K fsys linked :
  linkedOK fl linked ->
  hoare (passTwoInv fl trees K) (buildGroup RM fsys linked)
        (fun r st => passTwoInv fl trees K st /\ builtOK fl r).
Proof.
  intros (Hi & Hv & _). unfold buildGroup.
  destruct (nonEmpty (image linked)) eqn:Ei;
    [pose proof (allowed_nonEmpty _ Ei Hi) as Hai |];
    (destruct (nonEmpty (video linked)) eqn:Ev;
     [pose proof (allowed_nonEmpty _ Ev Hv) as Hav |]); simpl.
  - eapply hoare_bind; [apply assetFromFile_inv |].
    intros [a err]. destruct err as [e |].
    { eapply hoare_bind;
        [eapply hoare_weaken;
           [apply errFn_inv | intros st [H _]; exact H
           | intros u st H; exact H] |].
      intros u. apply hoare_ret. intros st H. split; [exact H | exact I]. }
    destruct a as [a |];
      [| apply hoare_ret; intros st [H _]; split; [exact H | exact I]].
    apply hoare_pre_pure. intros Ha.
    eapply hoare_bind; [apply assetFromFile_inv |].
    intros [i err]. destruct i as [i |].
    + apply hoare_ret. intros st [H Hi2]. split; [exact H |].
      apply newGroup_OK. repeat constructor.
      * rewrite (Ha a eq_refl). exact Hai.
      * rewrite (Hi2 i eq_refl). exact Hav.
    + eapply hoare_bind;
        [eapply hoare_weaken;
           [apply errFn_inv | intros st [H _]; exact H
           | intros u st H; exact H] |].
      intros u. apply hoare_ret. intros st H. split; [exact H |].
      apply newGroup_OK. repeat constructor.
      rewrite (Ha a eq_refl). exact Hai.
  - apply buildGroup_single_inv, Hai.
  - apply buildGroup_single_inv, Hav.
  - apply hoare_ret. intros st H. split; [exact H | exact I].
Qed.

Lemma finishGroup_inv ctx K fsys linked a g :
  linkedOK fl linked -> groupOK fl g ->
  hoare (passTwoInv fl trees K) (finishGroup ctx fsys linked a g)
        (fun _ => passTwoInv fl trees K).
Proof.
  intros (_ & _ & Hs) [Hga Hgs] st [Hc Hch].
  unfold finishGroup, attachSideCar, emit, bind, getLa, pollDone, send,
    Record_, ret, withLa.
  assert (forall g1, groupOK fl g1 ->
                     groupOK fl (manageAlbums (flags (la st)) fsys a g1)) as Hal.
  { intros g1 [H1 H2].
    destruct (manageAlbums_kind (flags (la st)) fsys a g1) as (_ & Ea & Es).
    split; [rewrite Ea; exact H1 | rewrite Es; exact H2]. }
  destruct (nonEmpty (sidecar linked)) eqn:Es; simpl;
    destruct (ctxDone ctx (polls st)); simpl;
    (split; [exact Hc |]); try exact Hch; simpl;
    apply Forall_app; (split; [exact Hch |]);
    apply Forall_cons_2; [| constructor | | constructor]; apply Hal.
  - split; [exact Hga |]. simpl. intros s [= <-]. simpl.
    apply (allowed_nonEmpty _ Es Hs).
  - split; assumption.
Qed.

Lemma resolveEntry_inv RM ctx K fsys linked :
  linkedOK fl linked ->
  hoare (passTwoInv fl trees K) (resolveEntry RM ctx fsys linked)
        (fun _ => passTwoInv fl trees K).
Proof.
  intros Hl. unfold resolveEntry.
  eapply hoare_bind; [apply buildGroup_inv, Hl |].
  intros [| | | a g]; try (apply hoare_ret; intros st [H _]; exact H).
  apply hoare_pre_pure. intros Hg. apply finishGroup_inv; assumption.
Qed.

Lemma resolveEntries_inv RM ctx K fsys links files :
  linksOK fl links ->
  hoare (passTwoInv fl trees K) (resolveEntries RM ctx fsys links files)
        (fun _ => passTwoInv fl trees K).
Proof.
  intros Hl. induction files as [| f files IH]; simpl.
  - apply hoare_ret. auto.
  - eapply hoare_bind; [apply resolveEntry_inv, linksOK_default, Hl |].
    intros [|]; [exact IH | apply hoare_ret; auto].
Qed.

Lemma passTwoDir_inv RM order ctx (K : nat -> Prop) fsys dir :
  K (fsKey fsys) ->
  hoare (passTwoInv fl trees K) (passTwoDir RM order ctx fsys dir)
        (fun _ => passTwoInv fl trees K).
Proof.
  intros HK st Hinv. pose proof Hinv as [[[Hfl Htr] Hc] Hch].
  unfold passTwoDir. unfold bind at 1. unfold getLa.
  destruct (decide _); [exact Hinv |].
  rewrite Hfl.
  assert (Forall (allowed fl) (bucket (la st) fsys dir)) as Hfiles.
  { eapply cleanMap_bucket; [reflexivity | apply Hc, HK | reflexivity]. }
  apply (hoare_bind (passTwoInv fl trees K) _ _
           (fun links st => passTwoInv fl trees K st /\ linksOK fl links)
           (fun _ => passTwoInv fl trees K)).
  - apply buildLinks_inv, Hfiles.
  - intros links. apply hoare_pre_pure. intros Hl.
    apply resolveEntries_inv, Hl.
  - exact Hinv.
Qed.

Lemma passTwoDirs_inv RM order ctx (K : nat -> Prop) fsys dirs :
  K (fsKey fsys) ->
  hoare (passTwoInv fl trees K) (passTwoDirs RM order ctx fsys dirs)
        (fun _ => passTwoInv fl trees K).
Proof.
  intros HK. induction dirs as [| d dirs IH]; simpl.
  - apply hoare_ret. auto.
  - eapply hoare_bind; [apply passTwoDir_inv, HK |].
    intros [|]; [exact IH | apply hoare_ret; auto].
Qed.

Lemma passTwoTrees_inv RM order ctx (K : nat -> Prop) ts :
  (forall t, In t ts -> K (fsKey t)) ->
  hoare (passTwoInv fl trees K) (passTwoTrees RM order ctx ts)
        (fun _ => passTwoInv fl trees K).
Proof.
  induction ts as [| t ts IH]; intros HK; simpl.
  - apply hoare_ret. auto.
  - eapply hoare_bind.
    { instantiate (1 := fun _ => passTwoInv fl trees K). intros st H. exact H. }
    intros b. eapply hoare_bind; [apply passTwoDirs_inv, HK; left; reflexivity |].
    intros [|]; [| apply hoare_ret; auto].
    apply IH. intros t' Ht'. apply HK. right. exact Ht'.
Qed.

(** The groups carried by the channel of [passTwo] are made of allowed
    files when the buckets of the trees of the browser are clean. *)
Lemma passTwo_inv RM order ctx (K : nat -> Prop) :
  (forall t, In t trees -> K (fsKey t)) ->
  hoare (cleanOn fl trees K) (passTwo RM order ctx)
        (fun groups _ => Forall (groupOK fl) groups).
Proof.
  intros HK. unfold passTwo.
  eapply hoare_bind.
  { instantiate (1 := fun _ => passTwoInv fl trees K).
    intros st Hc. split; [exact Hc | constructor]. }
  intros u. eapply hoare_bind.
  { instantiate (1 := fun b st => passTwoInv fl trees K st /\ fsyss b = trees).
    intros st H. split; [exact H | apply H]. }
  intros b. apply hoare_pre_pure. intros ->.
  eapply hoare_bind; [apply passTwoTrees_inv, HK |].
  intros f. eapply hoare_bind.
  { instantiate (1 := fun _ => passTwoInv fl trees K).
    destruct (exiftool b); [| apply hoare_ret; auto].
    intros st H. eapply passTwoInv_frame; [.. | exact H]; reflexivity. }
  intros u'. intros st [_ H]. exact H.
Qed.

(** The groups [Browse] hands over are made of allowed files. *)
Lemma Browse_inv RM order ctx :
  hoare (config fl trees) (Browse RM order ctx)
        (fun r _ => forall groups, fst r = Some groups ->
                                   Forall (groupOK fl) groups).
Proof.
  unfold Browse.
  eapply hoare_bind.
  { instantiate (1 := fun b st => cleanOn fl trees (fun _ => False) st /\ fsyss b = trees).
    intros st Hcfg. split; [split; [exact Hcfg | intros k []] | apply Hcfg]. }
  intros b. apply hoare_pre_pure. intros ->.
  eapply hoare_bind; [apply passOneAll_cleanOn |].
  intros [e |].
  - apply hoare_ret. intros st _ groups H. discriminate H.
  - eapply hoare_bind.
    { eapply hoare_weaken;
        [apply (passTwo_inv RM order ctx
                  (fun k => False \/ exists t, In t trees /\ k = fsKey t))
        | intros st H; apply H; reflexivity
        | intros groups st H; exact H].
      intros t Ht. right. exists t. auto. }
    intros groups. apply hoare_ret. intros st H groups' [= <-]. exact H.
Qed.

End Banned.

(** ** Banned files *)

(** C9. A file the banned-name matcher matches, met by the walk while the
    context is not done, is recorded as discarded with the reason
    "banned file" and the catalog is left as it was; and no group [Browse]
    hands over has a handle or a sidecar with a banned name. *)
Theorem banned_file_never_grouped RM order ctx :
  (forall fsys name st,
     ctxDone ctx (polls st) = false ->
     BannedFiles_Match (flags (la st)) name = true ->
     fst (walkFn ctx fsys name false None st) = RetNil /\
     log (la (snd (walkFn ctx fsys name false None st))) =
       log (la st) ++ [discarded fsys name "banned file"] /\
     catalogs (la (snd (walkFn ctx fsys name false None st))) =
       catalogs (la st)) /\
  (forall st name groups,
     BannedFiles_Match (flags (la st)) name = true ->
     fst (fst (Browse RM order ctx st)) = Some groups ->
     forall g, In g groups ->
       (forall a, In a (Assets g) -> FileName a <> name) /\
       (forall s, SideCar g = Some s -> scFileName s <> name)).
Proof.
  split.
  - intros fsys name st Hctx Hban.
    rewrite (walkFn_banned ctx fsys name st Hctx Hban). repeat split.
  - intros st name groups Hban Hrun g Hg.
    pose proof (Browse_inv (flags (la st)) (fsyss (la st)) RM order ctx st
                  (conj eq_refl eq_refl) groups Hrun) as Hall.
    rewrite Forall_forall in Hall.
    destruct (Hall g (proj2 (list_elem_of_In _ _) Hg)) as [Ha Hs].
    split.
    + intros a Hin Heq. rewrite Forall_forall in Ha.
      specialize (Ha a (proj2 (list_elem_of_In _ _) Hin)).
      unfold allowed in Ha. rewrite Heq, Hban in Ha. discriminate Ha.
    + intros s Hsc Heq. specialize (Hs s Hsc).
      unfold allowed in Hs. rewrite Heq, Hban in Hs. discriminate Hs.
Qed.

Lemma banned_file_never_grouped_witness :
  let fsys := Sample.tree [SubDir "x" None [FileEntry "Thumbs.jpg";
                                            FileEntry "y.jpg"]] in
  let st := start (Sample.browser Sample.flags0 [fsys]) in
  let y := {| Kind := GroupKindNone; Assets := [Sample.asset "x/y.jpg" 150%Z];
              CoverIndex := 0; SideCar := None; Albums := [] |} in
  (fst (walkFn Sample.background fsys "x/Thumbs.jpg" false None st) = RetNil /\
   log (la (snd (walkFn Sample.background fsys "x/Thumbs.jpg" false None st))) =
     [discarded fsys "x/Thumbs.jpg" "banned file"] /\
   catalogs (la (snd (walkFn Sample.background fsys "x/Thumbs.jpg" false None st))) = ∅) /\
  fst (fst (Browse Sample.readMetadata Sample.increasing Sample.background st)) =
    Some [y] /\
  (forall a, In a (Assets y) -> FileName a <> "x/Thumbs.jpg") /\
  (forall s, SideCar y = Some s -> scFileName s <> "x/Thumbs.jpg").
Proof.
  intros fsys st y.
  pose proof (banned_file_never_grouped Sample.readMetadata Sample.increasing
                Sample.background) as [Hfile Hscan].
  split; [apply (Hfile fsys "x/Thumbs.jpg" st); reflexivity |].
  assert (fst (fst (Browse Sample.readMetadata Sample.increasing
                      Sample.background st)) = Some [y]) as Hrun
    by (vm_compute; reflexivity).
  split; [exact Hrun |].
  apply (Hscan st "x/Thumbs.jpg" [y] eq_refl Hrun y). left. reflexivity.
Defined.

(** ** The links of a directory *)

(** C1 fails on the code: a video whose name without extension is the key
    of an entry is stored as the sidecar of that entry, not as its video.
    With the files [a.jpg] and [a.jpg.mp4], whatever the order of the maps,
    the entry [a.jpg] has no video and the sidecar [a.jpg.mp4], and the scan
    hands over one group of kind [GroupKindNone] with the image alone. *)
Theorem video_of_exact_key_stored_as_sidecar order st :
  fst (buildLinks order Sample.flags0 ["a.jpg"; "a.jpg.mp4"] st) !! "a.jpg" =
    Some {| image := "a.jpg"; video := ""; sidecar := "a.jpg.mp4" |} /\
  fst (fst (Browse Sample.readMetadata order Sample.background
              (start (Sample.browser Sample.flags0
                        [Sample.tree [FileEntry "a.jpg"; FileEntry "a.jpg.mp4"]])))) =
    Some [{| Kind := GroupKindNone; Assets := [Sample.asset "a.jpg" 150%Z];
             CoverIndex := 0;
             SideCar := Some {| scFSys := 0; scFileName := "a.jpg.mp4" |};
             Albums := [] |}].
Proof.
  split; vm_compute; reflexivity.
Qed.

(** The same in general: the first case of a video writes the sidecar of
    the entry and leaves its video as it was. *)
Lemma linkFile_video_exact_key order fl links file l st :
  SupportedMedia_TypeFromExt fl (Ext file) = TypeVideo ->
  links !! TrimSuffix file (Ext file) = Some l ->
  linkFile order fl links file st =
    (<[TrimSuffix file (Ext file) := setSidecar l file]> links, st).
Proof.
  intros Ht Hl. unfold linkFile. rewrite Ht, Hl. reflexivity.
Qed.

Lemma decreasing_valid : validOrder Sample.decreasing.
Proof. intros n l. symmetry. apply Permutation_rev. Qed.

Lemma increasing_valid : validOrder Sample.increasing.
Proof. intros n l. reflexivity. Qed.

(** C3 fails on the code: with the files [a.jpg], [a.png] and [a.xmp] in
    one directory, the sidecar goes to the entry the [range] over the map
    meets first. Two runs that visit the map in two orders hand over
    different groups. *)
Theorem sidecar_fallback_depends_on_map_order :
  let st := start (Sample.browser Sample.flags0
                     [Sample.tree [FileEntry "a.jpg"; FileEntry "a.png";
                                   FileEntry "a.xmp"]]) in
  let group name sc :=
    {| Kind := GroupKindNone; Assets := [Sample.asset name 150%Z];
       CoverIndex := 0; SideCar := sc; Albums := [] |} in
  let xmp := Some {| scFSys := 0; scFileName := "a.xmp" |} in
  validOrder Sample.increasing /\ validOrder Sample.decreasing /\
  fst (fst (Browse Sample.readMetadata Sample.increasing Sample.background st)) =
    Some [group "a.jpg" xmp; group "a.png" None] /\
  fst (fst (Browse Sample.readMetadata Sample.decreasing Sample.background st)) =
    Some [group "a.jpg" None; group "a.png" xmp] /\
  fst (fst (Browse Sample.readMetadata Sample.increasing Sample.background st)) <>
  fst (fst (Browse Sample.readMetadata Sample.decreasing Sample.background st)).
Proof.
  intros st group xmp.
  split; [apply increasing_valid | split; [apply decreasing_valid |]].
  split; [vm_compute; reflexivity | split; [vm_compute; reflexivity |]].
  vm_compute. discriminate.
Qed.

(** ** Failures of the primary asset *)





(** * Further properties *)

(** ** Extensions and directories *)

Lemma cutLastSlash_slash s : hasSlash s = true -> fst (cutLastSlash s) <> "".
Proof.
  induction s as [| c r IH]; simpl; [discriminate |].
  intros H. destruct (cutLastSlash r) as [d b] eqn:Hcut. simpl in IH.
  destruct (String.eqb_spec d "") as [-> | Hd].
  - destruct (Ascii.eqb c "/") eqn:Hc; simpl; [discriminate |].
    simpl in H. exfalso. apply IH; [exact H | reflexivity].
  - simpl. discriminate.
Qed.

Lemma extScan_slash s : hasSlash s = true -> exists e, extScan s = Some e.
Proof.
  induction s as [| c r IH]; simpl; [discriminate |].
  intros H. destruct (extScan r) as [e |] eqn:He; [eauto |].
  destruct (Ascii.eqb c "/") eqn:Hc; [eauto |].
  simpl in H. destruct (IH H) as [e He']. discriminate He'.
Qed.

(** The extension of a path is the extension of its last element. *)
Lemma Ext_Split s : Ext (snd (Split s)) = Ext s.
Proof.
  unfold Split, Ext. induction s as [| c r IH]; [reflexivity |].
  destruct (hasSlash r) eqn:Hr.
  - pose proof (cutLastSlash_slash r Hr) as Hd.
    destruct (extScan_slash r Hr) as [e He].
    simpl. destruct (cutLastSlash r) as [d b]. simpl in Hd, IH.
    apply String.eqb_neq in Hd. rewrite Hd. simpl.
    rewrite IH, He. reflexivity.
  - simpl. rewrite (cutLastSlash_no_slash r Hr). simpl.
    destruct (Ascii.eqb c "/") eqn:Hc; simpl; rewrite ?Hc; [| reflexivity].
    destruct (extScan r); reflexivity.
Qed.

(** ** What the walk files *)

Lemma bucketsAll_setBucket P c key dir files k :
  bucketsAll P c k -> (k = key -> Forall (P dir) files) ->
  bucketsAll P (<[key := <[dir := files]> (default ∅ (c !! key))]> c) k.
Proof.
  intros Hc Hfiles m dir' files' Hm Hdir.
  destruct (decide (key = k)) as [-> | Hne].
  - rewrite lookup_insert_eq in Hm. injection Hm as <-.
    destruct (decide (dir = dir')) as [-> | Hd].
    + rewrite lookup_insert_eq in Hdir. injection Hdir as <-. auto.
    + rewrite lookup_insert_ne in Hdir by assumption.
      destruct (c !! k) as [m0 |] eqn:Hk; simpl in Hdir.
      * eapply Hc; eauto.
      * rewrite lookup_empty in Hdir. discriminate.
  - rewrite lookup_insert_ne in Hm by assumption. eapply Hc; eauto.
Qed.

Lemma bucketsAll_bucket P c b fsys dir :
  catalogs b = c -> bucketsAll P c (fsKey fsys) ->
  Forall (P dir) (bucket b fsys dir).
Proof.
  intros <- Hc. unfold bucket.
  destruct (catalogs b !! fsKey fsys) as [m |] eqn:Hm; simpl;
    [| rewrite lookup_empty; constructor].
  destruct (m !! dir) as [files |] eqn:Hd; simpl; [| constructor].
  eapply Hc; eauto.
Qed.

Lemma bucketsAll_reset P c key k :
  bucketsAll P c k \/ k = key -> bucketsAll P (<[key := ∅]> c) k.
Proof.
  intros H m dir files Hm Hdir.
  destruct (decide (key = k)) as [-> | Hne].
  - rewrite lookup_insert_eq in Hm. injection Hm as <-.
    rewrite lookup_empty in Hdir. discriminate.
  - rewrite lookup_insert_ne in Hm by assumption.
    destruct H as [Hc | ->]; [eapply Hc; eauto | congruence].
Qed.

(** The function of the walk files a name only when it is accepted, and
    under its own directory. *)
Lemma walkFn_filed fl ctx fsys G k name isDir err :
  hoare (filedAt fl G k) (walkFn ctx fsys name isDir err)
        (fun _ => filedAt fl G k).
Proof.
  intros st [Hfl Hc]. unfold filedAt.
  unfold walkFn, bind, getLa, pollDone, setBucket, setCatalogs, Record_,
    ret, withLa, bind, getLa.
  destruct err; simpl; [auto |].
  destruct isDir; simpl.
  { destruct (_ && _); simpl; [auto |].
    split; [assumption |]. intros HG. apply bucketsAll_setBucket; auto. }
  destruct (ctxDone ctx (polls st)); simpl; [auto |].
  destruct (BannedFiles_Match (flags (la st)) name) eqn:Hban; simpl; [auto |].
  pose proof (Ext_Split name) as Hext.
  assert (dirOf name =
          if String.eqb (TrimSuffix (fst (Split name)) "/") ""
          then "." else TrimSuffix (fst (Split name)) "/") as Hdir
    by reflexivity.
  destruct (Split name) as [dir base]. simpl in Hext, Hdir.
  destruct (decide _) as [Hty | Hty]; simpl; [auto |].
  destruct (SupportedMedia_TypeFromExt (flags (la st)) (Ext base)) eqn:Ht;
    simpl; try congruence.
  3: destruct (IgnoreSideCarFiles (flags (la st))) eqn:Hign; simpl; [auto |].
  all: destruct (IncludedExtensions_Include _ _) eqn:Hinc; simpl; [| auto].
  all: destruct (ExcludedExtensions_Exclude _ _) eqn:Hexc; simpl; [auto |].
  all: split; [assumption |]; intros HG.
  all: apply bucketsAll_setBucket; [auto |]; intros ->.
  all: apply Forall_app; split;
    [apply bucketsAll_bucket with (c := catalogs (la st)); auto |].
  all: apply Forall_cons_2; [| constructor].
  all: split; [| exact Hdir].
  all: unfold accepted, typeOf; rewrite <- Hext, <- Hfl, Ht, Hinc, Hexc.
  all: repeat split; try congruence.
Qed.

Lemma walkFn_filedOn fl ctx fsys K name isDir err :
  hoare (filedOn fl K) (walkFn ctx fsys name isDir err) (fun _ => filedOn fl K).
Proof.
  intros st [Hfl Hc]. split.
  - apply (walkFn_filed fl ctx fsys False 0 name isDir err st).
    split; [assumption | intros []].
  - intros k Hk.
    apply (walkFn_filed fl ctx fsys (K k) k name isDir err st);
      [split; [assumption | apply Hc] | exact Hk].
Qed.

Lemma passOneFsWalk_filedOn fl ctx fsys K :
  hoare (filedOn fl K) (passOneFsWalk ctx fsys)
        (fun _ => filedOn fl (fun k => K k \/ k = fsKey fsys)).
Proof.
  unfold passOneFsWalk.
  eapply hoare_bind.
  { instantiate (1 := fun b st => b = la st /\ filedOn fl K st).
    intros st H. simpl. auto. }
  intros b. eapply hoare_bind.
  { instantiate (1 := fun _ => filedOn fl (fun k => K k \/ k = fsKey fsys)).
    intros st [-> [Hfl Hc]]. split; [exact Hfl |].
    intros k Hk. simpl. apply bucketsAll_reset.
    destruct Hk as [Hk | ->]; [left; apply Hc, Hk | right; reflexivity]. }
  intros u. cbv beta. apply WalkDir_inv. intros n d e. apply walkFn_filedOn.
Qed.

Lemma passOneAll_filedOn fl ctx ts : forall K,
  hoare (filedOn fl K) (passOneAll ctx ts)
        (fun r st =>
           r = None ->
           filedOn fl (fun k => K k \/ exists t, In t ts /\ k = fsKey t) st).
Proof.
  induction ts as [| t ts IH]; intros K.
  - apply hoare_ret. intros st [Hfl Hc] _. split; [exact Hfl |].
    intros k [Hk | (t & [] & _)]. apply Hc, Hk.
  - simpl. eapply hoare_bind; [apply passOneFsWalk_filedOn |].
    intros [e |].
    + apply hoare_ret. intros st _ Hnone. discriminate Hnone.
    + eapply hoare_weaken;
        [apply (IH (fun k => K k \/ k = fsKey t)) | intros st H; exact H |].
      intros r st H Hr. destruct (H Hr) as [Hfl Hc]. split; [exact Hfl |].
      intros k [Hk | (t' & [<- | Ht'] & ->)].
      * apply Hc. left. left. exact Hk.
      * apply Hc. left. right. reflexivity.
      * apply Hc. right. exists t'. auto.
Qed.

(** X1. When pass one ends without an error, every file of every bucket of
    every tree walked went through all the filters of the walk (not banned,
    of a known type, not an ignored sidecar, of an included and not excluded
    extension), and the key of its bucket is its own directory. *)
Theorem catalogued_files_are_filed ctx ts st t m dir files :
  fst (passOneAll ctx ts st) = None ->
  In t ts ->
  catalogs (la (snd (passOneAll ctx ts st))) !! fsKey t = Some m ->
  m !! dir = Some files ->
  Forall (fun f => accepted (flags (la st)) f /\ dirOf f = dir) files.
Proof.
  intros Hok Ht Hm Hdir.
  pose proof (passOneAll_filedOn (flags (la st)) ctx ts (fun _ => False) st)
    as H.
  destruct H as [_ Hall]; [split; [reflexivity | intros k []] | exact Hok |].
  apply (Hall (fsKey t) (or_intror (ex_intro _ t (conj Ht eq_refl)))
              m dir files Hm Hdir).
Qed.

Lemma catalogued_files_are_filed_witness :
  let fsys := Sample.tree [FileEntry "a.jpg";
                           SubDir "x" None [FileEntry "Thumbs.jpg";
                                            FileEntry "y.mp4";
                                            FileEntry "z.txt"]] in
  let st := start (Sample.browser Sample.flags0 [fsys]) in
  Forall (fun f => accepted Sample.flags0 f /\ dirOf f = "x") ["x/y.mp4"].
Proof.
  intros fsys st.
  apply (catalogued_files_are_filed Sample.background [fsys] st fsys
           (<["x" := ["x/y.mp4"]]> (<["." := ["a.jpg"]]> ∅)) "x" ["x/y.mp4"]).
  - vm_compute. reflexivity.
  - left. reflexivity.
  - vm_compute. reflexivity.
  - vm_compute. reflexivity.
Defined.

(** ** What the walk leaves alone *)

Lemma untouched_refl k st : untouched k st st.
Proof.
  repeat split. exists []. symmetry. apply app_nil_r.
Qed.

Lemma walkFn_untouched ctx fsys k st0 name isDir err :
  k <> fsKey fsys ->
  hoare (untouched k st0) (walkFn ctx fsys name isDir err)
        (fun _ => untouched k st0).
Proof.
  intros Hk st (Hc & Hch & Hcl & Hfl & Htr & l & Hl). unfold untouched.
  assert (forall m : gmap string (list string),
            <[fsKey fsys := m]> (catalogs (la st)) !! k =
            catalogs (la st0) !! k) as Hins.
  { intros m. rewrite lookup_insert_ne by congruence. exact Hc. }
  assert (forall c a, exists l', log (la st) ++ [{| evCode := c;
            evFile := AsFileAndName (fsKey fsys) name; evArgs := a |}] =
            log (la st0) ++ l') as Hlog1.
  { intros c a. rewrite Hl, <- app_assoc. eauto. }
  assert (forall c a c' a', exists l',
            (log (la st) ++ [{| evCode := c;
               evFile := AsFileAndName (fsKey fsys) name; evArgs := a |}]) ++
            [{| evCode := c';
               evFile := AsFileAndName (fsKey fsys) name; evArgs := a' |}] =
            log (la st0) ++ l') as Hlog2.
  { intros c a c' a'. rewrite Hl, <- !app_assoc. eauto. }
  assert (exists l', log (la st) = log (la st0) ++ l') as Hlog0 by eauto.
  unfold walkFn, bind, getLa, pollDone, setBucket, setCatalogs, Record_,
    ret, withLa, bind, getLa.
  destruct err; simpl; [repeat split; auto |].
  destruct isDir; simpl.
  { destruct (_ && _); simpl; repeat split; auto. }
  destruct (ctxDone ctx (polls st)); simpl; [repeat split; auto |].
  destruct (BannedFiles_Match (flags (la st)) name); simpl;
    [repeat split; auto |].
  destruct (Split name) as [dir base].
  destruct (decide _) as [Hty | Hty]; simpl; [repeat split; auto |].
  destruct (SupportedMedia_TypeFromExt (flags (la st)) (Ext base)) eqn:Ht;
    simpl; try congruence.
  3: destruct (IgnoreSideCarFiles (flags (la st))); simpl;
    [repeat split; auto |].
  all: destruct (IncludedExtensions_Include _ _); simpl;
    [| repeat split; auto].
  all: destruct (ExcludedExtensions_Exclude _ _); simpl; repeat split; auto.
Qed.

Lemma passOneFsWalk_frame ctx fsys k st :
  k <> fsKey fsys ->
  untouched k st (snd (passOneFsWalk ctx fsys st)).
Proof.
  intros Hk. unfold passOneFsWalk, bind, getLa. simpl.
  apply (WalkDir_inv (untouched k st) fsys (walkFn ctx fsys)).
  - intros n d e. apply walkFn_untouched, Hk.
  - destruct (untouched_refl k st) as (_ & H2 & H3 & H4 & H5 & H6).
    unfold untouched. simpl. rewrite lookup_insert_ne by congruence.
    repeat split; assumption.
Qed.

(** X2. The walk of a tree changes no bucket of another tree, sends no
    group, closes no handle, keeps the flags and the trees of the browser,
    and only adds events after those already recorded. *)
Theorem passOneFsWalk_untouched ctx fsys k st :
  k <> fsKey fsys ->
  untouched k st (snd (passOneFsWalk ctx fsys st)).
Proof.
  intros Hk. pose proof (passOneFsWalk_frame ctx fsys k st Hk) as H.
  destruct H as (H1 & H2 & H3 & H4 & H5 & l & H6).
  repeat split; try assumption. exists l. exact H6.
Qed.

Lemma passOneFsWalk_untouched_witness :
  let fsys := Sample.tree [FileEntry "a.jpg"; FileEntry "z.txt"] in
  let st := start (Sample.browser Sample.flags0 [fsys]) in
  untouched 1 st (snd (passOneFsWalk Sample.background fsys st)).
Proof.
  intros fsys st.
  apply (passOneFsWalk_untouched Sample.background fsys 1 st).
  discriminate.
Defined.

(** ** The groups pass two sends *)

(** Linking a file changes neither the browser, nor the channel, nor the
    polls of the context, nor the closed handles. *)
Lemma linkFile_frame order fl links file st :
  la (snd (linkFile order fl links file st)) = la st /\
  fileChan (snd (linkFile order fl links file st)) = fileChan st /\
  polls (snd (linkFile order fl links file st)) = polls st /\
  closed (snd (linkFile order fl links file st)) = closed st.
Proof.
  unfold linkFile.
  destruct (SupportedMedia_TypeFromExt fl (Ext file)); simpl; auto;
    destruct (links !! TrimSuffix file (Ext file)); simpl; auto.
Qed.

Lemma linkFiles_frame order fl files : forall links st,
  la (snd (linkFiles order fl files links st)) = la st /\
  fileChan (snd (linkFiles order fl files links st)) = fileChan st /\
  polls (snd (linkFiles order fl files links st)) = polls st /\
  closed (snd (linkFiles order fl files links st)) = closed st.
Proof.
  induction files as [| f files IH]; intros links st; simpl; [auto |].
  unfold bind.
  pose proof (linkFile_frame order fl links f st) as (H1 & H2 & H3 & H4).
  destruct (linkFile order fl links f st) as [links1 st1]. simpl in *.
  destruct (IH links1 st1) as (H5 & H6 & H7 & H8).
  rewrite H5, H6, H7, H8. auto.
Qed.

(** The handle [assetFromFile] returns carries the name it was asked for,
    the tree it was asked in and the last element of the name as title. *)
Lemma assetFromFile_handle RM fsys name st a :
  fst (fst (assetFromFile RM fsys name st)) = Some a ->
  FileName a = name /\ handleOf fsys a.
Proof.
  unfold assetFromFile, bind, getLa, handleOf.
  destruct (RM _ _ _ _); simpl; [discriminate |].
  destruct (fsStat _ _); simpl; [discriminate |].
  destruct (_ && _); simpl; [discriminate |].
  intros [= <-]. simpl. auto.
Qed.

Lemma manageAlbums_cover fl fsys a g :
  CoverIndex (manageAlbums fl fsys a g) = CoverIndex g.
Proof.
  unfold manageAlbums.
  destruct (nonEmpty (ImportIntoAlbum fl)); [reflexivity |].
  destruct (UsePathAsAlbumName fl); [reflexivity | | reflexivity].
  destruct (nonEmpty _); reflexivity.
Qed.

Section Sent.

Variable fl : ImportFlags.
Variable trees : list FS.
Variables PI PV PS Q : string -> Prop.
Hypothesis HQ : forall f, Q f -> fileOK fl PI PV PS f.

Lemma fieldsOK_noLinks : fieldsOK PI PV PS noLinks.
Proof. repeat split; left; reflexivity. Qed.

Lemma linksTyped_insert links k l :
  linksTyped PI PV PS links -> fieldsOK PI PV PS l ->
  linksTyped PI PV PS (<[k := l]> links).
Proof.
  intros H Hl k' l' Hk'. destruct (decide (k = k')) as [-> | Hne].
  - rewrite lookup_insert_eq in Hk'. injection Hk' as <-. exact Hl.
  - rewrite lookup_insert_ne in Hk' by assumption. eapply H; eauto.
Qed.

Lemma linksTyped_default links k :
  linksTyped PI PV PS links -> fieldsOK PI PV PS (default noLinks (links !! k)).
Proof.
  intros H. destruct (links !! k) eqn:E; simpl;
    [eapply H; eauto | apply fieldsOK_noLinks].
Qed.

Lemma fieldsOK_setImage l f :
  fieldsOK PI PV PS l -> PI f -> fieldsOK PI PV PS (setImage l f).
Proof. intros (Hi & Hv & Hs) Hf. unfold fieldsOK. simpl. tauto. Qed.

Lemma fieldsOK_setVideo l f :
  fieldsOK PI PV PS l -> PV f -> fieldsOK PI PV PS (setVideo l f).
Proof. intros (Hi & Hv & Hs) Hf. unfold fieldsOK. simpl. tauto. Qed.

Lemma fieldsOK_setSidecar l f :
  fieldsOK PI PV PS l -> PS f -> fieldsOK PI PV PS (setSidecar l f).
Proof. intros (Hi & Hv & Hs) Hf. unfold fieldsOK. simpl. tauto. Qed.

Lemma scanImages_typed files :
  Forall (fileOK fl PI PV PS) files ->
  forall links, linksTyped PI PV PS links ->
                linksTyped PI PV PS (scanImages fl files links).
Proof.
  unfold scanImages. induction 1 as [| f files Hf _ IH]; intros links Hl;
    simpl; [exact Hl |].
  apply IH. destruct (decide _) as [Ht |]; [| exact Hl].
  apply linksTyped_insert; [exact Hl |].
  apply fieldsOK_setImage; [apply linksTyped_default, Hl |].
  unfold fileOK, typeOf in Hf. rewrite Ht in Hf. exact Hf.
Qed.

Lemma sidecarRange_typed keys links base file r :
  linksTyped PI PV PS links -> PS file ->
  sidecarRange keys links base file = Some r -> linksTyped PI PV PS r.
Proof.
  intros Hl Hf. induction keys as [| f keys IH]; simpl; [discriminate |].
  destruct (String.eqb _ base); [| exact IH].
  destruct (links !! f) as [l |] eqn:E; [| exact IH].
  intros [= <-]. apply linksTyped_insert; [exact Hl |].
  apply fieldsOK_setSidecar; [eapply Hl; eauto | exact Hf].
Qed.

Lemma videoRange_typed keys links base file r :
  linksTyped PI PV PS links -> PV file ->
  videoRange keys links base file = Some r -> linksTyped PI PV PS r.
Proof.
  intros Hl Hf. induction keys as [| f keys IH]; simpl; [discriminate |].
  assert (forall l, links !! f = Some l ->
                    linksTyped PI PV PS (<[f := setVideo l file]> links))
    as Hins.
  { intros l E. apply linksTyped_insert; [exact Hl |].
    apply fieldsOK_setVideo; [eapply Hl; eauto | exact Hf]. }
  destruct (String.eqb _ base); destruct (String.eqb _ file);
    destruct (links !! f) as [l |] eqn:E;
    try exact IH; intros [= <-]; apply Hins; reflexivity.
Qed.

Lemma linkFile_typed order links file st :
  linksTyped PI PV PS links -> fileOK fl PI PV PS file ->
  linksTyped PI PV PS (fst (linkFile order fl links file st)).
Proof.
  intros Hl Hf. unfold fileOK, typeOf in Hf. unfold linkFile.
  destruct (SupportedMedia_TypeFromExt fl (Ext file)); simpl; auto.
  - destruct Hf as [Hv Hs].
    destruct (links !! TrimSuffix file (Ext file)) as [l |] eqn:E; simpl.
    + apply linksTyped_insert; [exact Hl |].
      apply fieldsOK_setSidecar; [eapply Hl; eauto | exact Hs].
    + destruct (videoRange _ links _ file) as [r |] eqn:Er; simpl.
      * eapply videoRange_typed; eauto.
      * apply linksTyped_insert; [exact Hl |].
        apply fieldsOK_setVideo; [apply fieldsOK_noLinks | exact Hv].
  - destruct (links !! TrimSuffix file (Ext file)) as [l |] eqn:E; simpl.
    + apply linksTyped_insert; [exact Hl |].
      apply fieldsOK_setSidecar; [eapply Hl; eauto | exact Hf].
    + destruct (sidecarRange _ links _ file) as [r |] eqn:Er; simpl.
      * eapply sidecarRange_typed; eauto.
      * exact Hl.
Qed.

Lemma linkFiles_typed order files :
  Forall (fileOK fl PI PV PS) files ->
  forall links st, linksTyped PI PV PS links ->
  linksTyped PI PV PS (fst (linkFiles order fl files links st)).
Proof.
  induction 1 as [| f files Hf _ IH]; intros links st Hl; simpl; [auto |].
  unfold bind.
  pose proof (linkFile_typed order links f st Hl Hf) as H1.
  destruct (linkFile order fl links f st) as [links1 st1]. simpl in *.
  apply IH, H1.
Qed.

Lemma sendInv_frame K st st' :
  flags (la st') = flags (la st) -> fsyss (la st') = fsyss (la st) ->
  catalogs (la st') = catalogs (la st) -> fileChan st' = fileChan st ->
  sendInv fl trees PI PV PS Q K st -> sendInv fl trees PI PV PS Q K st'.
Proof.
  intros H1 H2 H3 H4 ([Hf Ht] & Hc & Hg). unfold sendInv, config.
  rewrite H1, H2, H3, H4. auto.
Qed.

Lemma buildLinks_sent order K files :
  Forall Q files ->
  hoare (sendInv fl trees PI PV PS Q K) (buildLinks order fl files)
        (fun links st => sendInv fl trees PI PV PS Q K st /\
                         linksTyped PI PV PS links).
Proof.
  intros Hf st Hinv. unfold buildLinks.
  assert (Forall (fileOK fl PI PV PS) files) as Hok.
  { eapply Forall_impl; [exact Hf | exact HQ]. }
  destruct (linkFiles_frame order fl files (scanImages fl files ∅) st)
    as (H1 & H2 & _).
  split.
  - eapply sendInv_frame; [.. | exact Hinv]; congruence.
  - apply linkFiles_typed; [exact Hok |].
    apply scanImages_typed; [exact Hok |]. intros k l Hk.
    rewrite lookup_empty in Hk. discriminate.
Qed.

Lemma assetFromFile_sent RM K fsys name :
  hoare (sendInv fl trees PI PV PS Q K) (assetFromFile RM fsys name)
        (fun r st => sendInv fl trees PI PV PS Q K st /\
                     forall a, fst r = Some a ->
                               FileName a = name /\ handleOf fsys a).
Proof.
  intros st Hinv.
  pose proof (assetFromFile_frame RM fsys name st)
    as (_ & _ & H3 & H4 & H5 & H6 & _).
  split; [eapply sendInv_frame; [.. | exact Hinv]; assumption |].
  intros a Ha. apply (assetFromFile_handle RM fsys name st a Ha).
Qed.

Lemma errFn_sent K fsys name err :
  hoare (sendInv fl trees PI PV PS Q K) (errFn fsys name err)
        (fun _ => sendInv fl trees PI PV PS Q K).
Proof.
  destruct err; simpl; [| apply hoare_ret; auto].
  intros st Hinv. eapply sendInv_frame; [.. | exact Hinv]; reflexivity.
Qed.

Lemma field_nonEmpty (P : string -> Prop) s :
  nonEmpty s = true -> s = "" \/ P s -> P s.
Proof. intros H [-> | Ha]; [discriminate H | exact Ha]. Qed.

Lemma newGroup_single fsys a :
  PI (FileName a) \/ PV (FileName a) -> handleOf fsys a ->
  builtAs PI PV PS fsys (Group a (newGroup GroupKindNone [a])).
Proof.
  intros Hp Hh. split; [| reflexivity]. unfold builtFrom. simpl.
  split; [destruct Hp; [apply shaped_image | apply shaped_video]; assumption |].
  repeat split; try discriminate. repeat constructor; apply Hh.
Qed.

Lemma buildGroup_single_sent RM K fsys name :
  PI name \/ PV name ->
  hoare (sendInv fl trees PI PV PS Q K)
    (let* (a, err) := assetFromFile RM fsys name in
     match err with
     | Some e => errFn fsys name err >> ret Abort
     | None =>
         match a with
         | None => ret Skip
         | Some a => ret (Group a (newGroup GroupKindNone [a]))
         end
     end)
    (fun r st => sendInv fl trees PI PV PS Q K st /\ builtAs PI PV PS fsys r).
Proof.
  intros Hn. eapply hoare_bind; [apply assetFromFile_sent |].
  intros [a err]. destruct err as [e |].
  - eapply hoare_bind;
      [eapply hoare_weaken;
         [apply errFn_sent | intros st [H _]; exact H | intros u st H; exact H] |].
    intros u. apply hoare_ret. intros st H. split; [exact H | exact I].
  - destruct a as [a |]; apply hoare_ret; intros st [H Ha];
      (split; [exact H |]); [| exact I].
    destruct (Ha a eq_refl) as [Hname Hh].
    apply newGroup_single; [rewrite Hname; exact Hn | exact Hh].
Qed.

Lemma buildGroup_sent RM K fsys linked :
  fieldsOK PI PV PS linked ->
  hoare (sendInv fl trees PI PV PS Q K) (buildGroup RM fsys linked)
        (fun r st => sendInv fl trees PI PV PS Q K st /\
                     builtAs PI PV PS fsys r).
Proof.
  intros (Hi & Hv & _). unfold buildGroup.
  destruct (nonEmpty (image linked)) eqn:Ei;
    [pose proof (field_nonEmpty PI _ Ei Hi) as Hai |];
    (destruct (nonEmpty (video linked)) eqn:Ev;
     [pose proof (field_nonEmpty PV _ Ev Hv) as Hav |]); simpl.
  - eapply hoare_bind; [apply assetFromFile_sent |].
    intros [a err]. destruct err as [e |].
    { eapply hoare_bind;
        [eapply hoare_weaken;
           [apply errFn_sent | intros st [H _]; exact H
           | intros u st H; exact H] |].
      intros u. apply hoare_ret. intros st H. split; [exact H | exact I]. }
    destruct a as [a |];
      [| apply hoare_ret; intros st [H _]; split; [exact H | exact I]].
    apply hoare_pre_pure. intros Ha. destruct (Ha a eq_refl) as [Hna Hha].
    eapply hoare_bind; [apply assetFromFile_sent |].
    intros [i err]. destruct i as [i |].
    + apply hoare_ret. intros st [H Hi2]. split; [exact H |].
      destruct (Hi2 i eq_refl) as [Hni Hhi].
      split; [| reflexivity]. unfold builtFrom. simpl.
      split; [apply shaped_motion; [rewrite Hna | rewrite Hni]; assumption |].
      repeat split; try discriminate.
      apply Forall_cons_2; [exact Hha |].
      apply Forall_cons_2; [exact Hhi | constructor].
    + eapply hoare_bind;
        [eapply hoare_weaken;
           [apply errFn_sent | intros st [H _]; exact H
           | intros u st H; exact H] |].
      intros u. apply hoare_ret. intros st H. split; [exact H |].
      apply newGroup_single; [left; rewrite Hna; exact Hai | exact Hha].
  - apply buildGroup_single_sent. left. exact Hai.
  - apply buildGroup_single_sent. right. exact Hav.
  - apply hoare_ret. intros st H. split; [exact H | exact I].
Qed.

Lemma finishGroup_sentInv ctx K fsys linked a g :
  In fsys trees ->
  fieldsOK PI PV PS linked -> builtFrom PI PV PS fsys a g -> SideCar g = None ->
  hoare (sendInv fl trees PI PV PS Q K) (finishGroup ctx fsys linked a g)
        (fun _ => sendInv fl trees PI PV PS Q K).
Proof.
  intros Hin (_ & _ & Hs) Hb Hnone st Hinv.
  pose proof Hinv as ([Hfl Htr] & Hc & Hch).
  unfold finishGroup, attachSideCar, emit, bind, getLa, pollDone, send,
    Record_, ret, withLa.
  destruct (nonEmpty (sidecar linked)) eqn:Es; simpl;
    destruct (ctxDone ctx (polls st)); simpl;
    (split; [split; assumption |]); (split; [exact Hc |]); try exact Hch;
    apply Forall_app; (split; [exact Hch |]);
    apply Forall_cons_2; [| constructor | | constructor];
    rewrite Hfl; exists fsys, a; eexists; (split; [exact Hin |]);
    (split; [| reflexivity]).
  - destruct Hb as (H1 & H2 & H3 & H4 & H5 & H6).
    unfold builtFrom. simpl. repeat split; try assumption.
    + injection H as <-. reflexivity.
    + injection H as <-. simpl. apply (field_nonEmpty PS _ Es Hs).
  - exact Hb.
Qed.

Lemma resolveEntry_sent RM ctx K fsys linked :
  In fsys trees -> fieldsOK PI PV PS linked ->
  hoare (sendInv fl trees PI PV PS Q K) (resolveEntry RM ctx fsys linked)
        (fun _ => sendInv fl trees PI PV PS Q K).
Proof.
  intros Hin Hl. unfold resolveEntry.
  eapply hoare_bind; [apply buildGroup_sent, Hl |].
  intros [| | | a g]; try (apply hoare_ret; intros st [H _]; exact H).
  apply hoare_pre_pure. intros [Hb Hn]. apply finishGroup_sentInv; assumption.
Qed.

Lemma resolveEntries_sent RM ctx K fsys links files :
  In fsys trees -> linksTyped PI PV PS links ->
  hoare (sendInv fl trees PI PV PS Q K) (resolveEntries RM ctx fsys links files)
        (fun _ => sendInv fl trees PI PV PS Q K).
Proof.
  intros Hin Hl. induction files as [| f files IH]; simpl.
  - apply hoare_ret. auto.
  - eapply hoare_bind;
      [apply resolveEntry_sent; [exact Hin | apply linksTyped_default, Hl] |].
    intros [|]; [exact IH | apply hoare_ret; auto].
Qed.

Lemma passTwoDir_sent RM order ctx (K : nat -> Prop) fsys dir :
  In fsys trees -> K (fsKey fsys) ->
  hoare (sendInv fl trees PI PV PS Q K) (passTwoDir RM order ctx fsys dir)
        (fun _ => sendInv fl trees PI PV PS Q K).
Proof.
  intros Hin HK st Hinv. pose proof Hinv as ([Hfl Htr] & Hc & Hch).
  unfold passTwoDir. unfold bind at 1. unfold getLa.
  destruct (decide _); [exact Hinv |].
  rewrite Hfl.
  assert (Forall Q (bucket (la st) fsys dir)) as Hfiles.
  { apply (bucketsAll_bucket (fun _ => Q) (catalogs (la st)));
      [reflexivity | apply Hc, HK]. }
  apply (hoare_bind (sendInv fl trees PI PV PS Q K) _ _
           (fun links st => sendInv fl trees PI PV PS Q K st /\
                            linksTyped PI PV PS links)
           (fun _ => sendInv fl trees PI PV PS Q K)).
  - apply buildLinks_sent, Hfiles.
  - intros links. apply hoare_pre_pure. intros Hl.
    apply resolveEntries_sent; assumption.
  - exact Hinv.
Qed.

Lemma passTwoDirs_sent RM order ctx (K : nat -> Prop) fsys dirs :
  In fsys trees -> K (fsKey fsys) ->
  hoare (sendInv fl trees PI PV PS Q K) (passTwoDirs RM order ctx fsys dirs)
        (fun _ => sendInv fl trees PI PV PS Q K).
Proof.
  intros Hin HK. induction dirs as [| d dirs IH]; simpl.
  - apply hoare_ret. auto.
  - eapply hoare_bind; [apply passTwoDir_sent; assumption |].
    intros [|]; [exact IH | apply hoare_ret; auto].
Qed.

Lemma passTwoTrees_sent RM order ctx (K : nat -> Prop) ts :
  (forall t, In t ts -> In t trees /\ K (fsKey t)) ->
  hoare (sendInv fl trees PI PV PS Q K) (passTwoTrees RM order ctx ts)
        (fun _ => sendInv fl trees PI PV PS Q K).
Proof.
  induction ts as [| t ts IH]; intros HK; simpl.
  - apply hoare_ret. auto.
  - eapply hoare_bind.
    { instantiate (1 := fun _ => sendInv fl trees PI PV PS Q K).
      intros st H. exact H. }
    intros b. eapply hoare_bind;
      [apply passTwoDirs_sent; apply HK; left; reflexivity |].
    intros [|]; [| apply hoare_ret; auto].
    apply IH. intros t' Ht'. apply HK. right. exact Ht'.
Qed.

(** Every group the channel of [passTwo] carries is as [sentGroup] says,
    when the files of the buckets of the trees of the browser satisfy [Q]. *)
Lemma passTwo_sent RM order ctx (K : nat -> Prop) :
  (forall t, In t trees -> K (fsKey t)) ->
  hoare (fun st => config fl trees st /\
                   forall k, K k -> bucketsAll (fun _ => Q) (catalogs (la st)) k)
        (passTwo RM order ctx)
        (fun groups _ => Forall (sentGroup fl trees PI PV PS) groups).
Proof.
  intros HK. unfold passTwo.
  eapply hoare_bind.
  { instantiate (1 := fun _ => sendInv fl trees PI PV PS Q K).
    intros st [Hcfg Hc]. split; [exact Hcfg | split; [exact Hc | constructor]]. }
  intros u. eapply hoare_bind.
  { instantiate (1 := fun b st => sendInv fl trees PI PV PS Q K st /\
                                  fsyss b = trees).
    intros st H. split; [exact H | apply H]. }
  intros b. apply hoare_pre_pure. intros ->.
  eapply hoare_bind; [apply passTwoTrees_sent; auto |].
  intros f. eapply hoare_bind.
  { instantiate (1 := fun _ => sendInv fl trees PI PV PS Q K).
    destruct (exiftool b); [| apply hoare_ret; auto].
    intros st H. eapply sendInv_frame; [.. | exact H]; reflexivity. }
  intros u'. intros st (_ & _ & H). exact H.
Qed.

End Sent.

Lemma passOneAll_fsyss ctx ts : forall st,
  fsyss (la (snd (passOneAll ctx ts st))) = fsyss (la st).
Proof.
  induction ts as [| t ts IH]; intros st; simpl; [reflexivity |].
  unfold bind.
  pose proof (passOneFsWalk_frame ctx t (S (fsKey t)) st
                ltac:(apply Nat.neq_succ_diag_l)) as (_ & _ & _ & _ & H & _).
  destruct (passOneFsWalk ctx t st) as [[e |] st1]; simpl in *; [exact H |].
  rewrite IH. exact H.
Qed.

Lemma accepted_fileOK fl f :
  accepted fl f ->
  fileOK fl (imageFile fl) (videoFile fl) (sidecarFile fl) f.
Proof.
  intros Ha. unfold fileOK, imageFile, videoFile, sidecarFile.
  destruct (typeOf fl f) eqn:Ht; auto.
Qed.

(** The groups [Browse] hands over are as [sentGroup] says, with handles
    and sidecars among the accepted files of the right type. *)
Lemma Browse_sent RM order ctx st groups :
  fst (fst (Browse RM order ctx st)) = Some groups ->
  Forall (sentGroup (flags (la st)) (fsyss (la st))
            (imageFile (flags (la st))) (videoFile (flags (la st)))
            (sidecarFile (flags (la st)))) groups.
Proof.
  set (fl := flags (la st)). set (trees := fsyss (la st)).
  unfold Browse. unfold bind at 1. unfold getLa. unfold bind at 1.
  pose proof (passOneAll_filedOn fl ctx trees (fun _ => False) st) as Hone.
  pose proof (passOneAll_fsyss ctx trees st) as Htrees.
  fold trees.
  destruct (passOneAll ctx trees st) as [[e |] st1]; simpl in *;
    [discriminate |].
  destruct Hone as [Hfl Hc]; [split; [reflexivity | intros k []] | reflexivity |].
  pose proof (passTwo_sent fl trees (imageFile fl) (videoFile fl)
                (sidecarFile fl) (accepted fl) (accepted_fileOK fl)
                RM order ctx
                (fun k => False \/ exists t, In t trees /\ k = fsKey t)) as Htwo.
  unfold bind. specialize (Htwo ltac:(intros t Ht; right; exists t; auto) st1).
  destruct (passTwo RM order ctx st1) as [c st2]. simpl in *.
  intros [= <-]. apply Htwo. split; [split; assumption |].
  intros k Hk m dir files Hm Hd.
  eapply Forall_impl; [apply (Hc k Hk m dir files Hm Hd) |].
  intros f [Hf _]. exact Hf.
Qed.

(** X3. Every group [Browse] hands over has the cover index 0 and one of
    two shapes: the kind [GroupKindNone] with one handle, of a file the
    classifier calls an image or a video, or the kind [GroupKindMotionPhoto]
    with two handles, of an image and then of a video. Every handle has the
    last element of its name as title and belongs to a tree of the browser. *)
Theorem emitted_groups_shape RM order ctx st groups g :
  fst (fst (Browse RM order ctx st)) = Some groups ->
  In g groups ->
  CoverIndex g = 0 /\
  ((Kind g = GroupKindNone /\
    exists a, Assets g = [a] /\
              (typeOf (flags (la st)) (FileName a) = TypeImage \/
               typeOf (flags (la st)) (FileName a) = TypeVideo)) \/
   (Kind g = GroupKindMotionPhoto /\
    exists a i, Assets g = [a; i] /\
                typeOf (flags (la st)) (FileName a) = TypeImage /\
                typeOf (flags (la st)) (FileName i) = TypeVideo)) /\
  (forall x, In x (Assets g) ->
             Title x = Base (FileName x) /\
             exists t, In t (fsyss (la st)) /\ FSys x = fsKey t).
Proof.
  intros Hrun Hg. pose proof (Browse_sent RM order ctx st groups Hrun) as Hall.
  rewrite Forall_forall in Hall.
  destruct (Hall g (proj2 (list_elem_of_In _ _) Hg))
    as (fsys & a & g0 & Hin & (Hsh & _ & Hcov & _ & _ & Hh) & ->).
  destruct (manageAlbums_kind (flags (la st)) fsys a g0) as (-> & -> & _).
  rewrite manageAlbums_cover. split; [exact Hcov |]. split.
  - destruct Hsh as [x [Hx _] | x [Hx _] | x i [Hx _] [Hi _]].
    + left. split; [reflexivity |]. exists x. auto.
    + left. split; [reflexivity |]. exists x. auto.
    + right. split; [reflexivity |]. exists x, i. auto.
  - intros x Hx. rewrite Forall_forall in Hh.
    destruct (Hh x (proj2 (list_elem_of_In _ _) Hx)) as [Hk Ht].
    split; [exact Ht |]. exists fsys. auto.
Qed.

(** X4. Every handle and every sidecar of a group [Browse] hands over names
    a file that went through all the filters of the walk: it is not banned,
    its extension is included and not excluded, its type is known, and it is
    not a sidecar when sidecars are ignored. A file recorded as sidecar is a
    sidecar or a video for the classifier. *)
Theorem emitted_files_are_accepted RM order ctx st groups g :
  fst (fst (Browse RM order ctx st)) = Some groups ->
  In g groups ->
  (forall x, In x (Assets g) -> accepted (flags (la st)) (FileName x)) /\
  (forall s, SideCar g = Some s ->
             accepted (flags (la st)) (scFileName s) /\
             (typeOf (flags (la st)) (scFileName s) = TypeSidecar \/
              typeOf (flags (la st)) (scFileName s) = TypeVideo)).
Proof.
  intros Hrun Hg. pose proof (Browse_sent RM order ctx st groups Hrun) as Hall.
  rewrite Forall_forall in Hall.
  destruct (Hall g (proj2 (list_elem_of_In _ _) Hg))
    as (fsys & a & g0 & Hin & (Hsh & _ & _ & _ & Hsc & _) & ->).
  destruct (manageAlbums_kind (flags (la st)) fsys a g0) as (_ & -> & ->).
  split.
  - intros x Hx.
    destruct Hsh as [y [_ Hy] | y [_ Hy] | y i [_ Hy] [_ Hi]];
      simpl in Hx; intuition (subst; assumption).
  - intros s Hs. destruct (Hsc s Hs) as [_ [Ht Ha]]. auto.
Qed.

(** X5. The albums of a group [Browse] hands over, [a] being its first
    handle: with a fixed album, that album alone, with the name of [a] as
    path; without it, no album in the mode [FolderModeNone], one album in
    the mode [FolderModePath], with the directory of [a] as path, and at
    most one in the mode [FolderModeFolder], with the name of [a] as path
    and a title that is not empty. *)
Theorem emitted_groups_albums RM order ctx st groups g :
  fst (fst (Browse RM order ctx st)) = Some groups ->
  In g groups ->
  exists a, hd_error (Assets g) = Some a /\
    (ImportIntoAlbum (flags (la st)) <> "" ->
     Albums g = [{| albumPath := FileName a;
                    albumTitle := ImportIntoAlbum (flags (la st)) |}]) /\
    (ImportIntoAlbum (flags (la st)) = "" ->
     match UsePathAsAlbumName (flags (la st)) with
     | FolderModeNone => Albums g = []
     | FolderModePath =>
         exists title, Albums g = [{| albumPath := Dir (FileName a);
                                      albumTitle := title |}]
     | FolderModeFolder =>
         Albums g = [] \/
         exists title, title <> "" /\
                       Albums g = [{| albumPath := FileName a;
                                      albumTitle := title |}]
     end).
Proof.
  intros Hrun Hg. pose proof (Browse_sent RM order ctx st groups Hrun) as Hall.
  rewrite Forall_forall in Hall.
  destruct (Hall g (proj2 (list_elem_of_In _ _) Hg))
    as (fsys & a & g0 & Hin & (_ & Hhd & _ & Hal & _ & _) & ->).
  exists a.
  destruct (manageAlbums_kind (flags (la st)) fsys a g0) as (_ & -> & _).
  split; [exact Hhd |]. unfold manageAlbums. split.
  - intros Hne. rewrite (nonEmpty_true _ Hne). simpl. rewrite Hal. reflexivity.
  - intros ->. simpl.
    destruct (UsePathAsAlbumName (flags (la st))); simpl.
    + exact Hal.
    + destruct (nonEmpty _) eqn:Et; simpl; [| left; exact Hal].
      right. eexists. split; [| rewrite Hal; reflexivity].
      intros E. rewrite E in Et. discriminate Et.
    + eexists. rewrite Hal. reflexivity.
Qed.

Lemma emitted_groups_shape_witness :
  let fsys := Sample.tree [FileEntry "clip.jpg"; FileEntry "clip.mp4"] in
  let st := start (Sample.browser Sample.flags0 [fsys]) in
  let g := {| Kind := GroupKindMotionPhoto;
              Assets := [Sample.asset "clip.jpg" 150%Z;
                         Sample.asset "clip.mp4" 50%Z];
              CoverIndex := 0; SideCar := None; Albums := [] |} in
  fst (fst (Browse Sample.readMetadata Sample.increasing Sample.background st)) =
    Some [g] /\
  CoverIndex g = 0 /\
  ((Kind g = GroupKindNone /\
    exists a, Assets g = [a] /\
              (typeOf Sample.flags0 (FileName a) = TypeImage \/
               typeOf Sample.flags0 (FileName a) = TypeVideo)) \/
   (Kind g = GroupKindMotionPhoto /\
    exists a i, Assets g = [a; i] /\
                typeOf Sample.flags0 (FileName a) = TypeImage /\
                typeOf Sample.flags0 (FileName i) = TypeVideo)) /\
  (forall x, In x (Assets g) ->
             Title x = Base (FileName x) /\
             exists t, In t [fsys] /\ FSys x = fsKey t).
Proof.
  intros fsys st g.
  assert (fst (fst (Browse Sample.readMetadata Sample.increasing
                      Sample.background st)) = Some [g]) as Hrun
    by (vm_compute; reflexivity).
  split; [exact Hrun |].
  apply (emitted_groups_shape Sample.readMetadata Sample.increasing
           Sample.background st [g] g Hrun).
  left. reflexivity.
Defined.

Lemma emitted_files_are_accepted_witness :
  let fsys := Sample.tree [FileEntry "img.jpg"; FileEntry "img.jpg.xmp";
                           FileEntry "Thumbs.jpg"] in
  let st := start (Sample.browser Sample.flags0 [fsys]) in
  let g := {| Kind := GroupKindNone;
              Assets := [Sample.asset "img.jpg" 150%Z];
              CoverIndex := 0;
              SideCar := Some {| scFSys := 0; scFileName := "img.jpg.xmp" |};
              Albums := [] |} in
  fst (fst (Browse Sample.readMetadata Sample.increasing Sample.background st)) =
    Some [g] /\
  (forall x, In x (Assets g) -> accepted Sample.flags0 (FileName x)) /\
  (forall s, SideCar g = Some s ->
             accepted Sample.flags0 (scFileName s) /\
             (typeOf Sample.flags0 (scFileName s) = TypeSidecar \/
              typeOf Sample.flags0 (scFileName s) = TypeVideo)).
Proof.
  intros fsys st g.
  assert (fst (fst (Browse Sample.readMetadata Sample.increasing
                      Sample.background st)) = Some [g]) as Hrun
    by (vm_compute; reflexivity).
  split; [exact Hrun |].
  apply (emitted_files_are_accepted Sample.readMetadata Sample.increasing
           Sample.background st [g] g Hrun).
  left. reflexivity.
Defined.

Lemma emitted_groups_albums_witness :
  let fsys := Sample.tree [SubDir "trip" None [FileEntry "img.jpg"]] in
  let fl := Sample.withIntoAlbum Sample.flags0 "Holidays" in
  let st := start (Sample.browser fl [fsys]) in
  let g := {| Kind := GroupKindNone;
              Assets := [Sample.asset "trip/img.jpg" 150%Z];
              CoverIndex := 0; SideCar := None;
              Albums := [{| albumPath := "trip/img.jpg";
                            albumTitle := "Holidays" |}] |} in
  fst (fst (Browse Sample.readMetadata Sample.increasing Sample.background st)) =
    Some [g] /\
  exists a, hd_error (Assets g) = Some a /\
    (ImportIntoAlbum fl <> "" ->
     Albums g = [{| albumPath := FileName a;
                    albumTitle := ImportIntoAlbum fl |}]) /\
    (ImportIntoAlbum fl = "" ->
     match UsePathAsAlbumName fl with
     | FolderModeNone => Albums g = []
     | FolderModePath =>
         exists title, Albums g = [{| albumPath := Dir (FileName a);
                                      albumTitle := title |}]
     | FolderModeFolder =>
         Albums g = [] \/
         exists title, title <> "" /\
                       Albums g = [{| albumPath := FileName a;
                                      albumTitle := title |}]
     end).
Proof.
  intros fsys fl st g.
  assert (fst (fst (Browse Sample.readMetadata Sample.increasing
                      Sample.background st)) = Some [g]) as Hrun
    by (vm_compute; reflexivity).
  split; [exact Hrun |].
  apply (emitted_groups_albums Sample.readMetadata Sample.increasing
           Sample.background st [g] g Hrun).
  left. reflexivity.
Defined.

(** ** Cancellation in pass two *)

Lemma emit_done ctx g st :
  ctxDone ctx (polls st) = true ->
  fst (emit ctx g st) = Return /\ fileChan (snd (emit ctx g st)) = fileChan st.
Proof.
  intros H. unfold emit, bind, pollDone. simpl. rewrite H. simpl. auto.
Qed.

Lemma quiet_frame st0 st st' :
  polls st' = polls st -> fileChan st' = fileChan st ->
  quiet st0 st -> quiet st0 st'.
Proof. intros H1 H2 [Hp Hc]. unfold quiet. rewrite H1, H2. auto. Qed.

Lemma assetFromFile_quiet RM fsys name st0 :
  hoare (quiet st0) (assetFromFile RM fsys name) (fun _ => quiet st0).
Proof.
  intros st Hq.
  pose proof (assetFromFile_frame RM fsys name st) as (H1 & _ & H3 & _).
  eapply quiet_frame; eassumption.
Qed.

Lemma errFn_quiet fsys name err st0 :
  hoare (quiet st0) (errFn fsys name err) (fun _ => quiet st0).
Proof.
  destruct err; simpl; [| apply hoare_ret; auto].
  intros st Hq. eapply quiet_frame; [.. | exact Hq]; reflexivity.
Qed.

Lemma buildGroup_quiet RM fsys linked st0 :
  hoare (quiet st0) (buildGroup RM fsys linked) (fun _ => quiet st0).
Proof.
  assert (forall name,
    hoare (quiet st0)
      (let* (a, err) := assetFromFile RM fsys name in
       match err with
       | Some e => errFn fsys name err >> ret Abort
       | None =>
           match a with
           | None => ret Skip
           | Some a => ret (Group a (newGroup GroupKindNone [a]))
           end
       end)
      (fun _ => quiet st0)) as Hsingle.
  { intros name. eapply hoare_bind; [apply assetFromFile_quiet |].
    intros [a [e |]].
    - eapply hoare_bind; [apply errFn_quiet |].
      intros u. apply hoare_ret. auto.
    - destruct a; apply hoare_ret; auto. }
  unfold buildGroup.
  destruct (nonEmpty (image linked)); destruct (nonEmpty (video linked));
    simpl; try apply Hsingle; [| apply hoare_ret; auto].
  eapply hoare_bind; [apply assetFromFile_quiet |].
  intros [a [e |]].
  - eapply hoare_bind; [apply errFn_quiet |].
    intros u. apply hoare_ret. auto.
  - destruct a as [a |]; [| apply hoare_ret; auto].
    eapply hoare_bind; [apply assetFromFile_quiet |].
    intros [[i |] err]; [apply hoare_ret; auto |].
    eapply hoare_bind; [apply errFn_quiet |].
    intros u. apply hoare_ret. auto.
Qed.

Lemma finishGroup_quiet ctx fsys linked a g st0 :
  doneFrom ctx (polls st0) ->
  hoare (quiet st0) (finishGroup ctx fsys linked a g) (fun _ => quiet st0).
Proof.
  intros Hdone st [Hp Hc].
  unfold finishGroup, attachSideCar, emit, bind, getLa, pollDone, send,
    Record_, ret, withLa.
  destruct (nonEmpty (sidecar linked)); simpl;
    rewrite (Hdone (polls st) Hp); simpl; split; simpl; auto.
Qed.

Lemma resolveEntries_quiet RM ctx fsys links files st0 :
  doneFrom ctx (polls st0) ->
  hoare (quiet st0) (resolveEntries RM ctx fsys links files)
        (fun _ => quiet st0).
Proof.
  intros Hdone. induction files as [| f files IH]; simpl.
  - apply hoare_ret. auto.
  - eapply hoare_bind.
    { instantiate (1 := fun _ => quiet st0). unfold resolveEntry.
      eapply hoare_bind; [apply buildGroup_quiet |].
      intros [| | | a g]; try (apply hoare_ret; auto).
      apply finishGroup_quiet, Hdone. }
    intros [|]; [exact IH | apply hoare_ret; auto].
Qed.

Lemma passTwoDir_quiet RM order ctx fsys dir st0 :
  doneFrom ctx (polls st0) ->
  hoare (quiet st0) (passTwoDir RM order ctx fsys dir) (fun _ => quiet st0).
Proof.
  intros Hdone st Hq. unfold passTwoDir. unfold bind at 1. unfold getLa.
  destruct (decide _); [exact Hq |].
  apply (hoare_bind (quiet st0) _ _ (fun _ => quiet st0) (fun _ => quiet st0)).
  - intros st1 Hq1. unfold buildLinks.
    pose proof (linkFiles_frame order (flags (la st))
                  (bucket (la st) fsys dir)
                  (scanImages (flags (la st)) (bucket (la st) fsys dir) ∅) st1)
      as (_ & H2 & H3 & _).
    eapply quiet_frame; eassumption.
  - intros links. apply resolveEntries_quiet, Hdone.
  - exact Hq.
Qed.

Lemma passTwoTrees_quiet RM order ctx ts st0 :
  doneFrom ctx (polls st0) ->
  hoare (quiet st0) (passTwoTrees RM order ctx ts) (fun _ => quiet st0).
Proof.
  intros Hdone. induction ts as [| t ts IH]; simpl.
  - apply hoare_ret. auto.
  - eapply hoare_bind.
    { instantiate (1 := fun _ => quiet st0). intros st H. exact H. }
    intros b. eapply hoare_bind.
    { instantiate (1 := fun _ => quiet st0).
      generalize (sortedKeys (default ∅ (catalogs b !! fsKey t))).
      intros dirs. induction dirs as [| d dirs IHd]; simpl.
      - apply hoare_ret. auto.
      - eapply hoare_bind; [apply passTwoDir_quiet, Hdone |].
        intros [|]; [exact IHd | apply hoare_ret; auto]. }
    intros [|]; [exact IH | apply hoare_ret; auto].
Qed.

(** X6. Once the context is done for good, pass two sends nothing more:
    whatever the trees, the catalogs and the files, the loops over the trees
    leave the channel as it was, and [passTwo], started then, closes its
    channel without a group. *)
Theorem cancelled_pass_two_sends_nothing RM order ctx st :
  doneFrom ctx (polls st) ->
  (forall ts, fileChan (snd (passTwoTrees RM order ctx ts st)) = fileChan st) /\
  fst (passTwo RM order ctx st) = [].
Proof.
  intros Hdone. split.
  - intros ts.
    apply (passTwoTrees_quiet RM order ctx ts st Hdone st).
    split; [apply Nat.le_refl | reflexivity].
  - unfold passTwo, bind, makeChan, getLa. simpl.
    match goal with
    | |- context [passTwoTrees RM order ctx ?ts ?s0] =>
        pose proof (passTwoTrees_quiet RM order ctx ts s0 Hdone s0
                      (conj (Nat.le_refl _) eq_refl)) as [_ Hc];
        destruct (passTwoTrees RM order ctx ts s0) as [f st1]
    end.
    simpl in Hc. destruct (exiftool (la st)); simpl; exact Hc.
Qed.

Lemma cancelled_pass_two_sends_nothing_witness :
  let fsys := Sample.tree [FileEntry "a.jpg"; FileEntry "b.jpg"] in
  let ctx := {| ctxDone := fun n => 2 <=? n; ctxErr := "context canceled" |} in
  let st := snd (passOneAll ctx [fsys]
                   (start (Sample.browser Sample.flags0 [fsys]))) in
  bucket (la st) fsys "." = ["a.jpg"; "b.jpg"] /\
  (forall ts, fileChan (snd (passTwoTrees Sample.readMetadata Sample.increasing
                               ctx ts st)) = fileChan st) /\
  fst (passTwo Sample.readMetadata Sample.increasing ctx st) = [].
Proof.
  intros fsys ctx st. split; [vm_compute; reflexivity |].
  apply (cancelled_pass_two_sends_nothing Sample.readMetadata
           Sample.increasing ctx st).
  intros m Hm. change (polls st) with 2 in Hm.
  exact (proj2 (Nat.leb_le 2 m) Hm).
Defined.

(** ** A primary asset outside the date range *)

(** X7. When the date of the primary asset of an entry is outside the
    configured range, the entry is skipped and the loop goes on: no group is
    sent, the context is not polled, the handle of the primary asset is the
    only one closed, and its discard event, with the reason
    "asset outside date range", is the only event recorded. The companion
    video and the sidecar of the entry are neither read nor recorded. *)
Theorem resolveEntry_primary_outside_date_range RM ctx fsys linked st date size :
  primary linked <> "" ->
  RM (flags (la st)) (exiftool (la st)) fsys (primary linked) = inr date ->
  fsStat fsys (primary linked) = inr size ->
  DateRange_IsSet (flags (la st)) = true ->
  DateRange_InRange (flags (la st)) date = false ->
  fst (resolveEntry RM ctx fsys linked st) = Next /\
  fileChan (snd (resolveEntry RM ctx fsys linked st)) = fileChan st /\
  polls (snd (resolveEntry RM ctx fsys linked st)) = polls st /\
  closed (snd (resolveEntry RM ctx fsys linked st)) =
    closed st ++ [AsFileAndName (fsKey fsys) (primary linked)] /\
  log (la (snd (resolveEntry RM ctx fsys linked st))) =
    log (la st) ++ [discarded fsys (primary linked) "asset outside date range"].
Proof.
  intros Hne Hm Hs Hset Hin.
  pose proof (assetFromFile_soft RM fsys (primary linked) st date size
                Hm Hs Hset Hin) as Hsoft.
  assert (resolveEntry RM ctx fsys linked st =
          (Next, snd (Record_ DiscoveredDiscarded fsys (primary linked)
                        ["reason"; "asset outside date range"]
                        (snd (Close fsys (primary linked) st))))) as ->.
  { unfold resolveEntry, buildGroup. unfold primary in *.
    destruct (nonEmpty (image linked)) eqn:Ei.
    - destruct (nonEmpty (video linked)); simpl; unfold bind;
        rewrite Hsoft; reflexivity.
    - rewrite (nonEmpty_true _ Hne). simpl. unfold bind.
      rewrite Hsoft. reflexivity. }
  repeat split.
Qed.

Lemma resolveEntry_primary_outside_date_range_witness :
  let fsys := Sample.tree [] in
  let st := start (Sample.browser (Sample.withDateRange Sample.flags0) [fsys]) in
  let linked := {| image := ""; video := "clip.mp4"; sidecar := "clip.xmp" |} in
  let run := resolveEntry Sample.readMetadata Sample.background fsys linked st in
  fst run = Next /\
  fileChan (snd run) = [] /\
  polls (snd run) = 0 /\
  closed (snd run) = [AsFileAndName 0 "clip.mp4"] /\
  log (la (snd run)) = [discarded fsys "clip.mp4" "asset outside date range"].
Proof.
  intros fsys st linked run.
  apply (resolveEntry_primary_outside_date_range Sample.readMetadata
           Sample.background fsys linked st 50%Z 10%Z);
    try reflexivity; discriminate.
Defined.

(** ** The entries of the links *)

Lemma scanImages_anchored fl files0 files : forall links,
  (forall f, In f files -> In f files0) ->
  anchored fl files0 links ->
  anchored fl files0 (scanImages fl files links).
Proof.
  unfold scanImages. induction files as [| f files IH]; intros links Hsub Ha;
    simpl; [exact Ha |].
  apply IH; [intros x Hx; apply Hsub; right; exact Hx |].
  destruct (decide _) as [Ht |]; [| exact Ha].
  intros k l Hk. destruct (decide (f = k)) as [<- | Hne].
  - rewrite lookup_insert_eq in Hk. injection Hk as <-.
    split; [apply Hsub; left; reflexivity |]. left. split; [exact Ht | reflexivity].
  - rewrite lookup_insert_ne in Hk by assumption. apply (Ha k l Hk).
Qed.

Lemma scanImages_keeps fl files f : forall links,
  imageEntry links f -> imageEntry (scanImages fl files links) f.
Proof.
  unfold scanImages. induction files as [| x files IH]; intros links He;
    simpl; [exact He |].
  apply IH. destruct (decide _); [| exact He].
  destruct (decide (x = f)) as [-> | Hne].
  - eexists. rewrite lookup_insert_eq. split; reflexivity.
  - destruct He as (l & Hl & Hi). exists l.
    rewrite lookup_insert_ne by assumption. auto.
Qed.

Lemma scanImages_adds fl files f : forall links,
  In f files -> typeOf fl f = TypeImage ->
  imageEntry (scanImages fl files links) f.
Proof.
  induction files as [| x files IH]; intros links Hin Ht; [destruct Hin |].
  destruct Hin as [-> | Hin].
  - unfold scanImages. simpl. fold (scanImages fl files).
    apply scanImages_keeps. unfold typeOf in Ht.
    destruct (decide _) as [_ | Hn]; [| contradiction].
    eexists. rewrite lookup_insert_eq. split; reflexivity.
  - unfold scanImages. simpl. apply (IH _ Hin Ht).
Qed.

(** An entry changed by a range was there before, and keeps its image. *)
Lemma sidecarRange_some keys links base file r :
  sidecarRange keys links base file = Some r ->
  exists f l, links !! f = Some l /\ r = <[f := setSidecar l file]> links.
Proof.
  induction keys as [| f keys IH]; simpl; [discriminate |].
  destruct (String.eqb _ base); [| exact IH].
  destruct (links !! f) as [l |] eqn:E; [| exact IH].
  intros [= <-]. eauto.
Qed.

Lemma videoRange_some keys links base file r :
  videoRange keys links base file = Some r ->
  exists f l, links !! f = Some l /\ r = <[f := setVideo l file]> links.
Proof.
  induction keys as [| f keys IH]; simpl; [discriminate |].
  destruct (String.eqb _ base); destruct (String.eqb _ file);
    destruct (links !! f) as [l |] eqn:E;
    try exact IH; intros [= <-]; eauto.
Qed.

(** What linking a file does to the links: nothing, or it rewrites an entry
    and keeps its image, or it adds the entry of an unlinked video. *)
Lemma linkFile_cases order fl links file st :
  fst (linkFile order fl links file st) = links \/
  (exists f l l', links !! f = Some l /\ image l' = image l /\
                  fst (linkFile order fl links file st) = <[f := l']> links) \/
  (typeOf fl file = TypeVideo /\
   fst (linkFile order fl links file st) = <[file := setVideo noLinks file]> links).
Proof.
  unfold linkFile, typeOf.
  destruct (SupportedMedia_TypeFromExt fl (Ext file)); simpl; auto.
  - destruct (links !! TrimSuffix file (Ext file)) as [l |] eqn:E; simpl.
    + right. left. exists (TrimSuffix file (Ext file)), l, (setSidecar l file).
      auto.
    + destruct (videoRange _ links _ file) as [r |] eqn:Er; simpl.
      * destruct (videoRange_some _ _ _ _ _ Er) as (f & l & Hl & ->).
        right. left. exists f, l, (setVideo l file). auto.
      * right. right. auto.
  - destruct (links !! TrimSuffix file (Ext file)) as [l |] eqn:E; simpl.
    + right. left. exists (TrimSuffix file (Ext file)), l, (setSidecar l file).
      auto.
    + destruct (sidecarRange _ links _ file) as [r |] eqn:Er; simpl.
      * destruct (sidecarRange_some _ _ _ _ _ Er) as (f & l & Hl & ->).
        right. left. exists f, l, (setSidecar l file). auto.
      * left. reflexivity.
Qed.

Lemma linkFile_anchored order fl files0 links file st :
  In file files0 -> anchored fl files0 links ->
  anchored fl files0 (fst (linkFile order fl links file st)).
Proof.
  intros Hin Ha.
  destruct (linkFile_cases order fl links file st)
    as [-> | [(f & l & l' & Hl & Hi & ->) | (Ht & ->)]]; [exact Ha | |];
    intros k x Hk.
  - destruct (decide (f = k)) as [<- | Hne].
    + rewrite lookup_insert_eq in Hk. injection Hk as <-.
      rewrite Hi. apply (Ha f l Hl).
    + rewrite lookup_insert_ne in Hk by assumption. apply (Ha k x Hk).
  - destruct (decide (file = k)) as [<- | Hne].
    + rewrite lookup_insert_eq in Hk. injection Hk as <-.
      split; [exact Hin |]. right. split; [exact Ht | reflexivity].
    + rewrite lookup_insert_ne in Hk by assumption. apply (Ha k x Hk).
Qed.

Lemma linkFile_keeps order fl files0 links file st f :
  anchored fl files0 links ->
  imageEntry links f ->
  imageEntry (fst (linkFile order fl links file st)) f.
Proof.
  intros Ha (l0 & Hl0 & Hi0).
  destruct (linkFile_cases order fl links file st)
    as [-> | [(k & l & l' & Hl & Hi & ->) | (Ht & ->)]].
  - exists l0. auto.
  - destruct (decide (k = f)) as [-> | Hne].
    + exists l'. rewrite lookup_insert_eq. split; [reflexivity |].
      rewrite Hi. rewrite Hl in Hl0. injection Hl0 as ->. exact Hi0.
    + exists l0. rewrite lookup_insert_ne by assumption. auto.
  - destruct (decide (file = f)) as [-> | Hne].
    + destruct (Ha f l0 Hl0) as [_ [[Hty _] | [_ Himg]]].
      * rewrite Ht in Hty. discriminate.
      * exists (setVideo noLinks f). rewrite lookup_insert_eq.
        split; [reflexivity |]. simpl. congruence.
    + exists l0. rewrite lookup_insert_ne by assumption. auto.
Qed.

Lemma linkFiles_entries order fl files0 files : forall links st,
  (forall f, In f files -> In f files0) ->
  anchored fl files0 links ->
  anchored fl files0 (fst (linkFiles order fl files links st)) /\
  forall f, imageEntry links f ->
            imageEntry (fst (linkFiles order fl files links st)) f.
Proof.
  induction files as [| x files IH]; intros links st Hsub Ha; simpl; [auto |].
  unfold bind.
  pose proof (linkFile_anchored order fl files0 links x st
                (Hsub x (or_introl eq_refl)) Ha) as Ha1.
  pose proof (fun f => linkFile_keeps order fl files0 links x st f Ha) as Hk1.
  destruct (linkFile order fl links x st) as [links1 st1]. simpl in *.
  destruct (IH links1 st1 (fun f Hf => Hsub f (or_intror Hf)) Ha1) as [H1 H2].
  split; [exact H1 |]. intros f Hf. apply H2, Hk1, Hf.
Qed.

(** X8. The links of a directory, whatever the order of the maps: every
    image of the bucket has an entry under its own name, with itself as
    image; every entry is keyed by a file of the bucket that is an image,
    stored as the image of the entry, or a video, the entry having no image
    then. A sidecar never gets an entry of its own. *)
Theorem buildLinks_entries order fl files st :
  (forall f, In f files -> typeOf fl f = TypeImage ->
             imageEntry (fst (buildLinks order fl files st)) f) /\
  anchored fl files (fst (buildLinks order fl files st)).
Proof.
  unfold buildLinks.
  assert (anchored fl files (scanImages fl files ∅)) as Ha.
  { apply scanImages_anchored; [auto |]. intros k l Hk.
    rewrite lookup_empty in Hk. discriminate. }
  destruct (linkFiles_entries order fl files files (scanImages fl files ∅) st
              (fun f H => H) Ha) as [H1 H2].
  split; [| exact H1].
  intros f Hin Ht. apply H2, scanImages_adds; assumption.
Qed.

Lemma buildLinks_entries_witness :
  let files := ["clip.jpg"; "clip.mp4"; "solo.mp4"; "note.xmp"] in
  let links := fst (buildLinks Sample.increasing Sample.flags0 files
                      (start (Sample.browser Sample.flags0 []))) in
  imageEntry links "clip.jpg" /\ anchored Sample.flags0 files links.
Proof.
  intros files links.
  pose proof (buildLinks_entries Sample.increasing Sample.flags0 files
                (start (Sample.browser Sample.flags0 []))) as [H1 H2].
  split; [| exact H2].
  apply (H1 "clip.jpg"); [left; reflexivity | reflexivity].
Defined.

(** ** The order of the maps *)

Lemma find_unique_perm {A} (p : A -> bool) (l1 l2 : list A) :
  Permutation l1 l2 ->
  (forall x y, In x l1 -> In y l1 -> p x = true -> p y = true -> x = y) ->
  find p l1 = find p l2.
Proof.
  intros Hperm Huniq.
  destruct (find p l1) as [x |] eqn:E1; destruct (find p l2) as [y |] eqn:E2;
    [| | | reflexivity].
  - apply find_some in E1 as [Hx Hpx]. apply find_some in E2 as [Hy Hpy].
    f_equal. apply Huniq; try assumption.
    apply (Permutation_in _ (Permutation_sym Hperm) Hy).
  - apply find_some in E1 as [Hx Hpx].
    pose proof (find_none _ _ E2 x (Permutation_in _ Hperm Hx)) as Hn.
    congruence.
  - apply find_some in E2 as [Hy Hpy].
    pose proof (find_none _ _ E1 y
                  (Permutation_in _ (Permutation_sym Hperm) Hy)) as Hn.
    congruence.
Qed.

Lemma sidecarRange_find keys links base file :
  (forall k, In k keys -> is_Some (links !! k)) ->
  sidecarRange keys links base file =
    match find (fun k => String.eqb (stem k) base) keys with
    | Some k =>
        match links !! k with
        | Some l => Some (<[k := setSidecar l file]> links)
        | None => None
        end
    | None => None
    end.
Proof.
  induction keys as [| f keys IH]; intros Hin; simpl; [reflexivity |].
  unfold stem at 1.
  destruct (String.eqb _ base).
  - destruct (Hin f (or_introl eq_refl)) as [l ->]. reflexivity.
  - apply IH. intros k Hk. apply Hin. right. exact Hk.
Qed.

Lemma videoRange_find keys links base file :
  (forall k, In k keys -> is_Some (links !! k)) ->
  videoRange keys links base file =
    match find (fun k => String.eqb (stem k) base || String.eqb (stem k) file)
               keys with
    | Some k =>
        match links !! k with
        | Some l => Some (<[k := setVideo l file]> links)
        | None => None
        end
    | None => None
    end.
Proof.
  induction keys as [| f keys IH]; intros Hin; simpl; [reflexivity |].
  unfold stem at 1 2.
  destruct (Hin f (or_introl eq_refl)) as [l Hl]. rewrite Hl.
  destruct (String.eqb _ base); simpl; [rewrite Hl; reflexivity |].
  destruct (String.eqb _ file); simpl; [rewrite Hl; reflexivity |].
  apply IH. intros k Hk. apply Hin. right. exact Hk.
Qed.

(** The keys a [range] visits are the keys of the map. *)
Lemma sortedKeys_In {V} (m : gmap string V) k :
  In k (sortedKeys m) <-> is_Some (m !! k).
Proof.
  unfold sortedKeys, SortStrings.
  rewrite <- list_elem_of_In, merge_sort_Permutation, list_elem_of_fmap.
  split.
  - intros ([k' v] & -> & Hkv). apply elem_of_map_to_list in Hkv. eauto.
  - intros [v Hv]. exists (k, v). split; [reflexivity |].
    apply elem_of_map_to_list, Hv.
Qed.

Lemma range_In {V} (o : MapOrder) n (m : gmap string V) k :
  validOrder o -> In k (o n (sortedKeys m)) -> is_Some (m !! k).
Proof.
  intros Hv Hk. apply sortedKeys_In.
  apply (Permutation_in _ (Hv n (sortedKeys m)) Hk).
Qed.

(** Linking one file gives the same links for two orders of the maps when
    at most one key is a match for the file. *)
Lemma linkFile_order_irrelevant o1 o2 fl links x st1 st2 :
  validOrder o1 -> validOrder o2 ->
  (forall k1 k2, is_Some (links !! k1) -> is_Some (links !! k2) ->
                 matchesFile x k1 = true -> matchesFile x k2 = true ->
                 k1 = k2) ->
  fst (linkFile o1 fl links x st1) = fst (linkFile o2 fl links x st2).
Proof.
  intros Hv1 Hv2 Huniq. unfold linkFile.
  assert (Permutation (o1 (ranges st1) (sortedKeys links))
                      (o2 (ranges st2) (sortedKeys links))) as Hperm.
  { etransitivity; [apply Hv1 | symmetry; apply Hv2]. }
  destruct (SupportedMedia_TypeFromExt fl (Ext x)); simpl; auto;
    destruct (links !! TrimSuffix x (Ext x)); simpl; auto.
  - rewrite (videoRange_find (o1 (ranges st1) (sortedKeys links)))
      by (intros k Hk; exact (range_In o1 _ links k Hv1 Hk)).
    rewrite (videoRange_find (o2 (ranges st2) (sortedKeys links)))
      by (intros k Hk; exact (range_In o2 _ links k Hv2 Hk)).
    rewrite (find_unique_perm _ _ _ Hperm); [reflexivity |].
    intros k1 k2 H1 H2 Hp1 Hp2.
    apply Huniq; try assumption.
    + exact (range_In o1 _ links k1 Hv1 H1).
    + exact (range_In o1 _ links k2 Hv1 H2).
  - rewrite (sidecarRange_find (o1 (ranges st1) (sortedKeys links)))
      by (intros k Hk; exact (range_In o1 _ links k Hv1 Hk)).
    rewrite (sidecarRange_find (o2 (ranges st2) (sortedKeys links)))
      by (intros k Hk; exact (range_In o2 _ links k Hv2 Hk)).
    rewrite (find_unique_perm _ _ _ Hperm); [reflexivity |].
    intros k1 k2 H1 H2 Hp1 Hp2.
    apply Huniq.
    + exact (range_In o1 _ links k1 Hv1 H1).
    + exact (range_In o1 _ links k2 Hv1 H2).
    + unfold matchesFile, stem in *. rewrite Hp1. reflexivity.
    + unfold matchesFile, stem in *. rewrite Hp2. reflexivity.
Qed.

Lemma scanImages_keysSeen fl files0 rest files : forall links,
  (forall f, In f files -> In f files0) ->
  keysSeen fl files0 rest links ->
  keysSeen fl files0 rest (scanImages fl files links).
Proof.
  unfold scanImages. induction files as [| f files IH]; intros links Hsub Ha;
    simpl; [exact Ha |].
  apply IH; [intros x Hx; apply Hsub; right; exact Hx |].
  destruct (decide _) as [Ht |]; [| exact Ha].
  intros k l Hk. destruct (decide (f = k)) as [<- | Hne].
  - split; [apply Hsub; left; reflexivity |]. left. exact Ht.
  - rewrite lookup_insert_ne in Hk by assumption. apply (Ha k l Hk).
Qed.

Lemma linkFile_keysSeen order fl files0 x rest links st :
  In x files0 -> ~ In x rest ->
  keysSeen fl files0 (x :: rest) links ->
  keysSeen fl files0 rest (fst (linkFile order fl links x st)).
Proof.
  intros Hin Hnot Ha.
  assert (keysSeen fl files0 rest links) as Ha'.
  { intros k l Hk. destruct (Ha k l Hk) as [H1 [H2 | [H2 H3]]];
      (split; [exact H1 |]); [left; exact H2 |].
    right. split; [exact H2 |]. intros Hr. apply H3. right. exact Hr. }
  destruct (linkFile_cases order fl links x st)
    as [-> | [(f & l & l' & Hl & Hi & ->) | (Ht & ->)]]; [exact Ha' | |];
    intros k v Hk.
  - destruct (decide (f = k)) as [<- | Hne].
    + apply (Ha' f l Hl).
    + rewrite lookup_insert_ne in Hk by assumption. apply (Ha' k v Hk).
  - destruct (decide (x = k)) as [<- | Hne].
    + split; [exact Hin |]. right. split; assumption.
    + rewrite lookup_insert_ne in Hk by assumption. apply (Ha' k v Hk).
Qed.

Lemma linkFiles_order_irrelevant o1 o2 fl files0 :
  validOrder o1 -> validOrder o2 -> unambiguous fl files0 ->
  forall rest links st1 st2,
    NoDup rest -> (forall f, In f rest -> In f files0) ->
    keysSeen fl files0 rest links ->
    fst (linkFiles o1 fl rest links st1) = fst (linkFiles o2 fl rest links st2).
Proof.
  intros Hv1 Hv2 Hun. induction rest as [| x rest IH];
    intros links st1 st2 Hnd Hsub Ha; simpl; [reflexivity |].
  apply NoDup_cons in Hnd as [Hx Hnd].
  rewrite list_elem_of_In in Hx.
  unfold bind.
  assert (fst (linkFile o1 fl links x st1) = fst (linkFile o2 fl links x st2))
    as Hsame.
  { destruct (decide (typeOf fl x = TypeImage)) as [Ht | Ht].
    - unfold linkFile. unfold typeOf in Ht. rewrite Ht. reflexivity.
    - apply linkFile_order_irrelevant; [assumption .. |].
      intros k1 k2 [l1 H1] [l2 H2] Hm1 Hm2.
      destruct (Ha k1 l1 H1) as [Hin1 Hk1]. destruct (Ha k2 l2 H2) as [Hin2 Hk2].
      apply (Hun x k1 k2); try assumption.
      + apply Hsub. left. reflexivity.
      + intros ->. destruct Hk1 as [Hk1 | [_ Hk1]];
          [contradiction | apply Hk1; left; reflexivity].
      + intros ->. destruct Hk2 as [Hk2 | [_ Hk2]];
          [contradiction | apply Hk2; left; reflexivity].
      + destruct Hk1 as [Hk1 | [Hk1 _]]; [left | right]; exact Hk1.
      + destruct Hk2 as [Hk2 | [Hk2 _]]; [left | right]; exact Hk2. }
  pose proof (linkFile_keysSeen o1 fl files0 x rest links st1
                (Hsub x (or_introl eq_refl)) Hx Ha) as Ha1.
  destruct (linkFile o1 fl links x st1) as [links1 st1'].
  destruct (linkFile o2 fl links x st2) as [links2 st2'].
  simpl in *. subst links2.
  apply IH; [exact Hnd | intros f Hf; apply Hsub; right; exact Hf | exact Ha1].
Qed.

(** X9. When the names of a bucket are distinct and no file that is not an
    image has two other images or videos of the bucket to be attached to,
    the links of the directory do not depend on the order in which the maps
    are visited: two runs with any two orders build the same links. *)
Theorem buildLinks_order_irrelevant o1 o2 fl files st1 st2 :
  validOrder o1 -> validOrder o2 ->
  NoDup files -> unambiguous fl files ->
  fst (buildLinks o1 fl files st1) = fst (buildLinks o2 fl files st2).
Proof.
  intros Hv1 Hv2 Hnd Hun. unfold buildLinks.
  apply (linkFiles_order_irrelevant o1 o2 fl files Hv1 Hv2 Hun);
    [exact Hnd | auto |].
  apply scanImages_keysSeen; [auto |].
  intros k l Hk. rewrite lookup_empty in Hk. discriminate.
Qed.

Lemma buildLinks_order_irrelevant_witness :
  let files := ["clip.jpg"; "clip.mp4"; "img.jpg"; "img.xmp"] in
  let st := start (Sample.browser Sample.flags0 []) in
  fst (buildLinks Sample.increasing Sample.flags0 files st) =
  fst (buildLinks Sample.decreasing Sample.flags0 files st).
Proof.
  intros files st.
  apply (buildLinks_order_irrelevant Sample.increasing Sample.decreasing
           Sample.flags0 files st st increasing_valid decreasing_valid).
  - apply (bool_decide_unpack _). vm_compute. reflexivity.
  - intros x k1 k2 Hx H1 H2 Htx Hn1 Hn2 Ha1 Ha2 Hm1 Hm2.
    simpl in Hx, H1, H2.
    destruct Hx as [<- | [<- | [<- | [<- | []]]]];
      try (exfalso; apply Htx; reflexivity);
      destruct H1 as [<- | [<- | [<- | [<- | []]]]];
      try (exfalso; apply Hn1; reflexivity);
      try (vm_compute in Hm1; discriminate Hm1);
      destruct H2 as [<- | [<- | [<- | [<- | []]]]];
      try (exfalso; apply Hn2; reflexivity);
      try (vm_compute in Hm2; discriminate Hm2);
      reflexivity.
Defined.

(** ** Paths made of segments *)

Lemma append_String c s t : String c s +:+ t = String c (s +:+ t).
Proof. reflexivity. Qed.

Lemma append_nonempty s c t : String.eqb (s +:+ String c t) "" = false.
Proof. destruct s; reflexivity. Qed.

Lemma splitSlash_go_noslash s : forall cur,
  hasSlash s = false -> splitSlash_go cur s = [String.rev_app cur s].
Proof.
  induction s as [| c s IH]; intros cur H; [reflexivity |].
  simpl in H. apply orb_false_iff in H as [Hc Hs].
  simpl. rewrite Hc. apply IH, Hs.
Qed.

Lemma splitSlash_go_cons s : forall cur r,
  hasSlash s = false ->
  splitSlash_go cur (s +:+ String "/" r) =
    String.rev_app cur s :: splitSlash_go "" r.
Proof.
  induction s as [| c s IH]; intros cur r H; [reflexivity |].
  simpl in H. apply orb_false_iff in H as [Hc Hs].
  rewrite append_String. simpl. rewrite Hc. apply IH, Hs.
Qed.

Lemma Join_cons e e2 rest sep :
  Join (e :: e2 :: rest) sep = e +:+ sep +:+ Join (e2 :: rest) sep.
Proof. reflexivity. Qed.

Lemma append_assoc s t u : (s +:+ t) +:+ u = s +:+ (t +:+ u).
Proof.
  induction s as [| c s IH]; [reflexivity |].
  rewrite !append_String. f_equal. exact IH.
Qed.

Lemma Join_app segs e sep :
  segs <> [] -> Join (segs ++ [e]) sep = Join segs sep +:+ sep +:+ e.
Proof.
  induction segs as [| x [| y segs] IH]; intros Hne; [congruence | reflexivity |].
  change ((x :: y :: segs) ++ [e]) with (x :: y :: (segs ++ [e])).
  rewrite !Join_cons.
  change (y :: segs ++ [e]) with ((y :: segs) ++ [e]).
  rewrite IH by discriminate.
  rewrite !append_assoc. reflexivity.
Qed.

(** Splitting at the slashes undoes joining with slashes. *)
Lemma SplitSlash_Join_app segs t :
  Forall (fun n => hasSlash n = false) segs -> segs <> [] ->
  splitSlash_go "" (Join segs "/" +:+ String "/" t) =
    segs ++ splitSlash_go "" t.
Proof.
  induction 1 as [| e segs He Hall IH]; intros Hne; [congruence |].
  destruct segs as [| e2 segs].
  - simpl Join. rewrite (splitSlash_go_cons e "" t He). reflexivity.
  - rewrite Join_cons, append_assoc.
    change (("/" +:+ Join (e2 :: segs) "/") +:+ String "/" t)
      with (String "/" (Join (e2 :: segs) "/" +:+ String "/" t)).
    rewrite (splitSlash_go_cons e "" _ He).
    rewrite IH by discriminate. reflexivity.
Qed.

Lemma SplitSlash_Join segs :
  Forall (fun n => hasSlash n = false) segs -> segs <> [] ->
  SplitSlash (Join segs "/") = segs.
Proof.
  unfold SplitSlash. intros Hall Hne.
  destruct (exists_last Hne) as (init & e & ->).
  apply Forall_app in Hall as [Hinit He].
  apply Forall_cons_1 in He as [He _].
  destruct init as [| x init]; [apply (splitSlash_go_noslash e "" He) |].
  rewrite Join_app by discriminate.
  change ("/" +:+ e) with (String "/" e).
  rewrite SplitSlash_Join_app by (auto; discriminate).
  rewrite (splitSlash_go_noslash e "" He). reflexivity.
Qed.

Lemma cleanElems_app rooted l1 : forall l2 out,
  cleanElems rooted (l1 ++ l2) out = cleanElems rooted l2 (cleanElems rooted l1 out).
Proof.
  induction l1 as [| e l1 IH]; intros l2 out; [reflexivity |].
  simpl.
  destruct (String.eqb e ""); [apply IH |].
  destruct (String.eqb e "."); [apply IH |].
  destruct (String.eqb e ".."); [| apply IH].
  destruct out as [| o out']; [destruct rooted; apply IH |].
  destruct (String.eqb o ".."); apply IH.
Qed.

Lemma cleanElems_segments segs : forall out,
  Forall segment segs -> cleanElems false segs out = rev segs ++ out.
Proof.
  induction segs as [| e segs IH]; intros out Hall; [reflexivity |].
  apply Forall_cons_1 in Hall as [(_ & H1 & H2 & H3) Hall].
  simpl.
  apply String.eqb_neq in H1, H2, H3. rewrite H1, H2, H3.
  rewrite IH by exact Hall. rewrite <- app_assoc. reflexivity.
Qed.

Lemma segment_first e :
  segment e -> exists c r, e = String c r /\ Ascii.eqb c "/" = false.
Proof.
  intros (Hs & Hne & _). destruct e as [| c r]; [congruence |].
  simpl in Hs. apply orb_false_iff in Hs as [Hc _]. eauto.
Qed.

Lemma Join_first e segs sep :
  segment e ->
  exists c r, Join (e :: segs) sep = String c r /\ Ascii.eqb c "/" = false.
Proof.
  intros He. destruct (segment_first e He) as (c & r & -> & Hc).
  destruct segs as [| e2 segs].
  - exists c, r. auto.
  - rewrite Join_cons, append_String. eauto.
Qed.

Lemma segment_noslash segs :
  Forall segment segs -> Forall (fun n => hasSlash n = false) segs.
Proof.
  intros H. eapply Forall_impl; [exact H |]. intros n Hn. apply Hn.
Qed.

(** A path made of segments is clean already, and a slash after it is
    cleaned away. *)
Lemma Clean_Join segs :
  Forall segment segs -> segs <> [] ->
  Clean (Join segs "/") = Join segs "/" /\
  Clean (Join segs "/" +:+ "/") = Join segs "/".
Proof.
  intros Hall Hne. destruct segs as [| e segs]; [congruence |].
  pose proof Hall as Hall'. apply Forall_cons_1 in Hall' as [He _].
  destruct (Join_first e segs "/" He) as (c & r & Hj & Hc).
  pose proof (SplitSlash_Join (e :: segs) (segment_noslash _ Hall) Hne) as Hs1.
  pose proof (SplitSlash_Join_app (e :: segs) "" (segment_noslash _ Hall) Hne)
    as Hs2.
  change (String "/" "") with "/" in Hs2.
  unfold SplitSlash in Hs1.
  rewrite Hj in *. split.
  - unfold Clean, SplitSlash. rewrite Hc, Hs1.
    rewrite cleanElems_segments by exact Hall.
    rewrite app_nil_r, rev_involutive, Hj. reflexivity.
  - rewrite append_String. unfold Clean, SplitSlash. rewrite Hc.
    rewrite <- append_String, Hs2.
    rewrite cleanElems_app, (cleanElems_segments (e :: segs)) by exact Hall.
    change (splitSlash_go "" "") with [""].
    change (cleanElems false [""] (rev (e :: segs) ++ []))
      with (rev (e :: segs) ++ []).
    rewrite app_nil_r, rev_involutive, Hj. reflexivity.
Qed.

Lemma cutLastSlash_app b : forall p,
  hasSlash b = false ->
  cutLastSlash (p +:+ String "/" b) = (p +:+ "/", b).
Proof.
  intros p Hb. induction p as [| c p IH].
  - change ("" +:+ String "/" b) with (String "/" b). simpl.
    rewrite (cutLastSlash_no_slash b Hb). reflexivity.
  - rewrite !append_String. simpl. rewrite IH.
    rewrite append_nonempty. reflexivity.
Qed.

Lemma stripSlashes_noslash e : hasSlash e = false -> stripSlashes e = e.
Proof.
  induction e as [| c e IH]; intros H; [reflexivity |].
  simpl in H. apply orb_false_iff in H as [Hc He].
  simpl. rewrite (IH He), Hc, andb_false_r. reflexivity.
Qed.

Lemma stripSlashes_app e : forall p,
  hasSlash e = false -> e <> "" -> stripSlashes (p +:+ e) = p +:+ e.
Proof.
  intros p He Hne. induction p as [| c p IH].
  - apply stripSlashes_noslash, He.
  - rewrite append_String. simpl. rewrite IH.
    destruct e as [| c' e']; [congruence |].
    rewrite append_nonempty. reflexivity.
Qed.

(** The directory of a file below a path of segments is that path, and the
    last element of a path of segments is its last segment. *)
Lemma Dir_Join segs b :
  Forall segment segs -> segs <> [] -> hasSlash b = false ->
  Dir (Join (segs ++ [b]) "/") = Join segs "/".
Proof.
  intros Hall Hne Hb. unfold Dir.
  rewrite Join_app by exact Hne.
  change ("/" +:+ b) with (String "/" b).
  rewrite cutLastSlash_app by exact Hb. simpl.
  apply (Clean_Join segs Hall Hne).
Qed.

Lemma Base_Join init d :
  Forall segment (init ++ [d]) -> Base (Join (init ++ [d]) "/") = d.
Proof.
  intros Hall. apply Forall_app in Hall as [Hinit Hd].
  apply Forall_cons_1 in Hd as [(Hs & Hne & _) _].
  unfold Base. destruct init as [| x init].
  - simpl. apply String.eqb_neq in Hne. rewrite Hne.
    rewrite (stripSlashes_noslash d Hs), (cutLastSlash_no_slash d Hs).
    simpl. rewrite Hne. reflexivity.
  - rewrite Join_app by discriminate.
    change ("/" +:+ d) with (String "/" d).
    rewrite append_nonempty.
    change (String "/" d) with ("/" +:+ d).
    rewrite <- append_assoc.
    rewrite (stripSlashes_app d _ Hs Hne).
    rewrite append_assoc. change ("/" +:+ d) with (String "/" d).
    rewrite (cutLastSlash_app d _ Hs). simpl.
    apply String.eqb_neq in Hne. rewrite Hne. reflexivity.
Qed.

Lemma Join_not_dot segs :
  Forall segment segs -> segs <> [] -> String.eqb (Join segs "/") "." = false.
Proof.
  intros Hall Hne. destruct segs as [| e segs]; [congruence |].
  apply Forall_cons_1 in Hall as [(Hs & H1 & H2 & _) _].
  destruct segs as [| e2 segs].
  - simpl. apply String.eqb_neq. exact H2.
  - rewrite Join_cons. apply String.eqb_neq.
    destruct e as [| c [| c' e']]; [congruence | | discriminate].
    rewrite append_String. discriminate.
Qed.

(** ** Album titles at any depth *)

(** X10. Without a fixed album, for a file below directories whose names
    are segments: in path mode the album has the path of the directory of
    the file, and its title is the name of the tree, when it has one,
    followed by the names of the directories down to the file, joined by the
    separator; in folder mode the album has the name of the file as path and
    the name of the directory that holds the file as title. *)
Theorem album_titles_by_depth fl fsys a g init d b :
  ImportIntoAlbum fl = "" ->
  Forall segment (init ++ [d]) -> hasSlash b = false ->
  FileName a = Join ((init ++ [d]) ++ [b]) "/" ->
  (UsePathAsAlbumName fl = FolderModePath ->
   Albums (manageAlbums fl fsys a g) =
     Albums g ++
     [{| albumPath := Join (init ++ [d]) "/";
         albumTitle := Join (option_list (fsName fsys) ++ init ++ [d])
                            (AlbumNamePathSeparator fl) |}]) /\
  (UsePathAsAlbumName fl = FolderModeFolder ->
   Albums (manageAlbums fl fsys a g) =
     Albums g ++ [{| albumPath := FileName a; albumTitle := d |}]).
Proof.
  intros Hinto Hsegs Hb Hname.
  assert (init ++ [d] <> []) as Hne by (destruct init; discriminate).
  pose proof (Dir_Join (init ++ [d]) b Hsegs Hne Hb) as Hdir.
  rewrite <- Hname in Hdir.
  unfold manageAlbums. rewrite Hinto. simpl. split; intros ->.
  - rewrite Hdir, (Join_not_dot _ Hsegs Hne). simpl.
    rewrite (SplitSlash_Join _ (segment_noslash _ Hsegs) Hne).
    destruct (fsName fsys); reflexivity.
  - rewrite Hdir, (Base_Join init d Hsegs).
    apply Forall_app in Hsegs as [_ Hd].
    apply Forall_cons_1 in Hd as [(_ & H1 & H2 & _) _].
    apply String.eqb_neq in H2. rewrite H2.
    rewrite (nonEmpty_true _ H1). reflexivity.
Qed.

Lemma album_titles_by_depth_witness :
  let fsys := Sample.tree [] in
  let a := Sample.asset "2023/summer/beach/img.jpg" 150%Z in
  let g := newGroup GroupKindNone [a] in
  Albums (manageAlbums (Sample.withAlbumMode Sample.flags0 FolderModePath)
            fsys a g) =
    [{| albumPath := "2023/summer/beach";
        albumTitle := "Lib#2023#summer#beach" |}] /\
  Albums (manageAlbums (Sample.withAlbumMode Sample.flags0 FolderModeFolder)
            fsys a g) =
    [{| albumPath := "2023/summer/beach/img.jpg"; albumTitle := "beach" |}].
Proof.
  intros fsys a g.
  assert (Forall segment (["2023"; "summer"] ++ ["beach"])) as Hsegs.
  { repeat apply Forall_cons_2; try constructor;
      repeat split; try reflexivity; discriminate. }
  split.
  - apply (proj1 (album_titles_by_depth
                    (Sample.withAlbumMode Sample.flags0 FolderModePath)
                    fsys a g ["2023"; "summer"] "beach" "img.jpg"
                    eq_refl Hsegs eq_refl eq_refl)).
    reflexivity.
  - apply (proj2 (album_titles_by_depth
                    (Sample.withAlbumMode Sample.flags0 FolderModeFolder)
                    fsys a g ["2023"; "summer"] "beach" "img.jpg"
                    eq_refl Hsegs eq_refl eq_refl)).
    reflexivity.
Defined.

(** ** The walk without recursion *)

Lemma PathJoin_dot n : segment n -> PathJoin "." n = n.
Proof.
  intros Hn. pose proof Hn as (Hs & Hne & _).
  unfold PathJoin. simpl String.eqb at 1.
  apply String.eqb_neq in Hne. rewrite Hne.
  change ("." +:+ "/" +:+ n) with ("." +:+ String "/" n).
  unfold Clean. change ("." +:+ String "/" n) with (String "." (String "/" n)).
  cbv beta iota. change (Ascii.eqb "." "/") with false.
  unfold SplitSlash.
  change (String "." (String "/" n)) with ("." +:+ String "/" n).
  rewrite (splitSlash_go_cons "." "" n eq_refl).
  rewrite (splitSlash_go_noslash n "" Hs).
  change (String.rev_app "" ".") with ".". change (String.rev_app "" n) with n.
  change (cleanElems false ["."; n] []) with (cleanElems false [n] []).
  rewrite (cleanElems_segments [n]) by (repeat constructor; apply Hn).
  simpl. rewrite Hne. reflexivity.
Qed.

Lemma rootOnly_setBucket c k files :
  rootOnly c k -> Forall (fun f => hasSlash f = false) files ->
  rootOnly (<[k := <["." := files]> (default ∅ (c !! k))]> c) k.
Proof.
  intros Hc Hfiles m dir files' Hm Hdir.
  rewrite lookup_insert_eq in Hm. injection Hm as <-.
  destruct (decide ("." = dir)) as [<- | Hd].
  - rewrite lookup_insert_eq in Hdir. injection Hdir as <-. auto.
  - rewrite lookup_insert_ne in Hdir by assumption.
    destruct (c !! k) as [m0 |] eqn:Hk; simpl in Hdir.
    + eapply Hc; eauto.
    + rewrite lookup_empty in Hdir. discriminate.
Qed.

Lemma rootOnly_bucket c b fsys dir :
  catalogs b = c -> rootOnly c (fsKey fsys) ->
  Forall (fun f => hasSlash f = false) (bucket b fsys dir).
Proof.
  intros <- Hc. unfold bucket.
  destruct (catalogs b !! fsKey fsys) as [m |] eqn:Hm; simpl;
    [| rewrite lookup_empty; constructor].
  destruct (m !! dir) as [files |] eqn:Hd; simpl; [| constructor].
  eapply Hc; eauto.
Qed.

(** The function of the walk, without recursion, on a file at the root and
    on a directory. *)
Lemma walkFn_rootOnly ctx fsys name isDir :
  (isDir = false -> hasSlash name = false) ->
  hoare (fun st => Recursive (flags (la st)) = false /\
                   rootOnly (catalogs (la st)) (fsKey fsys))
        (walkFn ctx fsys name isDir None)
        (fun _ st => Recursive (flags (la st)) = false /\
                     rootOnly (catalogs (la st)) (fsKey fsys)).
Proof.
  intros Hname st [Hrec Hc].
  unfold walkFn, bind, getLa, pollDone, setBucket, setCatalogs, Record_,
    ret, withLa, bind, getLa.
  destruct isDir; simpl.
  { rewrite Hrec. simpl. destruct (String.eqb_spec name ".") as [-> | Hne];
      simpl; [| auto].
    split; [exact Hrec |]. apply rootOnly_setBucket; [exact Hc | constructor]. }
  specialize (Hname eq_refl).
  destruct (ctxDone ctx (polls st)); simpl; [auto |].
  destruct (BannedFiles_Match (flags (la st)) name); simpl; [auto |].
  unfold Split. rewrite (cutLastSlash_no_slash name Hname).
  change (TrimSuffix "" "/") with "". cbv iota beta.
  change (String.eqb "" "") with true. cbv iota.
  destruct (decide _) as [Hty | Hty]; simpl; [auto |].
  destruct (SupportedMedia_TypeFromExt (flags (la st)) (Ext name)) eqn:Ht;
    simpl; try congruence.
  3: destruct (IgnoreSideCarFiles (flags (la st))); simpl; [auto |].
  all: destruct (IncludedExtensions_Include _ _); simpl; [| auto].
  all: destruct (ExcludedExtensions_Exclude _ _); simpl; [auto |].
  all: split; [exact Hrec |].
  all: apply rootOnly_setBucket; [exact Hc |].
  all: apply Forall_app; split;
    [apply rootOnly_bucket with (c := catalogs (la st)); auto |].
  all: repeat constructor; exact Hname.
Qed.

(** A walk that does not go below the root keeps what its function keeps
    on the root and on the files of the root. *)
Lemma walkDir_root (J : Run -> Prop) fn rerr entries :
  (forall e, hoare J (fn "." true e) (fun _ => J)) ->
  (forall n, hasSlash n = false -> hoare J (fn n false None) (fun _ => J)) ->
  (forall n st, n <> "." -> J st -> fn n true None st = (RetSkipDir, st)) ->
  Forall (fun d => segment (entryName d)) entries ->
  hoare J (walkDir fn "." (SubDir "." rerr entries)) (fun _ => J).
Proof.
  intros Hroot Hfile Hdir Hsegs. simpl.
  eapply hoare_bind; [apply Hroot |].
  intros [| | e1]; try (apply hoare_ret; auto).
  eapply hoare_bind.
  { instantiate (1 := fun _ => J). destruct rerr; [apply Hroot |].
    apply hoare_ret; auto. }
  intros [| | e2]; try (apply hoare_ret; auto).
  induction Hsegs as [| d1 ds Hd1 _ IHds].
  - apply hoare_ret. auto.
  - rewrite (PathJoin_dot _ Hd1).
    apply (hoare_bind J _ _ (fun _ => J) (fun _ => J));
      [| intros [| | e3];
         [exact IHds | apply hoare_ret; auto | apply hoare_ret; auto]].
    destruct d1 as [n | n e ds'].
    + simpl. apply Hfile, Hd1.
    + simpl in Hd1. intros s Hs. simpl. unfold bind.
      destruct Hd1 as (_ & _ & Hdot & _).
      rewrite (Hdir n s Hdot Hs). simpl. exact Hs.
Qed.

(** X11. Without recursion, the walk of a tree whose root holds entries
    named by segments leaves a catalog with no bucket but the one of the
    root, and every file of that bucket is at the root: nothing below a
    directory of the root is filed. *)
Theorem non_recursive_walk_is_root_only ctx fsys st rerr entries :
  Recursive (flags (la st)) = false ->
  fsRoot fsys = inr (SubDir "." rerr entries) ->
  Forall (fun d => segment (entryName d)) entries ->
  rootOnly (catalogs (la (snd (passOneFsWalk ctx fsys st)))) (fsKey fsys).
Proof.
  intros Hrec Hroot Hsegs.
  set (J := fun st : Run => Recursive (flags (la st)) = false /\
                            rootOnly (catalogs (la st)) (fsKey fsys)).
  assert (hoare J (walkDir (walkFn ctx fsys) "." (SubDir "." rerr entries))
                (fun _ => J)) as Hwalk.
  { apply walkDir_root; [| | | exact Hsegs].
    - intros [e |]; [apply hoare_ret; auto |].
      apply walkFn_rootOnly. discriminate.
    - intros n Hn. apply walkFn_rootOnly. intros _. exact Hn.
    - intros n s Hn [Hr _]. unfold walkFn, bind, getLa, ret. simpl.
      rewrite Hr. apply String.eqb_neq in Hn. rewrite Hn. reflexivity. }
  unfold passOneFsWalk, WalkDir. rewrite Hroot.
  unfold bind at 1 2 3. unfold getLa, setCatalogs.
  match goal with
  | |- context [walkDir _ _ _ ?s0] =>
      pose proof (Hwalk s0) as H0;
      destruct (walkDir (walkFn ctx fsys) "." (SubDir "." rerr entries) s0)
        as [r st1]
  end.
  simpl in H0.
  assert (rootOnly (catalogs (la st1)) (fsKey fsys)) as Hfin.
  { apply H0. split; [exact Hrec |]. simpl. intros m dir files Hm Hd.
    rewrite lookup_insert_eq in Hm. injection Hm as <-.
    rewrite lookup_empty in Hd. discriminate. }
  destruct r; exact Hfin.
Qed.

Lemma non_recursive_walk_is_root_only_witness :
  let fsys := Sample.tree [FileEntry "a.jpg";
                           SubDir "x" None [FileEntry "y.jpg"]] in
  let st := start (Sample.browser (withoutRecursion Sample.flags0) [fsys]) in
  bucket (la (snd (passOneFsWalk Sample.background fsys st))) fsys "." =
    ["a.jpg"] /\
  rootOnly (catalogs (la (snd (passOneFsWalk Sample.background fsys st)))) 0.
Proof.
  intros fsys st. split; [vm_compute; reflexivity |].
  apply (non_recursive_walk_is_root_only Sample.background fsys st None
           [FileEntry "a.jpg"; SubDir "x" None [FileEntry "y.jpg"]]);
    try reflexivity.
  repeat apply Forall_cons_2; try constructor;
    repeat split; try reflexivity; discriminate.
Defined.

(** ** Errors and cancellation in pass one *)

(** X12. When the root of the first tree cannot be walked, because [Stat]
    or [ReadDir] fails on it, [Browse] returns that error and no channel;
    no group is sent and no event is recorded. *)
Theorem Browse_returns_walk_error RM order ctx st t ts e :
  fsyss (la st) = t :: ts ->
  rootFails t e ->
  fst (Browse RM order ctx st) = (None, Some e) /\
  fileChan (snd (Browse RM order ctx st)) = fileChan st /\
  log (la (snd (Browse RM order ctx st))) = log (la st).
Proof.
  intros Htrees Hroot.
  assert (exists st1, passOneFsWalk ctx t st = (Some e, st1) /\
                      fileChan st1 = fileChan st /\
                      log (la st1) = log (la st)) as (st1 & H1 & H2 & H3).
  { unfold passOneFsWalk, WalkDir.
    destruct Hroot as [Hr | [entries Hr]]; rewrite Hr.
    - unfold walkFn, bind, getLa, setCatalogs, ret, withLa. simpl.
      eexists. split; [reflexivity |]. auto.
    - simpl walkDir.
      unfold walkFn, bind, getLa, setBucket, setCatalogs, ret, withLa.
      simpl. rewrite andb_false_r. simpl.
      eexists. split; [reflexivity |]. auto. }
  unfold Browse, bind, getLa. rewrite Htrees. simpl passOneAll.
  unfold bind. rewrite H1. simpl. auto.
Qed.

Lemma Browse_returns_walk_error_witness :
  let t := {| fsKey := 0; fsName := Some "Lib";
              fsRoot := inr (SubDir "." (Some "readdir: permission denied")
                               [FileEntry "a.jpg"]);
              fsStat := fun _ => inr 10%Z |} in
  let st := start (Sample.browser Sample.flags0 [t]) in
  fst (Browse Sample.readMetadata Sample.increasing Sample.background st) =
    (None, Some "readdir: permission denied") /\
  fileChan (snd (Browse Sample.readMetadata Sample.increasing
                   Sample.background st)) = [] /\
  log (la (snd (Browse Sample.readMetadata Sample.increasing
                  Sample.background st))) = [].
Proof.
  intros t st.
  apply (Browse_returns_walk_error Sample.readMetadata Sample.increasing
           Sample.background st t [] "readdir: permission denied").
  - reflexivity.
  - right. exists [FileEntry "a.jpg"]. reflexivity.
Defined.

Lemma walkFn_nothingFiled ctx fsys st0 name isDir err :
  doneFrom ctx (polls st0) ->
  hoare (nothingFiled (fsKey fsys) st0) (walkFn ctx fsys name isDir err)
        (fun _ => nothingFiled (fsKey fsys) st0).
Proof.
  intros Hdone st (Hp & Hl & Hc). unfold nothingFiled.
  unfold walkFn, bind, getLa, pollDone, setBucket, setCatalogs, Record_,
    ret, withLa, bind, getLa.
  destruct err; simpl; [auto |].
  destruct isDir; simpl.
  - destruct (_ && _); simpl; [auto |].
    split; [exact Hp |]. split; [exact Hl |].
    intros m dir files Hm Hd.
    rewrite lookup_insert_eq in Hm. injection Hm as <-.
    destruct (decide (name = dir)) as [<- | Hne].
    + rewrite lookup_insert_eq in Hd. injection Hd as <-. reflexivity.
    + rewrite lookup_insert_ne in Hd by assumption.
      destruct (catalogs (la st) !! fsKey fsys) as [m0 |] eqn:Hk;
        simpl in Hd; [eapply Hc; eauto |].
      rewrite lookup_empty in Hd. discriminate.
  - rewrite (Hdone (polls st) Hp). simpl.
    split; [apply Nat.le_le_succ_r, Hp | auto].
Qed.

(** X13. Once the context is done for good, the walk of a tree files
    nothing and records nothing: every bucket of the tree is empty after
    it, whatever the tree holds. *)
Theorem cancelled_walk_files_nothing ctx fsys st :
  doneFrom ctx (polls st) ->
  log (la (snd (passOneFsWalk ctx fsys st))) = log (la st) /\
  forall m dir files,
    catalogs (la (snd (passOneFsWalk ctx fsys st))) !! fsKey fsys = Some m ->
    m !! dir = Some files -> files = [].
Proof.
  intros Hdone. unfold passOneFsWalk, bind, getLa. simpl.
  apply (WalkDir_inv (nothingFiled (fsKey fsys) st) fsys (walkFn ctx fsys)).
  - intros n d e. apply walkFn_nothingFiled, Hdone.
  - split; [apply Nat.le_refl |]. split; [reflexivity |]. simpl.
    intros m dir files Hm Hd.
    rewrite lookup_insert_eq in Hm. injection Hm as <-.
    rewrite lookup_empty in Hd. discriminate.
Qed.

Lemma cancelled_walk_files_nothing_witness :
  let fsys := Sample.tree [FileEntry "a.jpg"; FileEntry "b.jpg"] in
  let ctx := {| ctxDone := fun _ => true; ctxErr := "context canceled" |} in
  let st := start (Sample.browser Sample.flags0 [fsys]) in
  fst (passOneFsWalk ctx fsys st) = Some "context canceled" /\
  log (la (snd (passOneFsWalk ctx fsys st))) = [] /\
  forall m dir files,
    catalogs (la (snd (passOneFsWalk ctx fsys st))) !! 0 = Some m ->
    m !! dir = Some files -> files = [].
Proof.
  intros fsys ctx st. split; [vm_compute; reflexivity |].
  apply (cancelled_walk_files_nothing ctx fsys st).
  intros m _. reflexivity.
Defined.

(** ** Files without a match *)

Lemma sidecarRange_none keys links base file :
  (forall k l, links !! k = Some l -> String.eqb (stem k) base = false) ->
  sidecarRange keys links base file = None.
Proof.
  intros Hno. induction keys as [| f keys IH]; simpl; [reflexivity |].
  destruct (links !! f) as [l |] eqn:E.
  - unfold stem in Hno. rewrite (Hno f l E). exact IH.
  - destruct (String.eqb _ base); exact IH.
Qed.

Lemma videoRange_none keys links base file :
  (forall k l, links !! k = Some l ->
               String.eqb (stem k) base || String.eqb (stem k) file = false) ->
  videoRange keys links base file = None.
Proof.
  intros Hno. induction keys as [| f keys IH]; simpl; [reflexivity |].
  destruct (links !! f) as [l |] eqn:E.
  - unfold stem in Hno. destruct (orb_false_elim _ _ (Hno f l E)) as [-> ->].
    exact IH.
  - destruct (String.eqb _ base); destruct (String.eqb _ file); exact IH.
Qed.

(** X14. A file that matches no entry, whatever the order of the maps: no
    key is the name of the file without its extension, and no key without
    its extension is that name (or, for a video, the whole name of the
    file). Then a sidecar is dropped, the links staying as they were, and a
    video gets an entry of its own, keyed by its name, with itself as video
    and nothing else. *)
Theorem linkFile_without_match order fl links x st :
  links !! stem x = None ->
  (forall k l, links !! k = Some l -> matchesFile x k = false) ->
  (typeOf fl x = TypeSidecar ->
   fst (linkFile order fl links x st) = links) /\
  (typeOf fl x = TypeVideo ->
   fst (linkFile order fl links x st) =
     <[x := {| image := ""; video := x; sidecar := "" |}]> links).
Proof.
  intros Hkey Hno. unfold typeOf, stem in *. unfold linkFile.
  split; intros Ht; rewrite Ht, Hkey; simpl.
  - rewrite sidecarRange_none; [reflexivity |].
    intros k l Hk. specialize (Hno k l Hk). unfold matchesFile, stem in Hno.
    apply orb_false_elim in Hno as [H _]. exact H.
  - rewrite videoRange_none; [reflexivity |].
    intros k l Hk. apply (Hno k l Hk).
Qed.

Lemma linkFile_without_match_witness :
  let links : gmap string fileLinks := <["a.jpg" := setImage noLinks "a.jpg"]> ∅ in
  let st := start (Sample.browser Sample.flags0 []) in
  fst (linkFile Sample.increasing Sample.flags0 links "b.xmp" st) = links /\
  fst (linkFile Sample.increasing Sample.flags0 links "b.mp4" st) =
    <["b.mp4" := {| image := ""; video := "b.mp4"; sidecar := "" |}]> links.
Proof.
  intros links st.
  assert (forall x, matchesFile x "a.jpg" = false ->
            forall k l, links !! k = Some l -> matchesFile x k = false) as Hone.
  { intros x Hx k l Hk. destruct (decide ("a.jpg" = k)) as [<- | Hne];
      [exact Hx |].
    unfold links in Hk. rewrite lookup_insert_ne in Hk by assumption.
    rewrite lookup_empty in Hk. discriminate. }
  split.
  - apply (proj1 (linkFile_without_match Sample.increasing Sample.flags0
                    links "b.xmp" st eq_refl (Hone "b.xmp" eq_refl))).
    reflexivity.
  - apply (proj2 (linkFile_without_match Sample.increasing Sample.flags0
                    links "b.mp4" st eq_refl (Hone "b.mp4" eq_refl))).
    reflexivity.
Defined.


(** * The scan as a whole *)

(** ** A failure of the primary asset ends pass two *)










(** ** The album of a group handed over *)

(** C8. Without a fixed album, the group [Browse] hands over for the asset
    [a] gets exactly one album. For the asset [a/b/c.jpg]: in path mode with
    the separator [#], on a tree named [Lib], the album is titled
    [Lib#a#b]; in folder mode it is titled [b]. For an asset at the root of
    its tree (no slash in its name), on a tree named [n]: in folder mode the
    album is titled [n], the name not being empty; in path mode it is titled
    [n] alone. *)
Theorem emitted_album_titles RM order ctx st groups g a :
  fst (fst (Browse RM order ctx st)) = Some groups ->
  In g groups ->
  hd_error (Assets g) = Some a ->
  ImportIntoAlbum (flags (la st)) = "" ->
  (UsePathAsAlbumName (flags (la st)) = FolderModePath ->
   AlbumNamePathSeparator (flags (la st)) = "#" ->
   treeNamed (fsyss (la st)) a "Lib" ->
   FileName a = "a/b/c.jpg" ->
   Albums g = [{| albumPath := "a/b"; albumTitle := "Lib#a#b" |}]) /\
  (UsePathAsAlbumName (flags (la st)) = FolderModeFolder ->
   FileName a = "a/b/c.jpg" ->
   Albums g = [{| albumPath := "a/b/c.jpg"; albumTitle := "b" |}]) /\
  (forall n,
     UsePathAsAlbumName (flags (la st)) = FolderModeFolder ->
     treeNamed (fsyss (la st)) a n -> n <> "" ->
     hasSlash (FileName a) = false ->
     Albums g = [{| albumPath := FileName a; albumTitle := n |}]) /\
  (forall n,
     UsePathAsAlbumName (flags (la st)) = FolderModePath ->
     treeNamed (fsyss (la st)) a n ->
     hasSlash (FileName a) = false ->
     Albums g = [{| albumPath := "."; albumTitle := n |}]).
Proof.
  intros Hrun Hg Hhd Hinto.
  pose proof (Browse_sent RM order ctx st groups Hrun) as Hall.
  rewrite Forall_forall in Hall.
  destruct (Hall g (proj2 (list_elem_of_In _ _) Hg))
    as (fsys & a' & g0 & Hin & (_ & Hhd0 & _ & Hal & _ & Hh) & ->).
  destruct (manageAlbums_kind (flags (la st)) fsys a' g0) as (_ & Has & _).
  rewrite Has, Hhd0 in Hhd. injection Hhd as ->.
  assert (FSys a = fsKey fsys) as Hkey.
  { destruct (Assets g0) as [| x l]; [discriminate |].
    injection Hhd0 as ->. apply Forall_cons in Hh as [[Hk _] _]. exact Hk. }
  assert (forall n, treeNamed (fsyss (la st)) a n -> fsName fsys = Some n)
    as Hname.
  { intros n Hn. apply Hn; [exact Hin | symmetry; exact Hkey]. }
  destruct (manageAlbums_titles (flags (la st)) fsys a g0 Hinto)
    as (Hpd & Hfd & Hfr & Hpr).
  rewrite Hal in *. simpl in *.
  split; [| split; [| split]].
  - intros Hm Hsep Hn Hf. rewrite (Hpd "Lib" (Hname _ Hn) Hm Hf), Hsep.
    reflexivity.
  - intros Hm Hf. exact (Hfd Hm Hf).
  - intros n Hm Hn Hne Hroot. exact (Hfr n (Hname _ Hn) Hm Hne Hroot).
  - intros n Hm Hn Hroot. exact (Hpr n (Hname _ Hn) Hm Hroot).
Qed.

(** The tree [Lib] with [c.jpg] at its root and [c.jpg] in [a/b], scanned in
    path mode and in folder mode: the albums of the two groups handed
    over. *)
Lemma emitted_album_titles_witness :
  let fsys := Sample.tree [FileEntry "c.jpg";
                           SubDir "a" None [SubDir "b" None [FileEntry "c.jpg"]]] in
  let scan m :=
    default [] (fst (fst (Browse Sample.readMetadata Sample.increasing
                            Sample.background
                            (start (Sample.browser
                                      (Sample.withAlbumMode Sample.flags0 m)
                                      [fsys]))))) in
  let none := newGroup GroupKindNone [] in
  Albums (nth 1 (scan FolderModePath) none) =
    [{| albumPath := "a/b"; albumTitle := "Lib#a#b" |}] /\
  Albums (nth 1 (scan FolderModeFolder) none) =
    [{| albumPath := "a/b/c.jpg"; albumTitle := "b" |}] /\
  Albums (nth 0 (scan FolderModeFolder) none) =
    [{| albumPath := "c.jpg"; albumTitle := "Lib" |}] /\
  Albums (nth 0 (scan FolderModePath) none) =
    [{| albumPath := "."; albumTitle := "Lib" |}].
Proof.
  intros fsys scan none.
  set (deep := Sample.asset "a/b/c.jpg" 150%Z).
  set (top := Sample.asset "c.jpg" 150%Z).
  set (st m := start (Sample.browser (Sample.withAlbumMode Sample.flags0 m)
                        [fsys])).
  assert (forall a, treeNamed [fsys] a "Lib") as Hn.
  { intros a t [<- | []] _. reflexivity. }
  assert (fst (fst (Browse Sample.readMetadata Sample.increasing
                      Sample.background (st FolderModePath))) =
          Some (scan FolderModePath)) as Hp by (vm_compute; reflexivity).
  assert (fst (fst (Browse Sample.readMetadata Sample.increasing
                      Sample.background (st FolderModeFolder))) =
          Some (scan FolderModeFolder)) as Hf by (vm_compute; reflexivity).
  assert (In (nth 0 (scan FolderModePath) none) (scan FolderModePath)) as Hp0
    by (vm_compute; left; reflexivity).
  assert (In (nth 1 (scan FolderModePath) none) (scan FolderModePath)) as Hp1
    by (vm_compute; right; left; reflexivity).
  assert (In (nth 0 (scan FolderModeFolder) none) (scan FolderModeFolder))
    as Hf0 by (vm_compute; left; reflexivity).
  assert (In (nth 1 (scan FolderModeFolder) none) (scan FolderModeFolder))
    as Hf1 by (vm_compute; right; left; reflexivity).
  assert (hd_error (Assets (nth 0 (scan FolderModePath) none)) = Some top)
    as Hpt by (vm_compute; reflexivity).
  assert (hd_error (Assets (nth 1 (scan FolderModePath) none)) = Some deep)
    as Hpd by (vm_compute; reflexivity).
  assert (hd_error (Assets (nth 0 (scan FolderModeFolder) none)) = Some top)
    as Hft by (vm_compute; reflexivity).
  assert (hd_error (Assets (nth 1 (scan FolderModeFolder) none)) = Some deep)
    as Hfd by (vm_compute; reflexivity).
  split; [| split; [| split]].
  - exact (proj1 (emitted_album_titles _ _ _ (st FolderModePath) _ _ _
                    Hp Hp1 Hpd eq_refl)
             eq_refl eq_refl (Hn deep) eq_refl).
  - exact (proj1 (proj2 (emitted_album_titles _ _ _ (st FolderModeFolder) _ _ _
                           Hf Hf1 Hfd eq_refl))
             eq_refl eq_refl).
  - exact (proj1 (proj2 (proj2 (emitted_album_titles _ _ _
                                  (st FolderModeFolder) _ _ _
                                  Hf Hf0 Hft eq_refl)))
             "Lib" eq_refl (Hn top) ltac:(discriminate) eq_refl).
  - exact (proj2 (proj2 (proj2 (emitted_album_titles _ _ _
                                  (st FolderModePath) _ _ _
                                  Hp Hp0 Hpt eq_refl)))
             "Lib" eq_refl (Hn top) eq_refl).
Defined.
